(** * The Keycloak session hook of DreamN ([frontend/src/hooks/useKeycloak.jsx])

    A shallow embedding of the hook: the module-level variables, the
    subscriber broadcast, the per-hook React state, the permission merge of
    [loadRoleAttributes], the turns of the asynchronous functions
    [initKeycloak], [loadUserInfo], the scheduled and the manual
    [updateToken] and [logout], and the handlers installed on the client;
    with it the request interceptor of
    [frontend/src/services/api.service.js], which reads the token of the hook.
    [updateProfile] and [isTokenExpired] are not modelled.

    Conventions of the embedding.
    - A JavaScript object used as a dictionary (the [role_attributes] claim,
      the merged permissions) is a [gmap string _] over its own string keys.
      Claim values are [JsVal]; numbers in claims are integers.  The claim
      object is only read under its own keys.  The permissions object is
      written with [prop_set], which stores nothing under ["__proto__"], and
      is read with [=== true], which no inherited property satisfies.
    - A [Keycloak] client is a mutable object shared by reference: the world
      holds a store of clients and the code passes references around.  The
      provider itself is the environment: what it answers is an input.
    - An asynchronous function is cut at its [await]s: one definition for the
      turn that runs up to the suspension, one for the turn that runs when
      the awaited provider call settles.  The continuation waits in [tasks].
    - React state is read where the code reads it; the hook is taken to be
      re-rendered after every state change, so callbacks see the current
      values.
    - [provider_calls], [console] and [delivered] are ghost records of what
      the code did, in order: the calls of the provider, the lines of
      [console.error], the events handed to subscribers. *)

From Stdlib Require Import ZArith String.
From stdpp Require Import base option list gmap strings fin_maps.

Local Open Scope string_scope.
Local Open Scope list_scope.

(** ** JavaScript values found in token claims *)

Inductive JsVal :=
| JUndefined
| JNull
| JBool (b : bool)
| JNum (n : Z)
| JStr (s : string)
| JObject.

#[global] Instance JsVal_eq_dec : EqDecision JsVal.
Proof. solve_decision. Defined.

(** [a === b] on claim values. *)
Definition strict_eq (a b : JsVal) : bool := bool_decide (a = b).

(** [Object.keys(o)] *)
Definition Object_keys {V} (o : gmap string V) : list string := (map_to_list o).*1.

(** [o[k]]: an absent property reads [undefined]. *)
Definition prop_get (o : gmap string JsVal) (k : string) : JsVal :=
  default JUndefined (o !! k).

(** [o[k] = v] for a boolean [v] on an object made by the literal [{}].
    The assignment creates or overwrites an own data property under every
    key but ["__proto__"]: that name is the accessor [o] inherits from
    [Object.prototype], whose setter ignores a value that is not an object,
    so the assignment stores nothing. *)
Definition prop_set (k : string) (v : bool) (o : gmap string bool) : gmap string bool :=
  if bool_decide (k = "__proto__") then o else <[k := v]> o.

(** [arr.includes(x)] *)
Definition includes (arr : list string) (x : string) : bool := bool_decide (x ∈ arr).

(** [s || d] on a string that may be undefined: the empty string is falsy. *)
Definition or_default (s : option string) (d : string) : string :=
  match s with
  | Some v => if bool_decide (v = "") then d else v
  | None => d
  end.

(** [s || null] *)
Definition or_null (s : option string) : option string :=
  match s with
  | Some v => if bool_decide (v = "") then None else Some v
  | None => None
  end.

(** ** Environment ([config/env.config.js] and the browser) *)

Record ImportMetaEnv := {
  VITE_KEYCLOAK_CLIENT : option string;
  VITE_KEYCLOAK_SUPER_ROLE : option string;
  (** [window.location.origin], read by [logout] *)
  window_location_origin : string;
}.

(** ** The provider client, as far as the hook reads it *)

Record KeycloakInstance := {
  kc_authenticated : bool;
  kc_token : option string;
  kc_refreshToken : option string;
  (** [tokenParsed?.role_attributes], [None] when either is missing *)
  kc_role_attributes : option (gmap string JsVal);
  (** [realmAccess?.roles] *)
  kc_realmAccess : option (list string);
  (** [resourceAccess]: client id to [roles] *)
  kc_resourceAccess : gmap string (list string);
}.

Section Roles.

Variable env : ImportMetaEnv.

(** [ENV.KEYCLOAK.SUPER_ROLE] *)
Definition SUPER_ROLE : string := or_default (VITE_KEYCLOAK_SUPER_ROLE env) "tsadmin".

(** [KEYCLOAK_CONFIG.clientId]; an undefined client id finds no entry. *)
Definition clientId : option string := VITE_KEYCLOAK_CLIENT env.

(** The functions below take [keycloakInstance] as [option]: [None] is a
    null reference ([keycloakInstance?.authenticated] is then falsy). *)

Definition getClientRoles (keycloakInstance : option KeycloakInstance) : list string :=
  match keycloakInstance with
  | Some kc =>
      if negb (kc_authenticated kc) then []
      else
        let clientAccess := c ← clientId; kc_resourceAccess kc !! c in
        default [] clientAccess
  | None => []
  end.

Definition getUserRoles (keycloakInstance : option KeycloakInstance) : list string :=
  match keycloakInstance with
  | Some kc =>
      if negb (kc_authenticated kc) then []
      else
        let realmRoles := default [] (kc_realmAccess kc) in
        let clientRoles := getClientRoles keycloakInstance in
        realmRoles ++ clientRoles
  | None => []
  end.

Definition hasSuperRole (keycloakInstance : option KeycloakInstance) : bool :=
  match keycloakInstance with
  | Some kc =>
      if negb (kc_authenticated kc) then false
      else
        let userRoles := getUserRoles keycloakInstance in
        includes userRoles SUPER_ROLE
  | None => false
  end.

End Roles.

Definition defaultRoles : list string :=
  ["two-shoulder"; "offline_access"; "uma_authorization"].

Definition isCustomRole (roleName : string) : bool :=
  if String.prefix "default-roles-" roleName then false
  else if bool_decide (roleName = "two-shoulder") then true
  else if includes defaultRoles roleName then false
  else true.

(** The test of line 195 on one claim value. *)
Definition claim_enables (value : JsVal) : bool :=
  strict_eq value (JBool true) || strict_eq value (JStr "true")
  || strict_eq value (JStr "1") || strict_eq value (JNum 1).

(** The permission merge of [loadRoleAttributes] (lines 175-202):
    [mergedPermissions] starts as [{}] and is assigned key by key, with
    [mergedPermissions[module] = true] or [= false].  The claim object comes
    out of [JSON.parse], so ["__proto__"] can be one of its own keys, and
    [Object.keys] then lists it. *)
Definition mergedPermissions (hasSuper hasTwoShoulder : bool)
    (filteredRoles : list string) (roleAttributesFromToken : gmap string JsVal)
    : gmap string bool :=
  if hasSuper then
    foldl (λ merged module, prop_set module true merged) ∅
          (Object_keys roleAttributesFromToken)
  else if hasTwoShoulder then
    foldl (λ merged module, prop_set module true merged) ∅
          (Object_keys roleAttributesFromToken)
  else
    foldl (λ merged role,
             foldl (λ merged module,
                      let value := prop_get roleAttributesFromToken module in
                      if claim_enables value
                      then prop_set module true merged
                      else prop_set module false merged)
                   merged (Object_keys roleAttributesFromToken))
          ∅ filteredRoles.

(** [roleAttributesMap] (lines 205-208): every custom role gets the whole
    claim object under the key ["realm:" + role]. *)
Definition roleAttributesMap (filteredRoles : list string)
    (roleAttributesFromToken : gmap string JsVal)
    : gmap string (gmap string JsVal) :=
  foldl (λ acc role, <["realm:" +:+ role := roleAttributesFromToken]> acc)
        ∅ filteredRoles.

(** ** Effects: state and exceptions

    A synchronous piece of JavaScript runs on a state and either completes
    with a value or throws. *)

(** A thrown [Error], by its [message]. *)
Definition Exn := string.

Inductive Completion (A : Type) :=
| Normal (a : A)
| Throw (error : Exn).
Arguments Normal {A} a.
Arguments Throw {A} error.

Definition Eff (St A : Type) : Type := St → Completion A * St.

#[global] Instance Eff_ret St : MRet (Eff St) := λ A a s, (Normal a, s).

#[global] Instance Eff_bind St : MBind (Eff St) := λ A B f m s,
  match m s with
  | (Normal a, s') => f a s'
  | (Throw error, s') => (Throw error, s')
  end.

Definition throw {St A} (error : Exn) : Eff St A := λ s, (Throw error, s).

(** [try { body } catch (error) { handler }] *)
Definition try_catch {St A} (body : Eff St A) (handler : Exn → Eff St A) : Eff St A := λ s,
  match body s with
  | (Normal a, s') => (Normal a, s')
  | (Throw error, s') => handler error s'
  end.

Definition gets {St A} (f : St → A) : Eff St A := λ s, (Normal (f s), s).

Definition modify {St} (f : St → St) : Eff St unit := λ s, (Normal tt, f s).

(** [if (b) { m }] *)
Definition when {St} (b : bool) (m : Eff St unit) : Eff St unit :=
  if b then m else mret tt.

(** [l.forEach(f)]: a throw of [f] ends the loop and propagates. *)
Fixpoint forEach {St A} (f : A → Eff St unit) (l : list A) : Eff St unit :=
  match l with
  | [] => mret tt
  | x :: l' => f x ;; forEach f l'
  end.

(** The state a piece of code leaves behind. *)
Definition exec {St A} (m : Eff St A) (s : St) : St := snd (m s).

(** ** State-change events *)

Definition InstRef := nat.
Definition PromiseRef := nat.
Definition HookId := nat.
Definition TimerId := positive.

(** The object passed to [notifyStateChange].  A field the sender leaves out
    reads as its falsy value. *)
Record StateEvent := {
  ev_type : string;
  ev_keycloak : option InstRef;
  ev_authenticated : bool;
  ev_loading : bool;
  ev_error : option string;
  ev_token : option string;
  ev_refreshToken : option string;
}.

Definition blank_event (type : string) : StateEvent :=
  {| ev_type := type; ev_keycloak := None; ev_authenticated := false;
     ev_loading := false; ev_error := None; ev_token := None;
     ev_refreshToken := None |}.

(** [{ type: 'RESET', authenticated: false, loading: false, error: null }] *)
Definition RESET : StateEvent := blank_event "RESET".

(** [{ type: 'LOADING', loading: true, error: null }] *)
Definition LOADING : StateEvent :=
  {| ev_type := "LOADING"; ev_keycloak := None; ev_authenticated := false;
     ev_loading := true; ev_error := None; ev_token := None;
     ev_refreshToken := None |}.

(** [{ type: 'INITIALIZED', keycloak: keycloakInstance, authenticated }] *)
Definition INITIALIZED (keycloakInstance : InstRef) (authenticated : bool) : StateEvent :=
  {| ev_type := "INITIALIZED"; ev_keycloak := Some keycloakInstance;
     ev_authenticated := authenticated; ev_loading := false; ev_error := None;
     ev_token := None; ev_refreshToken := None |}.

(** [{ type: 'ERROR', error }] *)
Definition ERROR (error : string) : StateEvent :=
  {| ev_type := "ERROR"; ev_keycloak := None; ev_authenticated := false;
     ev_loading := false; ev_error := Some error; ev_token := None;
     ev_refreshToken := None |}.

(** [{ type: 'TOKEN_UPDATED', token: newToken, refreshToken: newRefreshToken }] *)
Definition TOKEN_UPDATED (newToken newRefreshToken : option string) : StateEvent :=
  {| ev_type := "TOKEN_UPDATED"; ev_keycloak := None; ev_authenticated := false;
     ev_loading := false; ev_error := None; ev_token := newToken;
     ev_refreshToken := newRefreshToken |}.

(** ** The broadcast ([stateSubscribers], [notifyStateChange])

    Stated for any kind of subscriber: a subscriber acts on the observers'
    state [St] and may throw.  The module-private subscriber set and the
    console are out of a subscriber's reach.  [ch_delivered] is a ghost
    record of the calls made, in order. *)

Module Broadcast.
Section Channel.

Context {Sub St : Type}.

Record Channel := {
  ch_subscribers : list Sub;
  ch_observers : St;
  ch_console : list string;
  ch_delivered : list (Sub * StateEvent);
}.

(** The code run when subscriber [s] is called with an event. *)
Variable subscriber : Sub → StateEvent → Eff St unit.

(** [subscriber(newState)] *)
Definition call (s : Sub) (newState : StateEvent) : Eff Channel unit := λ ch,
  let '(c, st) := subscriber s newState (ch_observers ch) in
  (c, {| ch_subscribers := ch_subscribers ch; ch_observers := st;
         ch_console := ch_console ch;
         ch_delivered := ch_delivered ch ++ [(s, newState)] |}).

Definition console_error (line : string) : Eff Channel unit :=
  modify (λ ch, {| ch_subscribers := ch_subscribers ch;
                   ch_observers := ch_observers ch;
                   ch_console := ch_console ch ++ [line];
                   ch_delivered := ch_delivered ch |}).

Definition notifyStateChange (newState : StateEvent) : Eff Channel unit :=
  subscribers ← gets ch_subscribers;
  forEach (λ s,
    try_catch (call s newState)
              (λ error, console_error ("Error notifying state subscriber: " +:+ error)))
    subscribers.

(** What the subscribers of a list leave behind and what they throw when
    called in order with an event, each call running to its end. *)
Fixpoint observed (newState : StateEvent) (subs : list Sub) (st : St) : St :=
  match subs with
  | [] => st
  | s :: subs' => observed newState subs' (snd (subscriber s newState st))
  end.

Fixpoint thrown (newState : StateEvent) (subs : list Sub) (st : St) : list Exn :=
  match subs with
  | [] => []
  | s :: subs' =>
      match subscriber s newState st with
      | (Normal _, st') => thrown newState subs' st'
      | (Throw error, st') => error :: thrown newState subs' st'
      end
  end.

End Channel.
Arguments Channel : clear implicits.
End Broadcast.

(** ** The state of one hook instance ([useState], [useRef]) *)

Record UserInfo := {
  ui_id : option string;
  ui_username : option string;
  ui_email : option string;
  ui_firstName : option string;
  ui_lastName : option string;
  ui_name : string;
  ui_roles : list string;
  ui_realmRoles : list string;
  ui_clientRoles : list string;
  ui_hasSuperRole : bool;
}.

Record Hook := {
  keycloak : option InstRef;
  authenticated : bool;
  loading : bool;
  error : option string;
  userInfo : option UserInfo;
  token : option string;
  refreshToken : option string;
  roleAttributes : gmap string (gmap string JsVal);
  permissions : gmap string bool;
  updateTokenTimeoutRef : option TimerId;
  isMountedRef : bool;
}.

(** The [setState] functions and the ref assignments. *)
Definition setKeycloak v (hook : Hook) : Hook :=
  {| keycloak := v; authenticated := authenticated hook; loading := loading hook;
     error := error hook; userInfo := userInfo hook; token := token hook;
     refreshToken := refreshToken hook; roleAttributes := roleAttributes hook;
     permissions := permissions hook;
     updateTokenTimeoutRef := updateTokenTimeoutRef hook;
     isMountedRef := isMountedRef hook |}.
Definition setAuthenticated v (hook : Hook) : Hook :=
  {| keycloak := keycloak hook; authenticated := v; loading := loading hook;
     error := error hook; userInfo := userInfo hook; token := token hook;
     refreshToken := refreshToken hook; roleAttributes := roleAttributes hook;
     permissions := permissions hook;
     updateTokenTimeoutRef := updateTokenTimeoutRef hook;
     isMountedRef := isMountedRef hook |}.
Definition setLoading v (hook : Hook) : Hook :=
  {| keycloak := keycloak hook; authenticated := authenticated hook; loading := v;
     error := error hook; userInfo := userInfo hook; token := token hook;
     refreshToken := refreshToken hook; roleAttributes := roleAttributes hook;
     permissions := permissions hook;
     updateTokenTimeoutRef := updateTokenTimeoutRef hook;
     isMountedRef := isMountedRef hook |}.
Definition setError v (hook : Hook) : Hook :=
  {| keycloak := keycloak hook; authenticated := authenticated hook;
     loading := loading hook; error := v; userInfo := userInfo hook;
     token := token hook; refreshToken := refreshToken hook;
     roleAttributes := roleAttributes hook; permissions := permissions hook;
     updateTokenTimeoutRef := updateTokenTimeoutRef hook;
     isMountedRef := isMountedRef hook |}.
Definition setUserInfo v (hook : Hook) : Hook :=
  {| keycloak := keycloak hook; authenticated := authenticated hook;
     loading := loading hook; error := error hook; userInfo := v; token := token hook;
     refreshToken := refreshToken hook; roleAttributes := roleAttributes hook;
     permissions := permissions hook;
     updateTokenTimeoutRef := updateTokenTimeoutRef hook;
     isMountedRef := isMountedRef hook |}.
Definition setToken v (hook : Hook) : Hook :=
  {| keycloak := keycloak hook; authenticated := authenticated hook;
     loading := loading hook; error := error hook; userInfo := userInfo hook;
     token := v; refreshToken := refreshToken hook;
     roleAttributes := roleAttributes hook; permissions := permissions hook;
     updateTokenTimeoutRef := updateTokenTimeoutRef hook;
     isMountedRef := isMountedRef hook |}.
Definition setRefreshToken v (hook : Hook) : Hook :=
  {| keycloak := keycloak hook; authenticated := authenticated hook;
     loading := loading hook; error := error hook; userInfo := userInfo hook;
     token := token hook; refreshToken := v; roleAttributes := roleAttributes hook;
     permissions := permissions hook;
     updateTokenTimeoutRef := updateTokenTimeoutRef hook;
     isMountedRef := isMountedRef hook |}.
Definition setRoleAttributes v (hook : Hook) : Hook :=
  {| keycloak := keycloak hook; authenticated := authenticated hook;
     loading := loading hook; error := error hook; userInfo := userInfo hook;
     token := token hook; refreshToken := refreshToken hook; roleAttributes := v;
     permissions := permissions hook;
     updateTokenTimeoutRef := updateTokenTimeoutRef hook;
     isMountedRef := isMountedRef hook |}.
Definition setPermissions v (hook : Hook) : Hook :=
  {| keycloak := keycloak hook; authenticated := authenticated hook;
     loading := loading hook; error := error hook; userInfo := userInfo hook;
     token := token hook; refreshToken := refreshToken hook;
     roleAttributes := roleAttributes hook; permissions := v;
     updateTokenTimeoutRef := updateTokenTimeoutRef hook;
     isMountedRef := isMountedRef hook |}.
Definition set_updateTokenTimeoutRef v (hook : Hook) : Hook :=
  {| keycloak := keycloak hook; authenticated := authenticated hook;
     loading := loading hook; error := error hook; userInfo := userInfo hook;
     token := token hook; refreshToken := refreshToken hook;
     roleAttributes := roleAttributes hook; permissions := permissions hook;
     updateTokenTimeoutRef := v; isMountedRef := isMountedRef hook |}.
Definition set_isMountedRef v (hook : Hook) : Hook :=
  {| keycloak := keycloak hook; authenticated := authenticated hook;
     loading := loading hook; error := error hook; userInfo := userInfo hook;
     token := token hook; refreshToken := refreshToken hook;
     roleAttributes := roleAttributes hook; permissions := permissions hook;
     updateTokenTimeoutRef := updateTokenTimeoutRef hook; isMountedRef := v |}.

(** Statements in sequence on one hook: [hook |> f |> g] runs [f], then [g]. *)
Notation "x |> f" := (f x) (at level 45, left associativity, only parsing).

(** [handleStateChange], the subscriber of a hook instance (lines 75-105). *)
Definition handleStateChange (newState : StateEvent) (hook : Hook) : Hook :=
  if negb (isMountedRef hook) then hook
  else if bool_decide (ev_type newState = "RESET") then
    hook |> setKeycloak None
         |> setAuthenticated false
         |> setLoading false
         |> setError None
         |> setUserInfo None
         |> setToken None
         |> setRefreshToken None
         |> setRoleAttributes ∅
         |> setPermissions ∅
  else if bool_decide (ev_type newState = "INITIALIZED") then
    hook |> setKeycloak (ev_keycloak newState)
         |> setAuthenticated (ev_authenticated newState)
         |> setLoading false
         |> setError None
  else if bool_decide (ev_type newState = "ERROR") then
    hook |> setError (ev_error newState)
         |> setLoading false
  else if bool_decide (ev_type newState = "TOKEN_UPDATED") then
    hook |> setToken (ev_token newState)
         |> setRefreshToken (ev_refreshToken newState)
  else hook.

(** ** The world: module variables, hook instances, the runtime *)

Inductive Phase := idle | initializing | initialized | failed.

#[global] Instance Phase_eq_dec : EqDecision Phase.
Proof. solve_decision. Defined.

(** What the promises of this module resolve with. *)
Inductive Value :=
| VNull
| VInstance (keycloakInstance : InstRef)
| VInitResult (keycloakInstance : InstRef) (authenticated : bool).

(** How an awaited operation settles. *)
Inductive Outcome (A : Type) :=
| Resolved (a : A)
| Rejected (error : Exn).
Arguments Resolved {A} a.
Arguments Rejected {A} error.

(** [await] on a settled operation. *)
Definition await {St A} (o : Outcome A) : Eff St A :=
  match o with
  | Resolved a => mret a
  | Rejected error => throw error
  end.

(** A continuation parked at an [await]. *)
Inductive Task :=
| AwaitProviderInit (p : PromiseRef) (keycloakInstance : InstRef)
| AwaitInitPromise (h : HookId) (p r : PromiseRef)
| AwaitUserData (h : HookId) (keycloakInstance : InstRef) (r : PromiseRef)
| AwaitUpdateToken (h : HookId) (keycloakInstance : InstRef)
| AwaitLogout (h : HookId).

#[global] Instance Task_eq_dec : EqDecision Task.
Proof. solve_decision. Defined.

(** Calls made on the provider client (a ghost record, in order). *)
Inductive ProviderCall :=
| call_init (keycloakInstance : InstRef)
| call_updateToken (keycloakInstance : InstRef) (minValidity : Z)
| call_loadUserProfile (keycloakInstance : InstRef)
| call_logout (keycloakInstance : InstRef) (options : gmap string string).

Record World := {
  (** module-level variables (lines 8-14) *)
  keycloakSingleton : option InstRef;
  keycloakInitPromise : option PromiseRef;
  initializationState : Phase;
  globalError : option Exn;
  stateSubscribers : list HookId;
  (** the mounted and unmounted hook instances *)
  hooks : gmap HookId Hook;
  (** heap: the clients made by [new Keycloak], the promises of this module
      ([None] is pending) *)
  instances : list KeycloakInstance;
  promises : list (option (Outcome Value));
  (** pending [setTimeout]s: the closure [updateToken] of a hook and a
      client, and the delay *)
  timers : gmap TimerId (HookId * InstRef * Z);
  nextTimer : TimerId;
  tasks : list Task;
  (** ghost records *)
  provider_calls : list ProviderCall;
  console : list string;
  delivered : list (HookId * StateEvent);
}.

(** Assignments to the fields of the world. *)
Definition set_keycloakSingleton v (w : World) : World :=
  {| keycloakSingleton := v; keycloakInitPromise := keycloakInitPromise w;
     initializationState := initializationState w; globalError := globalError w;
     stateSubscribers := stateSubscribers w; hooks := hooks w;
     instances := instances w; promises := promises w; timers := timers w;
     nextTimer := nextTimer w; tasks := tasks w; provider_calls := provider_calls w;
     console := console w; delivered := delivered w |}.
Definition set_keycloakInitPromise v (w : World) : World :=
  {| keycloakSingleton := keycloakSingleton w; keycloakInitPromise := v;
     initializationState := initializationState w; globalError := globalError w;
     stateSubscribers := stateSubscribers w; hooks := hooks w;
     instances := instances w; promises := promises w; timers := timers w;
     nextTimer := nextTimer w; tasks := tasks w; provider_calls := provider_calls w;
     console := console w; delivered := delivered w |}.
Definition set_initializationState v (w : World) : World :=
  {| keycloakSingleton := keycloakSingleton w;
     keycloakInitPromise := keycloakInitPromise w; initializationState := v;
     globalError := globalError w; stateSubscribers := stateSubscribers w;
     hooks := hooks w; instances := instances w; promises := promises w;
     timers := timers w; nextTimer := nextTimer w; tasks := tasks w;
     provider_calls := provider_calls w; console := console w;
     delivered := delivered w |}.
Definition set_globalError v (w : World) : World :=
  {| keycloakSingleton := keycloakSingleton w;
     keycloakInitPromise := keycloakInitPromise w;
     initializationState := initializationState w; globalError := v;
     stateSubscribers := stateSubscribers w; hooks := hooks w;
     instances := instances w; promises := promises w; timers := timers w;
     nextTimer := nextTimer w; tasks := tasks w; provider_calls := provider_calls w;
     console := console w; delivered := delivered w |}.
Definition set_stateSubscribers v (w : World) : World :=
  {| keycloakSingleton := keycloakSingleton w;
     keycloakInitPromise := keycloakInitPromise w;
     initializationState := initializationState w; globalError := globalError w;
     stateSubscribers := v; hooks := hooks w; instances := instances w;
     promises := promises w; timers := timers w; nextTimer := nextTimer w;
     tasks := tasks w; provider_calls := provider_calls w; console := console w;
     delivered := delivered w |}.
Definition set_hooks v (w : World) : World :=
  {| keycloakSingleton := keycloakSingleton w;
     keycloakInitPromise := keycloakInitPromise w;
     initializationState := initializationState w; globalError := globalError w;
     stateSubscribers := stateSubscribers w; hooks := v; instances := instances w;
     promises := promises w; timers := timers w; nextTimer := nextTimer w;
     tasks := tasks w; provider_calls := provider_calls w; console := console w;
     delivered := delivered w |}.
Definition set_instances v (w : World) : World :=
  {| keycloakSingleton := keycloakSingleton w;
     keycloakInitPromise := keycloakInitPromise w;
     initializationState := initializationState w; globalError := globalError w;
     stateSubscribers := stateSubscribers w; hooks := hooks w; instances := v;
     promises := promises w; timers := timers w; nextTimer := nextTimer w;
     tasks := tasks w; provider_calls := provider_calls w; console := console w;
     delivered := delivered w |}.
Definition set_promises v (w : World) : World :=
  {| keycloakSingleton := keycloakSingleton w;
     keycloakInitPromise := keycloakInitPromise w;
     initializationState := initializationState w; globalError := globalError w;
     stateSubscribers := stateSubscribers w; hooks := hooks w;
     instances := instances w; promises := v; timers := timers w;
     nextTimer := nextTimer w; tasks := tasks w; provider_calls := provider_calls w;
     console := console w; delivered := delivered w |}.
Definition set_timers v (w : World) : World :=
  {| keycloakSingleton := keycloakSingleton w;
     keycloakInitPromise := keycloakInitPromise w;
     initializationState := initializationState w; globalError := globalError w;
     stateSubscribers := stateSubscribers w; hooks := hooks w;
     instances := instances w; promises := promises w; timers := v;
     nextTimer := nextTimer w; tasks := tasks w; provider_calls := provider_calls w;
     console := console w; delivered := delivered w |}.
Definition set_nextTimer v (w : World) : World :=
  {| keycloakSingleton := keycloakSingleton w;
     keycloakInitPromise := keycloakInitPromise w;
     initializationState := initializationState w; globalError := globalError w;
     stateSubscribers := stateSubscribers w; hooks := hooks w;
     instances := instances w; promises := promises w; timers := timers w;
     nextTimer := v; tasks := tasks w; provider_calls := provider_calls w;
     console := console w; delivered := delivered w |}.
Definition set_tasks v (w : World) : World :=
  {| keycloakSingleton := keycloakSingleton w;
     keycloakInitPromise := keycloakInitPromise w;
     initializationState := initializationState w; globalError := globalError w;
     stateSubscribers := stateSubscribers w; hooks := hooks w;
     instances := instances w; promises := promises w; timers := timers w;
     nextTimer := nextTimer w; tasks := v; provider_calls := provider_calls w;
     console := console w; delivered := delivered w |}.
Definition set_provider_calls v (w : World) : World :=
  {| keycloakSingleton := keycloakSingleton w;
     keycloakInitPromise := keycloakInitPromise w;
     initializationState := initializationState w; globalError := globalError w;
     stateSubscribers := stateSubscribers w; hooks := hooks w;
     instances := instances w; promises := promises w; timers := timers w;
     nextTimer := nextTimer w; tasks := tasks w; provider_calls := v;
     console := console w; delivered := delivered w |}.
Definition set_console v (w : World) : World :=
  {| keycloakSingleton := keycloakSingleton w;
     keycloakInitPromise := keycloakInitPromise w;
     initializationState := initializationState w; globalError := globalError w;
     stateSubscribers := stateSubscribers w; hooks := hooks w;
     instances := instances w; promises := promises w; timers := timers w;
     nextTimer := nextTimer w; tasks := tasks w; provider_calls := provider_calls w;
     console := v; delivered := delivered w |}.
Definition set_delivered v (w : World) : World :=
  {| keycloakSingleton := keycloakSingleton w;
     keycloakInitPromise := keycloakInitPromise w;
     initializationState := initializationState w; globalError := globalError w;
     stateSubscribers := stateSubscribers w; hooks := hooks w;
     instances := instances w; promises := promises w; timers := timers w;
     nextTimer := nextTimer w; tasks := tasks w; provider_calls := provider_calls w;
     console := console w; delivered := v |}.

Abbreviation JS := (Eff World).

(** The world at page load. *)
Definition page_load : World :=
  {| keycloakSingleton := None; keycloakInitPromise := None;
     initializationState := idle; globalError := None; stateSubscribers := [];
     hooks := ∅; instances := []; promises := []; timers := ∅; nextTimer := 1%positive;
     tasks := []; provider_calls := []; console := []; delivered := [] |}.

(** *** Runtime primitives *)

Definition console_error (line : string) : JS unit :=
  modify (λ w, set_console (console w ++ [line]) w).

(** A [setState] call or a ref assignment of hook [h]. *)
Definition upd (h : HookId) (f : Hook → Hook) : JS unit :=
  modify (λ w, set_hooks (alter f h (hooks w)) w).

(** Reading a state variable or a ref of hook [h]. *)
Definition rd {A} (h : HookId) (field : Hook → A) (d : A) : JS A :=
  gets (λ w, from_option field d (hooks w !! h)).

Definition deref (keycloakInstance : InstRef) : JS (option KeycloakInstance) :=
  gets (λ w, instances w !! keycloakInstance).

Definition provider_call (c : ProviderCall) : JS unit :=
  modify (λ w, set_provider_calls (provider_calls w ++ [c]) w).

Definition park (t : Task) : JS unit :=
  modify (λ w, set_tasks (tasks w ++ [t]) w).

(** Resuming a parked continuation: [false] when there is none. *)
Fixpoint remove_first (t : Task) (l : list Task) : list Task :=
  match l with
  | [] => []
  | x :: l' => if bool_decide (x = t) then l' else x :: remove_first t l'
  end.

Definition unpark (t : Task) : JS bool := λ w,
  if bool_decide (t ∈ tasks w)
  then (Normal true, set_tasks (remove_first t (tasks w)) w)
  else (Normal false, w).

Definition new_promise : JS PromiseRef := λ w,
  (Normal (length (promises w)), set_promises (promises w ++ [None]) w).

Definition settle (p : PromiseRef) (o : Outcome Value) : JS unit :=
  modify (λ w, set_promises (<[p := Some o]> (promises w)) w).

(** A client that has not logged in. *)
Definition blank_client : KeycloakInstance :=
  {| kc_authenticated := false; kc_token := None; kc_refreshToken := None;
     kc_role_attributes := None; kc_realmAccess := None; kc_resourceAccess := ∅ |}.

(** [new Keycloak(KEYCLOAK_CONFIG)] *)
Definition new_Keycloak : JS InstRef := λ w,
  (Normal (length (instances w)), set_instances (instances w ++ [blank_client]) w).

Definition setTimeout (callback : HookId * InstRef) (delay : Z) : JS TimerId := λ w,
  let t := nextTimer w in
  (Normal t, w |> set_timers (<[t := (callback, delay)]> (timers w))
               |> set_nextTimer (Pos.succ t)).

Definition clearTimeout (t : TimerId) : JS unit :=
  modify (λ w, set_timers (delete t (timers w)) w).

(** *** [notifyStateChange] and [resetGlobalState] *)

(** The subscriber of hook [h] is its [handleStateChange] closure. *)
Definition hook_subscriber (h : HookId) (newState : StateEvent)
    : Eff (gmap HookId Hook) unit :=
  modify (alter (handleStateChange newState) h).

Definition notifyStateChange (newState : StateEvent) : JS unit := λ w,
  let '(c, ch) :=
    Broadcast.notifyStateChange hook_subscriber newState
      {| Broadcast.ch_subscribers := stateSubscribers w;
         Broadcast.ch_observers := hooks w;
         Broadcast.ch_console := console w;
         Broadcast.ch_delivered := delivered w |} in
  (c, w |> set_hooks (Broadcast.ch_observers ch)
        |> set_console (Broadcast.ch_console ch)
        |> set_delivered (Broadcast.ch_delivered ch)).

Definition resetGlobalState : JS unit :=
  modify (set_keycloakSingleton None) ;;
  modify (set_keycloakInitPromise None) ;;
  modify (set_initializationState idle) ;;
  modify (set_globalError None) ;;
  notifyStateChange RESET.

(** [String.prototype.trim] over the ASCII white space. *)
Definition is_space (c : Ascii.ascii) : bool :=
  let n := Ascii.nat_of_ascii c in
  bool_decide (n = 32 ∨ (9 ≤ n ∧ n ≤ 13))%nat.

Fixpoint trim_start (s : string) : string :=
  match s with
  | String c s' => if is_space c then trim_start s' else s
  | EmptyString => EmptyString
  end.

Fixpoint trim_end (s : string) : string :=
  match s with
  | String c s' =>
      match trim_end s' with
      | EmptyString => if is_space c then EmptyString else String c EmptyString
      | t => String c t
      end
  | EmptyString => EmptyString
  end.

Definition trim (s : string) : string := trim_end (trim_start s).

(** What [loadUserProfile] resolves with. *)
Record Profile := {
  profile_id : option string;
  profile_username : option string;
  profile_email : option string;
  profile_firstName : option string;
  profile_lastName : option string;
}.

(** What the provider answers to [init]: on success it has filled in the
    client and resolves with a flag. *)
Inductive InitAnswer :=
| InitOk (authenticated : bool) (client : KeycloakInstance)
| InitFailed (error : Exn).

(** What the provider answers to [updateToken]: [Refreshed] resolves [true]
    after the client got its new tokens and claims, [StillValid] resolves
    [false], [RefreshFailed] rejects.  The provider library is not part of
    the repository, so what it leaves in the client when it rejects is an
    input as well: [None] for a client left as it is, [Some client] for a
    client it has rewritten (with its tokens cleared, say). *)
Inductive RefreshAnswer :=
| Refreshed (client : KeycloakInstance)
| StillValid
| RefreshFailed (error : Exn) (client : option KeycloakInstance).

(** What an [async] function call hands back when its first turn ends. *)
Inductive AsyncReturn :=
| Returned (v : Value)
| ReturnedPromise (p : option PromiseRef)
| Parked (r : PromiseRef).

(** What the promise handed back is settled with, if it is. A returned
    promise is adopted; returning [null] resolves with [null]. *)
Definition resolution (w : World) (ret : AsyncReturn) : option (Outcome Value) :=
  match ret with
  | Returned v => Some (Resolved v)
  | ReturnedPromise None => Some (Resolved VNull)
  | ReturnedPromise (Some p) => mjoin (promises w !! p)
  | Parked r => mjoin (promises w !! r)
  end.

(** ** The hook functions

    Each takes the hook instance [h] whose closure runs. *)

Section Hook.

Variable env : ImportMetaEnv.

Definition isMounted (h : HookId) : JS bool := rd h isMountedRef false.

(** [loadRoleAttributes] (lines 153-227).  It has no [await]: the whole
    body runs in the turn of the call. *)
Definition loadRoleAttributes (h : HookId) (keycloakInstance : InstRef)
    : JS (gmap string (gmap string JsVal)) :=
  kc ← deref keycloakInstance;
  mounted ← isMounted h;
  if negb (from_option kc_authenticated false kc) || negb mounted then mret ∅
  else
    try_catch
      (let roleAttributesFromToken := default ∅ (kc ≫= kc_role_attributes) in
       let userRoles := getUserRoles env kc in
       let filteredRoles := List.filter isCustomRole userRoles in
       let hasSuper := hasSuperRole env kc in
       let hasTwoShoulder := includes userRoles "two-shoulder" in
       let merged :=
         mergedPermissions hasSuper hasTwoShoulder filteredRoles roleAttributesFromToken in
       let map := roleAttributesMap filteredRoles roleAttributesFromToken in
       mounted ← isMounted h;
       when mounted (upd h (setRoleAttributes map) ;;
                     upd h (setPermissions merged)) ;;
       mret map)
      (λ err,
         console_error ("Failed to load role attributes: " +:+ err) ;;
         mounted ← isMounted h;
         when mounted (upd h (setError (Some ("Failed to load role attributes: " +:+ err)))) ;;
         mret ∅).

(** [loadUserInfo] (lines 230-263), up to [await loadUserProfile()]:
    [true] when the call was made and the function is suspended. *)
Definition loadUserInfo_start (h : HookId) (keycloakInstance : InstRef) : JS bool :=
  kc ← deref keycloakInstance;
  mounted ← isMounted h;
  if negb (from_option kc_authenticated false kc) || negb mounted then mret false
  else provider_call (call_loadUserProfile keycloakInstance) ;; mret true.

(** [loadUserInfo] from the [await] on. *)
Definition loadUserInfo_resume (h : HookId) (keycloakInstance : InstRef)
    (outcome : Outcome Profile) : JS unit :=
  try_catch
    (profile ← await outcome;
     kc ← deref keycloakInstance;
     let info :=
       {| ui_id := profile_id profile;
          ui_username := profile_username profile;
          ui_email := profile_email profile;
          ui_firstName := profile_firstName profile;
          ui_lastName := profile_lastName profile;
          ui_name := trim (or_default (profile_firstName profile) "" +:+ " "
                           +:+ or_default (profile_lastName profile) "");
          ui_roles := getUserRoles env kc;
          ui_realmRoles := default [] (kc ≫= kc_realmAccess);
          ui_clientRoles := getClientRoles env kc;
          ui_hasSuperRole := hasSuperRole env kc |} in
     mounted ← isMounted h;
     when mounted (upd h (setUserInfo (Some info))))
    (λ err,
       console_error ("Failed to load user info: " +:+ err) ;;
       mounted ← isMounted h;
       when mounted (upd h (setError (Some ("Failed to load user info: " +:+ err))))).

(** Lines 269-272 and 455-458: cancel the pending refresh timer. *)
Definition clear_refresh_timer (h : HookId) : JS unit :=
  ref ← rd h updateTokenTimeoutRef None;
  match ref with
  | Some t => clearTimeout t ;; upd h (set_updateTokenTimeoutRef None)
  | None => mret tt
  end.

(** The closure [updateToken] of [setupTokenRefresh] (lines 274-316), up to
    [await keycloakInstance.updateToken(30)]. *)
Definition updateToken_start (h : HookId) (keycloakInstance : InstRef) : JS unit :=
  mounted ← isMounted h;
  if negb mounted then mret tt
  else
    provider_call (call_updateToken keycloakInstance 30) ;;
    park (AwaitUpdateToken h keycloakInstance).

(** The same closure from the [await] on. *)
Definition updateToken_resume (h : HookId) (keycloakInstance : InstRef)
    (outcome : Outcome bool) : JS unit :=
  try_catch
    (refreshed ← await outcome;
     mounted ← isMounted h;
     when (refreshed && mounted)
       (kc ← deref keycloakInstance;
        let newToken := kc ≫= kc_token in
        let newRefreshToken := kc ≫= kc_refreshToken in
        upd h (setToken newToken) ;;
        upd h (setRefreshToken newRefreshToken) ;;
        notifyStateChange (TOKEN_UPDATED newToken newRefreshToken) ;;
        loadRoleAttributes h keycloakInstance ;;
        mret tt) ;;
     mounted ← isMounted h;
     when mounted
       (t ← setTimeout (h, keycloakInstance) (5 * 60 * 1000);
        upd h (set_updateTokenTimeoutRef (Some t))))
    (λ err,
       console_error ("Token update failed: " +:+ err) ;;
       mounted ← isMounted h;
       when mounted
         (console_error "Re-login required" ;;
          upd h (setError (Some "Authentication session expired. Please login again.")))).

(** [setupTokenRefresh] (lines 266-319); it is only ever called with the
    client [initKeycloak] has just initialised. *)
Definition setupTokenRefresh (h : HookId) (keycloakInstance : InstRef) : JS unit :=
  mounted ← isMounted h;
  if negb mounted then mret tt
  else
    clear_refresh_timer h ;;
    updateToken_start h keycloakInstance.

(** An [async] function body that has run to its end settles the promise
    [r] of the call; [None] means it parked at another [await]. *)
Definition run_async (r : PromiseRef) (body : JS (option Value)) : JS unit := λ w,
  match body w with
  | (Normal (Some v), w') => settle r (Resolved v) w'
  | (Normal None, w') => (Normal tt, w')
  | (Throw error, w') => settle r (Rejected error) w'
  end.

(** The [async] arrow function of lines 348-403, up to
    [await keycloakInstance.init(KEYCLOAK_INIT_OPTIONS)], and the assignment
    of its promise to [keycloakInitPromise]. *)
Definition init_iife_start : JS unit :=
  keycloakInstance ← new_Keycloak;
  p ← new_promise;
  provider_call (call_init keycloakInstance) ;;
  park (AwaitProviderInit p keycloakInstance) ;;
  modify (set_keycloakInitPromise (Some p)).

(** The same function from the [await] on (lines 375-402). *)
Definition init_iife_resume (keycloakInstance : InstRef) (outcome : Outcome bool)
    : JS Value :=
  try_catch
    (authenticated ← await outcome;
     modify (set_keycloakSingleton (Some keycloakInstance)) ;;
     modify (set_initializationState initialized) ;;
     notifyStateChange (INITIALIZED keycloakInstance authenticated) ;;
     mret (VInitResult keycloakInstance authenticated))
    (λ error,
       console_error ("Keycloak initialization failed: " +:+ error) ;;
       modify (set_initializationState failed) ;;
       modify (set_globalError (Some error)) ;;
       notifyStateChange (ERROR (or_default (Some error) "Keycloak initialization failed")) ;;
       throw error).

(** [initKeycloak] after [await Promise.all(...)] (lines 422-429). *)
Definition initKeycloak_tail (h : HookId) (keycloakInstance : InstRef) : JS Value :=
  setupTokenRefresh h keycloakInstance ;;
  upd h (setLoading false) ;;
  mret (VInstance keycloakInstance).

(** [initKeycloak] from [await keycloakInitPromise] (line 406) to its end or
    to [await Promise.all(...)].  [loadUserInfo] and [loadRoleAttributes]
    are both called before the [await]; only [loadUserInfo] can suspend. *)
Definition initKeycloak_resume (h : HookId) (r : PromiseRef) (awaited : Outcome Value)
    : JS (option Value) :=
  v ← await awaited;
  match v with
  | VInitResult keycloakInstance authenticated =>
      mounted ← isMounted h;
      if (mounted : bool) then
        upd h (setKeycloak (Some keycloakInstance)) ;;
        upd h (setAuthenticated authenticated) ;;
        if authenticated then
          kc ← deref keycloakInstance;
          upd h (setToken (kc ≫= kc_token)) ;;
          upd h (setRefreshToken (kc ≫= kc_refreshToken)) ;;
          suspended ← loadUserInfo_start h keycloakInstance;
          loadRoleAttributes h keycloakInstance ;;
          if (suspended : bool) then
            park (AwaitUserData h keycloakInstance r) ;; mret None
          else
            v ← initKeycloak_tail h keycloakInstance; mret (Some v)
        else
          upd h (setLoading false) ;; mret (Some (VInstance keycloakInstance))
      else mret (Some (VInstance keycloakInstance))
  | _ =>
      (* destructuring a value the init promise is never resolved with *)
      throw "TypeError"
  end.

(** [initKeycloak] (lines 322-430), the turn of the call. *)
Definition initKeycloak (h : HookId) : JS AsyncReturn :=
  st ← gets initializationState;
  if bool_decide (st = initializing) then
    p ← gets keycloakInitPromise; mret (ReturnedPromise p)
  else
    single ← gets keycloakSingleton;
    match st, single with
    | initialized, Some keycloakInstance => mret (Returned (VInstance keycloakInstance))
    | _, _ =>
        when (bool_decide (st = failed)) resetGlobalState ;;
        modify (set_initializationState initializing) ;;
        modify (set_globalError None) ;;
        notifyStateChange LOADING ;;
        p0 ← gets keycloakInitPromise;
        when (bool_decide (p0 = None)) init_iife_start ;;
        p ← gets keycloakInitPromise;
        r ← new_promise;
        match p with
        | Some p =>
            settled ← gets (λ w, mjoin (promises w !! p));
            match settled with
            | None => park (AwaitInitPromise h p r)
            | Some o => run_async r (initKeycloak_resume h r o)
            end
        | None => run_async r (throw "TypeError")
        end ;;
        mret (Parked r)
    end.

(** [hasModulePermission] (lines 432-445), on the state of a hook. *)
Definition hasModulePermission (w : World) (hook : Hook) (moduleName : string) : bool :=
  if negb (authenticated hook) || bool_decide (moduleName = "") then false
  else if hasSuperRole env (r ← keycloak hook; instances w !! r) then true
  else bool_decide (permissions hook !! moduleName = Some true).

(** [getToken] (lines 561-563) *)
Definition getToken (w : World) (hook : Hook) : option string :=
  or_null (r ← keycloak hook; kc ← instances w !! r; kc_token kc).

(** [logout] (lines 448-492), up to [await keycloak.logout(...)]. *)
Definition logout_start (h : HookId) (options : gmap string string) : JS unit :=
  kc ← rd h keycloak None;
  match kc with
  | None => mret tt
  | Some kc =>
      clear_refresh_timer h ;;
      mounted ← isMounted h;
      when mounted
        (upd h (setAuthenticated false) ;;
         upd h (setUserInfo None) ;;
         upd h (setToken None) ;;
         upd h (setRefreshToken None) ;;
         upd h (setRoleAttributes ∅) ;;
         upd h (setPermissions ∅) ;;
         upd h (setLoading true)) ;;
      resetGlobalState ;;
      provider_call
        (call_logout kc (options ∪ {[ "redirectUri" := window_location_origin env ]})) ;;
      park (AwaitLogout h)
  end.

(** [logout] from the [await] on: the [catch] of lines 480-491. *)
Definition logout_resume (h : HookId) (outcome : Outcome unit) : JS unit :=
  try_catch
    (await outcome)
    (λ err,
       console_error ("Logout failed: " +:+ err) ;;
       mounted ← isMounted h;
       when mounted
         (upd h (setError (Some ("Logout failed: " +:+ err))) ;;
          upd h (setLoading false)) ;;
       resetGlobalState).

(** *** Mounting and unmounting a hook instance *)

(** The first render: the initial values of the [useState]s (lines 60-71). *)
Definition useKeycloak_initial (w : World) : Hook :=
  let single := r ← keycloakSingleton w; instances w !! r in
  {| keycloak := keycloakSingleton w;
     authenticated := from_option kc_authenticated false single;
     loading := bool_decide (initializationState w = initializing);
     error := globalError w;
     userInfo := None;
     token := or_null (single ≫= kc_token);
     refreshToken := or_null (single ≫= kc_refreshToken);
     roleAttributes := ∅;
     permissions := ∅;
     updateTokenTimeoutRef := None;
     isMountedRef := true |}.

(** [stateSubscribers.add(handleStateChange)] *)
Definition subscribe (h : HookId) : JS unit :=
  modify (λ w, if bool_decide (h ∈ stateSubscribers w) then w
               else set_stateSubscribers (stateSubscribers w ++ [h]) w).

(** [stateSubscribers.delete(handleStateChange)] *)
Definition unsubscribe (h : HookId) : JS unit :=
  modify (λ w, set_stateSubscribers (List.filter (λ x, negb (bool_decide (x = h)))
                                        (stateSubscribers w)) w).

(** Attaching a consumer: the first render and the two effects (lines
    74-113 and 572-597).  The result is what [initKeycloak] handed back when
    the effect called it. *)
Definition mount (h : HookId) : JS (option AsyncReturn) :=
  modify (λ w, set_hooks (<[h := useKeycloak_initial w]> (hooks w)) w) ;;
  subscribe h ;;
  upd h (set_isMountedRef true) ;;
  st ← gets initializationState;
  single ← gets keycloakSingleton;
  if bool_decide (st = idle) || bool_decide (st = failed) then
    ret ← initKeycloak h; mret (Some ret)
  else
    match st, single with
    | initialized, Some keycloakInstance =>
        kc ← deref keycloakInstance;
        upd h (setKeycloak (Some keycloakInstance)) ;;
        upd h (setAuthenticated (from_option kc_authenticated false kc)) ;;
        upd h (setToken (or_null (kc ≫= kc_token))) ;;
        upd h (setRefreshToken (or_null (kc ≫= kc_refreshToken))) ;;
        upd h (setLoading false) ;;
        mret None
    | _, _ => mret None
    end.

(** Detaching: the clean-ups of the two effects. *)
Definition unmount (h : HookId) : JS unit :=
  unsubscribe h ;;
  upd h (set_isMountedRef false) ;;
  upd h (set_isMountedRef false) ;;
  clear_refresh_timer h.

(** *** Turns started by the environment *)

(** The provider fills in or replaces what a client holds. *)
Definition provider_writes (keycloakInstance : InstRef) (client : KeycloakInstance)
    : JS unit :=
  modify (λ w, set_instances (<[keycloakInstance := client]> (instances w)) w).

(** The client as the provider leaves it when it rejects a call. *)
Definition provider_leaves (keycloakInstance : InstRef) (client : option KeycloakInstance)
    : JS unit :=
  match client with
  | Some c => provider_writes keycloakInstance c
  | None => mret tt
  end.

(** The calls of [initKeycloak] parked on promise [p], in order. *)
Fixpoint waiters (p : PromiseRef) (l : list Task) : list (HookId * PromiseRef) :=
  match l with
  | AwaitInitPromise h p' r :: l' =>
      if bool_decide (p' = p) then (h, r) :: waiters p l' else waiters p l'
  | _ :: l' => waiters p l'
  | [] => []
  end.

Definition is_waiter (p : PromiseRef) (t : Task) : bool :=
  match t with
  | AwaitInitPromise _ p' _ => bool_decide (p' = p)
  | _ => false
  end.

(** The provider settles [init] of the client made for promise [p]: the
    arrow function of lines 348-403 resumes and settles [p], then the calls
    of [initKeycloak] waiting on [p] resume in the order they parked. *)
Definition init_settles (p : PromiseRef) (keycloakInstance : InstRef)
    (answer : InitAnswer) : JS unit :=
  parked ← unpark (AwaitProviderInit p keycloakInstance);
  if (parked : bool) then
    match answer with
    | InitOk _ client => provider_writes keycloakInstance client
    | InitFailed _ => mret tt
    end ;;
    run_async p
      (v ← init_iife_resume keycloakInstance
             match answer with
             | InitOk authenticated _ => Resolved authenticated
             | InitFailed error => Rejected error
             end;
       mret (Some v)) ;;
    settled ← gets (λ w, mjoin (promises w !! p));
    ws ← gets (λ w, waiters p (tasks w));
    modify (λ w, set_tasks (List.filter (λ t, negb (is_waiter p t)) (tasks w)) w) ;;
    match settled with
    | Some o => forEach (λ '(h, r), run_async r (initKeycloak_resume h r o)) ws
    | None => mret tt
    end
  else mret tt.

(** The provider settles the [loadUserProfile] call that [initKeycloak] of
    hook [h] is waiting for: [loadUserInfo] finishes, then [initKeycloak]. *)
Definition userProfile_settles (h : HookId) (keycloakInstance : InstRef)
    (r : PromiseRef) (outcome : Outcome Profile) : JS unit :=
  parked ← unpark (AwaitUserData h keycloakInstance r);
  if (parked : bool) then
    run_async r
      (loadUserInfo_resume h keycloakInstance outcome ;;
       v ← initKeycloak_tail h keycloakInstance;
       mret (Some v))
  else mret tt.

(** The provider settles the [updateToken(30)] call of the scheduler. *)
Definition updateToken_settles (h : HookId) (keycloakInstance : InstRef)
    (answer : RefreshAnswer) : JS unit :=
  parked ← unpark (AwaitUpdateToken h keycloakInstance);
  if (parked : bool) then
    match answer with
    | Refreshed client =>
        provider_writes keycloakInstance client ;;
        updateToken_resume h keycloakInstance (Resolved true)
    | StillValid => updateToken_resume h keycloakInstance (Resolved false)
    | RefreshFailed error client =>
        provider_leaves keycloakInstance client ;;
        updateToken_resume h keycloakInstance (Rejected error)
    end
  else mret tt.

(** A pending timer fires and runs its [updateToken] closure. *)
Definition timer_fires (t : TimerId) : JS unit :=
  callback ← gets (λ w, timers w !! t);
  match callback with
  | Some (h, keycloakInstance, _) =>
      modify (λ w, set_timers (delete t (timers w)) w) ;;
      updateToken_start h keycloakInstance
  | None => mret tt
  end.

(** The provider settles the [logout] call made by hook [h]. *)
Definition logout_settles (h : HookId) (outcome : Outcome unit) : JS unit :=
  parked ← unpark (AwaitLogout h);
  if (parked : bool) then logout_resume h outcome else mret tt.

(** The [onAuthLogout] handler installed on every client (lines 370-373). *)
Definition onAuthLogout : JS unit := resetGlobalState.

End Hook.

(** ** Notions used to state the properties *)

(** The permissions [loadRoleAttributes] computes for a client. *)
Definition resolved_permissions (env : ImportMetaEnv) (kc : KeycloakInstance)
    : gmap string bool :=
  mergedPermissions (hasSuperRole env (Some kc))
    (includes (getUserRoles env (Some kc)) "two-shoulder")
    (List.filter isCustomRole (getUserRoles env (Some kc)))
    (default ∅ (kc_role_attributes kc)).

Definition resolved_roleAttributes (env : ImportMetaEnv) (kc : KeycloakInstance)
    : gmap string (gmap string JsVal) :=
  roleAttributesMap (List.filter isCustomRole (getUserRoles env (Some kc)))
    (default ∅ (kc_role_attributes kc)).

(** The hook store after every subscribed hook has handled an event. *)
Definition notified (newState : StateEvent) (subs : list HookId)
    (hs : gmap HookId Hook) : gmap HookId Hook :=
  foldl (λ hs h, alter (handleStateChange newState) h hs) hs subs.

(** What [resetGlobalState] leaves in the module variables. *)
Definition shared_state_reset (w : World) : Prop :=
  keycloakSingleton w = None ∧ keycloakInitPromise w = None
  ∧ initializationState w = idle ∧ globalError w = None.

(** A hook whose session data is cleared. *)
Definition local_state_reset (hook : Hook) : Prop :=
  authenticated hook = false ∧ token hook = None ∧ refreshToken hook = None
  ∧ userInfo hook = None ∧ permissions hook = ∅ ∧ roleAttributes hook = ∅.

(** A number of [initKeycloak] calls in a row, one per hook of the list;
    what each call handed back. *)
Fixpoint attach_all (env : ImportMetaEnv) (callers : list HookId)
    : JS (list AsyncReturn) :=
  match callers with
  | [] => mret []
  | h :: callers' =>
      ret ← initKeycloak env h;
      rets ← attach_all env callers';
      mret (ret :: rets)
  end.

Definition is_call_init (c : ProviderCall) : bool :=
  match c with call_init _ => true | _ => false end.

(** How often the provider's [init] was invoked so far. *)
Definition init_calls (w : World) : nat :=
  length (List.filter is_call_init (provider_calls w)).

(** The [authenticated] a caller reads off the value its call resolved
    with: the field of the result object, or the property of the client. *)
Definition authenticated_of (w : World) (v : Value) : option bool :=
  match v with
  | VInitResult _ authenticated => Some authenticated
  | VInstance keycloakInstance => kc_authenticated <$> instances w !! keycloakInstance
  | VNull => None
  end.

(** The promises a parked continuation refers to. *)
Definition task_promises (t : Task) : list PromiseRef :=
  match t with
  | AwaitProviderInit p _ => [p]
  | AwaitInitPromise _ p r => [p; r]
  | AwaitUserData _ _ r => [r]
  | AwaitUpdateToken _ _ | AwaitLogout _ => []
  end.

(** Parked continuations only refer to promises that exist. *)
Definition promises_allocated (w : World) : bool :=
  forallb (λ t, forallb (λ q, Nat.ltb q (length (promises w))) (task_promises t)) (tasks w).

(** What matters of the world for the promises of [initKeycloak]: a turn
    that keeps the heap. *)
Definition keeps_heap (w w' : World) : Prop :=
  promises w' = promises w ∧ instances w' = instances w
  ∧ init_calls w' = init_calls w.

(** ** The manual refresh

    The [updateToken] the hook returns suspends once, on a provider call;
    its continuation is not kept in [tasks]: the turn that resumes it is
    given the client the call was made on. *)

Section ManualRefresh.

Variable env : ImportMetaEnv.

(** The [updateToken] the hook returns (lines 524-558), up to
    [await keycloak.updateToken(minValidity)]; [minValidity] defaults to 30. *)
Definition updateToken_manual_start (h : HookId) (minValidity : option Z) : JS InstRef :=
  kc ← rd h keycloak None;
  match kc with
  | Some kc =>
      provider_call (call_updateToken kc (default 30%Z minValidity)) ;;
      mret kc
  | None => throw "Keycloak not initialized"
  end.

(** The same function from the [await] on; it returns [refreshed]. *)
Definition updateToken_manual_resume (h : HookId) (keycloakInstance : InstRef)
    (outcome : Outcome bool) : JS bool :=
  try_catch
    (refreshed ← await outcome;
     mounted ← isMounted h;
     when (refreshed && mounted)
       (kc ← deref keycloakInstance;
        let newToken := kc ≫= kc_token in
        let newRefreshToken := kc ≫= kc_refreshToken in
        upd h (setToken newToken) ;;
        upd h (setRefreshToken newRefreshToken) ;;
        notifyStateChange (TOKEN_UPDATED newToken newRefreshToken) ;;
        loadRoleAttributes env h keycloakInstance ;;
        mret tt) ;;
     mret refreshed)
    (λ err,
       console_error ("Manual token update failed: " +:+ err) ;;
       throw err).

(** The provider settles the [updateToken] call of the manual refresh. *)
Definition updateToken_manual_settles (h : HookId) (keycloakInstance : InstRef)
    (answer : RefreshAnswer) : JS bool :=
  match answer with
  | Refreshed client =>
      provider_writes keycloakInstance client ;;
      updateToken_manual_resume h keycloakInstance (Resolved true)
  | StillValid => updateToken_manual_resume h keycloakInstance (Resolved false)
  | RefreshFailed error client =>
      provider_leaves keycloakInstance client ;;
      updateToken_manual_resume h keycloakInstance (Rejected error)
  end.

End ManualRefresh.

(** ** The other handlers installed on a client (lines 357-368)

    [onTokenExpired] asks the provider for a refresh and logs when that call
    rejects; [onAuthRefreshError] logs.  [onAuthRefreshSuccess] does nothing
    but [debugLog]. *)

Definition onTokenExpired (keycloakInstance : InstRef) : JS unit :=
  provider_call (call_updateToken keycloakInstance 30).

(** The [catch] of the call made by [onTokenExpired]. *)
Definition onTokenExpired_rejected : JS unit :=
  console_error "Token refresh failed".

Definition onAuthRefreshSuccess : JS unit := mret tt.

Definition onAuthRefreshError : JS unit :=
  console_error "Token refresh error".

(** ** The request interceptor of [services/api.service.js] *)

Module ApiService.

(** [config.headers] *)
Abbreviation Headers := (gmap string string).

(** The interceptor of lines 28-49, on the headers of the request; the
    second component is what it logs.  [getTokenFunction] is the module
    variable of line 15, [None] until [setTokenGetter] is called; the getter
    is any function, it may throw. *)
Definition request_interceptor
    (getTokenFunction : option (unit → Completion (option string)))
    (headers : Headers) : Headers * list string :=
  match getTokenFunction with
  | None => (headers, ["Token getter function not set"])
  | Some getTokenFunction =>
      match getTokenFunction tt with
      | Normal latestToken =>
          match latestToken with
          | Some latestToken =>
              if bool_decide (latestToken = "")
              then (delete "Authorization" headers, [])
              else (<["Authorization" := "Bearer " +:+ latestToken]> headers, [])
          | None => (delete "Authorization" headers, [])
          end
      | Throw error =>
          (delete "Authorization" headers, ["Error getting token: " +:+ error])
      end
  end.

(** What [KeycloakProvider] hands to [setTokenGetter]
    ([contexts/keycloakContext.jsx], lines 15-19): the [getToken] of its hook. *)
Definition provider_getter (w : World) (hook : Hook)
    : option (unit → Completion (option string)) :=
  Some (λ _, Normal (getToken w hook)).

End ApiService.

(** ** Turns and reachable worlds *)

(** What can happen next: a consumer is attached or detached, a method of
    the hook is called, the provider settles a call, rewrites a client or
    runs one of the handlers installed on it, a timer fires.  The answers of
    the provider are not constrained, and neither are the arguments of the
    calls: [loadUserInfo] and [loadRoleAttributes] take any client. *)
Inductive Turn :=
| Mount (h : HookId)
| Unmount (h : HookId)
| CallInitKeycloak (h : HookId)
| CallLogout (h : HookId) (options : gmap string string)
| CallUpdateToken (h : HookId) (minValidity : option Z)
| CallLoadUserInfo (h : HookId) (keycloakInstance : InstRef)
| CallLoadRoleAttributes (h : HookId) (keycloakInstance : InstRef)
| InitSettles (p : PromiseRef) (keycloakInstance : InstRef) (answer : InitAnswer)
| UserProfileSettles (h : HookId) (keycloakInstance : InstRef) (r : PromiseRef)
    (outcome : Outcome Profile)
| UpdateTokenSettles (h : HookId) (keycloakInstance : InstRef) (answer : RefreshAnswer)
| ManualUpdateTokenSettles (h : HookId) (keycloakInstance : InstRef)
    (answer : RefreshAnswer)
| LoadUserInfoSettles (h : HookId) (keycloakInstance : InstRef)
    (outcome : Outcome Profile)
| ProviderWrites (keycloakInstance : InstRef) (client : KeycloakInstance)
| TokenExpired (keycloakInstance : InstRef)
| TokenExpiredRejected
| AuthRefreshSuccess
| AuthRefreshError
| TimerFires (t : TimerId)
| LogoutSettles (h : HookId) (outcome : Outcome unit)
| AuthLogout.

Definition turn (env : ImportMetaEnv) (t : Turn) : World → World :=
  match t with
  | Mount h => exec (mount env h)
  | Unmount h => exec (unmount h)
  | CallInitKeycloak h => exec (initKeycloak env h)
  | CallLogout h options => exec (logout_start env h options)
  | CallUpdateToken h minValidity => exec (updateToken_manual_start h minValidity)
  | CallLoadUserInfo h keycloakInstance => exec (loadUserInfo_start h keycloakInstance)
  | CallLoadRoleAttributes h keycloakInstance =>
      exec (loadRoleAttributes env h keycloakInstance)
  | InitSettles p keycloakInstance answer => exec (init_settles env p keycloakInstance answer)
  | UserProfileSettles h keycloakInstance r outcome =>
      exec (userProfile_settles env h keycloakInstance r outcome)
  | UpdateTokenSettles h keycloakInstance answer =>
      exec (updateToken_settles env h keycloakInstance answer)
  | ManualUpdateTokenSettles h keycloakInstance answer =>
      exec (updateToken_manual_settles env h keycloakInstance answer)
  | LoadUserInfoSettles h keycloakInstance outcome =>
      exec (loadUserInfo_resume env h keycloakInstance outcome)
  | ProviderWrites keycloakInstance client => exec (provider_writes keycloakInstance client)
  | TokenExpired keycloakInstance => exec (onTokenExpired keycloakInstance)
  | TokenExpiredRejected => exec onTokenExpired_rejected
  | AuthRefreshSuccess => exec onAuthRefreshSuccess
  | AuthRefreshError => exec onAuthRefreshError
  | TimerFires t => exec (timer_fires t)
  | LogoutSettles h outcome => exec (logout_settles h outcome)
  | AuthLogout => exec onAuthLogout
  end.

(** The world after a sequence of turns. *)
Definition run (env : ImportMetaEnv) (ts : list Turn) (w : World) : World :=
  foldl (λ w t, turn env t w) w ts.

(** A piece of code keeps a property of the world, also when it throws. *)
Definition preserves {A} (I : World → Prop) (m : JS A) : Prop :=
  ∀ w, I w → I (exec m w).

(** *** Invariants *)

(** The module variables agree with the phase. *)
Definition phase_coherent (w : World) : Prop :=
  match initializationState w with
  | idle =>
      keycloakSingleton w = None ∧ keycloakInitPromise w = None ∧ globalError w = None
  | initializing =>
      keycloakSingleton w = None ∧ is_Some (keycloakInitPromise w) ∧ globalError w = None
  | initialized => is_Some (keycloakSingleton w)
  | failed => is_Some (globalError w)
  end.

Definition mounted_in (w : World) (h : HookId) : bool :=
  from_option isMountedRef false (hooks w !! h).

(** The subscribers are the mounted hooks, each once. *)
Definition subscribed_iff_mounted (w : World) : Prop :=
  NoDup (stateSubscribers w) ∧ ∀ h, h ∈ stateSubscribers w ↔ mounted_in w h = true.

(** The client a value or a parked continuation refers to. *)
Definition value_instances (v : Value) : list InstRef :=
  match v with
  | VNull => []
  | VInstance keycloakInstance | VInitResult keycloakInstance _ => [keycloakInstance]
  end.

Definition task_instances (t : Task) : list InstRef :=
  match t with
  | AwaitProviderInit _ keycloakInstance | AwaitUserData _ keycloakInstance _
  | AwaitUpdateToken _ keycloakInstance => [keycloakInstance]
  | AwaitInitPromise _ _ _ | AwaitLogout _ => []
  end.

(** No dangling reference: every promise and every client that the module
    variables, a hook, a parked continuation, a settled promise or a pending
    timer refers to exists. *)
Record refs_allocated (w : World) : Prop := {
  ra_tasks_promises : promises_allocated w = true;
  ra_init_promise : ∀ p, keycloakInitPromise w = Some p → p < length (promises w);
  ra_singleton : ∀ kc, keycloakSingleton w = Some kc → kc < length (instances w);
  ra_hooks : ∀ h hook kc,
    hooks w !! h = Some hook → keycloak hook = Some kc → kc < length (instances w);
  ra_tasks_instances : ∀ t kc,
    t ∈ tasks w → kc ∈ task_instances t → kc < length (instances w);
  ra_promises : ∀ p v kc,
    promises w !! p = Some (Some (Resolved v)) → kc ∈ value_instances v →
    kc < length (instances w);
  ra_timers : ∀ t h kc d,
    timers w !! t = Some (h, kc, d) → kc < length (instances w);
}.

(** The promises rejected when a failed initialisation reaches the calls
    that wait for it. *)
Definition reject_all (err : Exn) (ws : list (HookId * PromiseRef))
    (ps : list (option (Outcome Value))) : list (option (Outcome Value)) :=
  foldl (λ ps '(_, r), <[r := Some (Rejected err)]> ps) ps ws.

(** The world a call of [initKeycloak] leaves when it starts an
    initialisation: a new client, its [init] called, the promise of the
    arrow function and the promise of the call, both pending. *)
Definition initKeycloak_started (h : HookId) (w : World) : World :=
  let kc := length (instances w) in
  let p := length (promises w) in
  w |> set_initializationState initializing
    |> set_globalError None
    |> set_keycloakInitPromise (Some p)
    |> set_instances (instances w ++ [blank_client])
    |> set_promises (promises w ++ [None; None])
    |> set_tasks (tasks w ++ [AwaitProviderInit p kc; AwaitInitPromise h p (S p)])
    |> set_provider_calls (provider_calls w ++ [call_init kc])
    |> set_delivered (delivered w ++ map (λ s, (s, LOADING)) (stateSubscribers w)).

(** The same, in a world that has at least [n] promises and [k] clients. *)
Definition allocated_above (n k : nat) (w : World) : Prop :=
  refs_allocated w ∧ (n ≤ length (promises w))%nat ∧ (k ≤ length (instances w))%nat.

(** The module variables together with the record of the broadcasts. *)
Definition module_state (w : World)
    : option InstRef * option PromiseRef * Phase * option Exn
      * list (HookId * StateEvent) :=
  (keycloakSingleton w, keycloakInitPromise w, initializationState w, globalError w,
   delivered w).

(** What the waiting calls of [initKeycloak] keep when they resume with
    [authenticated] false: the provider calls, the timers and the tasks; and
    every hook that was mounted and subscribed refers to the client, is not
    authenticated and not loading, and holds the session data it had. *)
Definition settled_anonymous (kc : InstRef) (hs0 : gmap HookId Hook)
    (subs0 : list HookId) (calls0 : list ProviderCall) (tasks0 : list Task)
    (timers0 : gmap TimerId (HookId * InstRef * Z)) (w : World) : Prop :=
  provider_calls w = calls0 ∧ timers w = timers0 ∧ tasks w = tasks0
  ∧ ∀ h hook0, hs0 !! h = Some hook0 → isMountedRef hook0 = true → h ∈ subs0 →
      ∃ hook, hooks w !! h = Some hook
        ∧ keycloak hook = Some kc ∧ authenticated hook = false ∧ loading hook = false
        ∧ token hook = token hook0 ∧ userInfo hook = userInfo hook0
        ∧ permissions hook = permissions hook0.

(** ** A small deployment, used for examples *)

Definition demo_env : ImportMetaEnv :=
  {| VITE_KEYCLOAK_CLIENT := Some "dreamn-web";
     VITE_KEYCLOAK_SUPER_ROLE := None;
     window_location_origin := "https://dreamn.example" |}.

Definition demo_claims : gmap string JsVal :=
  {[ "reports" := JBool false; "admin" := JStr "1" ]}.

(** A client after a successful login with the given realm roles. *)
Definition demo_client (roles : list string) : KeycloakInstance :=
  {| kc_authenticated := true; kc_token := Some "access-1";
     kc_refreshToken := Some "refresh-1";
     kc_role_attributes := Some demo_claims;
     kc_realmAccess := Some roles; kc_resourceAccess := ∅ |}.

Definition demo_profile : Profile :=
  {| profile_id := Some "42"; profile_username := Some "ada";
     profile_email := None; profile_firstName := Some "Ada";
     profile_lastName := None |}.

(** Two consumers attach, the provider logs the user in, the user profile
    arrives: hook 0 has run [initKeycloak] to its end and owns the refresh
    scheduler, which is waiting for the provider. *)
Definition demo_session (roles : list string) : World :=
  exec (mount demo_env 0 ;;
        mount demo_env 1 ;;
        init_settles demo_env 0 0 (InitOk true (demo_client roles)) ;;
        userProfile_settles demo_env 0 0 1 (Resolved demo_profile))
       page_load.

(** Claims whose object has ["__proto__"] among its own keys, as
    [JSON.parse] makes it from a token payload that names the key. *)
Definition demo_proto_claims : gmap string JsVal :=
  {[ "__proto__" := JBool true; "reports" := JBool false ]}.

Definition demo_proto_client (roles : list string) : KeycloakInstance :=
  {| kc_authenticated := true; kc_token := Some "access-1";
     kc_refreshToken := Some "refresh-1";
     kc_role_attributes := Some demo_proto_claims;
     kc_realmAccess := Some roles; kc_resourceAccess := ∅ |}.

(** The demo session of a user with these claims. *)
Definition demo_proto_session (roles : list string) : World :=
  exec (mount demo_env 0 ;;
        mount demo_env 1 ;;
        init_settles demo_env 0 0 (InitOk true (demo_proto_client roles)) ;;
        userProfile_settles demo_env 0 0 1 (Resolved demo_profile))
       page_load.

(** The same session after hook 0 has logged out and the provider has
    confirmed. *)
Definition demo_logged_out : World :=
  exec (logout_start demo_env 0 ∅ ;; logout_settles 0 (Resolved tt))
       (demo_session ["editor"]).

(** *** More moments of the small deployment *)

(** Two consumers have attached; the provider's [init] is pending. *)
Definition demo_attached : World :=
  exec (mount demo_env 0 ;; mount demo_env 1) page_load.

(** The provider's [init] has failed. *)
Definition demo_failed : World :=
  exec (init_settles demo_env 0 0 (InitFailed "network error")) demo_attached.

(** The user is logged in; the profile of hook 0 is still on its way. *)
Definition demo_awaiting_profile : World :=
  exec (init_settles demo_env 0 0 (InitOk true (demo_client ["editor"]))) demo_attached.

(** Hook 0 of the session has been detached. *)
Definition demo_detached : World := exec (unmount 0) (demo_session ["editor"]).

(** The tokens after a refresh. *)
Definition demo_refreshed_client : KeycloakInstance :=
  {| kc_authenticated := true; kc_token := Some "access-2";
     kc_refreshToken := Some "refresh-2";
     kc_role_attributes := Some demo_claims;
     kc_realmAccess := Some ["editor"]; kc_resourceAccess := ∅ |}.

(** * Properties *)

(** ** The permission merge *)

Example isCustomRole_examples :
  isCustomRole "editor" = true ∧ isCustomRole "default-roles-dreamn" = false
  ∧ isCustomRole "offline_access" = false ∧ isCustomRole "two-shoulder" = true.
Proof. vm_compute. done. Qed.

Example mergedPermissions_example :
  mergedPermissions false false ["editor"; "viewer"]
    {[ "reports" := JBool false; "admin" := JStr "1" ]}
  = {[ "reports" := false; "admin" := true ]}.
Proof. vm_compute. done. Qed.

(** An own key ["__proto__"] of the claim object gets no entry. *)
Example mergedPermissions_proto_example :
  mergedPermissions true false [] {[ "__proto__" := JBool true; "reports" := JBool false ]}
  = {[ "reports" := true ]}
  ∧ mergedPermissions false false ["editor"]
      {[ "__proto__" := JBool true; "reports" := JBool false ]}
    = {[ "reports" := false ]}.
Proof. vm_compute. done. Qed.

Lemma elem_of_Object_keys {V} (o : gmap string V) (k : string) :
  k ∈ Object_keys o ↔ is_Some (o !! k).
Proof.
  unfold Object_keys. rewrite list_elem_of_fmap. split.
  - intros [[k' v] [-> Hin]]. apply elem_of_map_to_list in Hin. by exists v.
  - intros [v Hv]. exists (k, v). split; [done|]. by apply elem_of_map_to_list.
Qed.

Lemma lookup_prop_set (key : string) (v : bool) (o : gmap string bool) (k : string) :
  prop_set key v o !! k
  = if decide (k = key ∧ k ≠ "__proto__") then Some v else o !! k.
Proof.
  unfold prop_set. case_bool_decide as Hproto.
  - rewrite decide_False; [done|]. intros [-> ?]. done.
  - destruct (decide (k = key)) as [->|Hne].
    + rewrite decide_True by done. apply lookup_insert_eq.
    + rewrite decide_False by (by intros [? ?]). by apply lookup_insert_ne.
Qed.

(** Assigning [f key] under every key of a list, over [acc]. *)
Lemma lookup_foldl_assign (f : string → bool) (keys : list string)
    (acc : gmap string bool) (k : string) :
  foldl (λ m key, prop_set key (f key) m) acc keys !! k
  = if decide (k ∈ keys ∧ k ≠ "__proto__") then Some (f k) else acc !! k.
Proof.
  revert acc. induction keys as [|key keys IH]; intros acc; cbn [foldl].
  - rewrite decide_False; [done|]. intros [Hin _]. by apply elem_of_nil in Hin.
  - rewrite IH, lookup_prop_set.
    destruct (decide (k = "__proto__")) as [Hproto|Hproto].
    { rewrite !decide_False; [done|by intros [? ?]..]. }
    destruct (decide (k ∈ keys)) as [Hin|Hnin].
    { rewrite !decide_True; [done|split; [by right|done]|done]. }
    rewrite (decide_False (P := k ∈ keys ∧ _)) by (by intros [? ?]).
    destruct (decide (k = key)) as [->|Hne].
    + rewrite !decide_True; [done|split; [by left|done]|done].
    + rewrite !decide_False; [done| |by intros [? ?]].
      intros [[->|?]%elem_of_cons ?]; done.
Qed.

Lemma assign_keys_fmap {V} (f : string → bool) (g : V → bool) (o : gmap string V) :
  (∀ k v, o !! k = Some v → f k = g v) →
  foldl (λ m key, prop_set key (f key) m) ∅ (Object_keys o) = g <$> delete "__proto__" o.
Proof.
  intros Hfg. apply map_eq. intros k.
  rewrite lookup_foldl_assign, lookup_fmap.
  destruct (decide (k = "__proto__")) as [->|Hproto].
  - rewrite lookup_delete_eq, decide_False; [done|]. by intros [_ ?].
  - rewrite lookup_delete_ne by done.
    destruct (o !! k) as [v|] eqn:Hk; simpl.
    + rewrite decide_True; [by rewrite (Hfg k v)|].
      split; [|done]. apply elem_of_Object_keys; eauto.
    + rewrite decide_False; [done|]. rewrite elem_of_Object_keys, Hk. by intros [[? ?] _].
Qed.

(** One pass of the inner loop of lines 193-200 overwrites every entry. *)
Lemma custom_pass (ra : gmap string JsVal) (merged : gmap string bool) :
  foldl (λ merged module,
           let value := prop_get ra module in
           if claim_enables value then prop_set module true merged
           else prop_set module false merged)
        merged (Object_keys ra)
  = foldl (λ m key, prop_set key (claim_enables (prop_get ra key)) m) merged (Object_keys ra).
Proof.
  generalize (Object_keys ra) as keys. intros keys. revert merged.
  induction keys as [|key keys IH]; intros merged; simpl; [done|].
  rewrite <- IH. by destruct (claim_enables (prop_get ra key)).
Qed.

Lemma custom_pass_idem (ra : gmap string JsVal) (merged : gmap string bool) :
  (∀ k, is_Some (merged !! k) → is_Some (delete "__proto__" ra !! k)) →
  foldl (λ m key, prop_set key (claim_enables (prop_get ra key)) m) merged (Object_keys ra)
  = claim_enables <$> delete "__proto__" ra.
Proof.
  intros Hsub. apply map_eq. intros k.
  rewrite lookup_foldl_assign, lookup_fmap.
  assert (Hold : delete "__proto__" ra !! k = None → merged !! k = None).
  { intros Hnone. destruct (merged !! k) eqn:Hm; [|done].
    destruct (Hsub k) as [? ?]; [eauto | congruence]. }
  destruct (decide (k = "__proto__")) as [->|Hproto].
  - rewrite decide_False by (by intros [_ ?]).
    rewrite lookup_delete_eq in *. simpl. by apply Hold.
  - rewrite lookup_delete_ne in * by done.
    destruct (ra !! k) as [v|] eqn:Hk; simpl.
    + rewrite decide_True; [|split; [apply elem_of_Object_keys; eauto|done]].
      unfold prop_get. by rewrite Hk.
    + rewrite decide_False; [|rewrite elem_of_Object_keys, Hk; by intros [[? ?] _]].
      by apply Hold.
Qed.

Lemma mergedPermissions_super (hasTwoShoulder : bool) (filteredRoles : list string)
    (ra : gmap string JsVal) :
  mergedPermissions true hasTwoShoulder filteredRoles ra
  = (λ _, true) <$> delete "__proto__" ra.
Proof. unfold mergedPermissions. by apply (assign_keys_fmap (λ _, true)). Qed.

Lemma mergedPermissions_two_shoulder (filteredRoles : list string)
    (ra : gmap string JsVal) :
  mergedPermissions false true filteredRoles ra = (λ _, true) <$> delete "__proto__" ra.
Proof. unfold mergedPermissions. by apply (assign_keys_fmap (λ _, true)). Qed.

Lemma mergedPermissions_custom (filteredRoles : list string) (ra : gmap string JsVal) :
  mergedPermissions false false filteredRoles ra
  = match filteredRoles with
    | [] => ∅
    | _ :: _ => claim_enables <$> delete "__proto__" ra
    end.
Proof.
  unfold mergedPermissions.
  assert (Hgen : ∀ roles (acc : gmap string bool),
    (∀ k, is_Some (acc !! k) → is_Some (delete "__proto__" ra !! k)) →
    foldl (λ merged (role : string),
             foldl (λ merged module,
                      let value := prop_get ra module in
                      if claim_enables value then prop_set module true merged
                      else prop_set module false merged)
                   merged (Object_keys ra)) acc roles
    = match roles with [] => acc | _ :: _ => claim_enables <$> delete "__proto__" ra end).
  { induction roles as [|role roles IH]; intros acc Hacc; simpl; [done|].
    rewrite custom_pass, custom_pass_idem by done.
    rewrite IH.
    - by destruct roles.
    - intros k. rewrite lookup_fmap.
      destruct (delete "__proto__" ra !! k); [eauto|]. by intros [? ?]. }
  rewrite Hgen; [done|]. intros k. rewrite lookup_empty. by intros [? ?].
Qed.

(** Whatever the roles are, no entry is stored under ["__proto__"], and
    every entry stored belongs to a key of the claim object. *)
Lemma mergedPermissions_keys (hasSuper hasTwoShoulder : bool)
    (filteredRoles : list string) (ra : gmap string JsVal) (k : string) :
  is_Some (mergedPermissions hasSuper hasTwoShoulder filteredRoles ra !! k) →
  k ≠ "__proto__" ∧ is_Some (ra !! k).
Proof.
  assert (Hdel : ∀ f : JsVal → bool,
            is_Some ((f <$> delete "__proto__" ra) !! k) →
            k ≠ "__proto__" ∧ is_Some (ra !! k)).
  { intros f. rewrite lookup_fmap. destruct (decide (k = "__proto__")) as [->|Hne].
    - rewrite lookup_delete_eq. by intros [? ?].
    - rewrite lookup_delete_ne by done. destruct (ra !! k); [eauto|]. by intros [? ?]. }
  destruct hasSuper; [rewrite mergedPermissions_super; apply Hdel|].
  destruct hasTwoShoulder; [rewrite mergedPermissions_two_shoulder; apply Hdel|].
  rewrite mergedPermissions_custom. destruct filteredRoles; [|apply Hdel].
  rewrite lookup_empty. by intros [? ?].
Qed.

(** ** Running the hook functions *)

(** Evaluation of a turn stops at the functions on claims and roles and at
    the broadcast; these are handled by their own lemmas. *)
Arguments loadRoleAttributes : simpl never.
Arguments mergedPermissions : simpl never.
Arguments roleAttributesMap : simpl never.
Arguments getUserRoles : simpl never.
Arguments getClientRoles : simpl never.
Arguments hasSuperRole : simpl never.
Arguments includes : simpl never.
Arguments or_default : simpl never.
Arguments or_null : simpl never.
Arguments trim : simpl never.
Arguments notifyStateChange : simpl never.

(** An assignment to a world given field by field is carried out. *)
Arguments set_keycloakSingleton _ !_ /.
Arguments set_keycloakInitPromise _ !_ /.
Arguments set_initializationState _ !_ /.
Arguments set_globalError _ !_ /.
Arguments set_stateSubscribers _ !_ /.
Arguments set_hooks _ !_ /.
Arguments set_instances _ !_ /.
Arguments set_promises _ !_ /.
Arguments set_timers _ !_ /.
Arguments set_nextTimer _ !_ /.
Arguments set_tasks _ !_ /.
Arguments set_provider_calls _ !_ /.
Arguments set_console _ !_ /.
Arguments set_delivered _ !_ /.

Ltac js_unfold :=
  unfold exec, when, rd, upd, deref, gets, modify, throw, await, try_catch,
    console_error, provider_call, park, settle, clearTimeout,
    mbind, mret, Eff_bind, Eff_ret in *.

Lemma loadRoleAttributes_mounted env h kcref w kc hook :
  instances w !! kcref = Some kc → kc_authenticated kc = true →
  hooks w !! h = Some hook → isMountedRef hook = true →
  loadRoleAttributes env h kcref w
  = (Normal (resolved_roleAttributes env kc),
     set_hooks (alter (setPermissions (resolved_permissions env kc)) h
                  (alter (setRoleAttributes (resolved_roleAttributes env kc)) h (hooks w))) w).
Proof.
  intros Hkc Hauth Hh Hm. unfold loadRoleAttributes, isMounted. js_unfold.
  rewrite Hkc, Hh. simpl. rewrite Hauth, Hm. simpl. rewrite Hh. simpl. rewrite Hm.
  unfold resolved_permissions, resolved_roleAttributes, hasSuperRole, getUserRoles,
    getClientRoles.
  rewrite Hauth. reflexivity.
Qed.

Lemma loadRoleAttributes_skips env h kcref w :
  from_option kc_authenticated false (instances w !! kcref) = false
  ∨ from_option isMountedRef false (hooks w !! h) = false →
  loadRoleAttributes env h kcref w = (Normal ∅, w).
Proof.
  intros Hskip. unfold loadRoleAttributes, isMounted. js_unfold.
  destruct Hskip as [-> | ->]; [done|]. by rewrite orb_true_r.
Qed.

Lemma loadRoleAttributes_permissions env h kcref w kc hook :
  instances w !! kcref = Some kc → kc_authenticated kc = true →
  hooks w !! h = Some hook → isMountedRef hook = true →
  ∃ hook', hooks (exec (loadRoleAttributes env h kcref) w) !! h = Some hook'
           ∧ permissions hook' = resolved_permissions env kc.
Proof.
  intros Hkc Hauth Hh Hm. unfold exec.
  rewrite (loadRoleAttributes_mounted env h kcref w kc hook) by done. simpl.
  rewrite !lookup_alter_eq, Hh. simpl. eauto.
Qed.

Lemma existsb_filter_cons {A} (f : A → bool) (l : list A) :
  existsb f l = true → ∃ x l', List.filter f l = x :: l'.
Proof.
  induction l as [|a l IH]; simpl; [done|].
  destruct (f a); simpl; eauto.
Qed.

Lemma existsb_filter_nil {A} (f : A → bool) (l : list A) :
  existsb f l = false → List.filter f l = [].
Proof.
  induction l as [|a l IH]; simpl; [done|].
  destruct (f a); simpl; [done | auto].
Qed.






(** C10: for authenticated callers that hold neither the super role nor
    "two-shoulder", the permission map [loadRoleAttributes] stores depends on
    the roles only through whether some custom role is held.  Two such
    callers with the same [role_attributes] and at least one custom role each,
    whichever and however many, get the same map; that map is a function of
    the claim object alone: it holds the coercion of the claim value under
    every key the merge stores, which is every key of the claim object but
    ["__proto__"].  A caller without a custom role gets the empty map. *)
Theorem C10_custom_roles_do_not_matter env
    (w1 : World) h1 kcref1 kc1 hook1 (w2 : World) h2 kcref2 kc2 hook2 :
  instances w1 !! kcref1 = Some kc1 → kc_authenticated kc1 = true →
  hooks w1 !! h1 = Some hook1 → isMountedRef hook1 = true →
  instances w2 !! kcref2 = Some kc2 → kc_authenticated kc2 = true →
  hooks w2 !! h2 = Some hook2 → isMountedRef hook2 = true →
  hasSuperRole env (Some kc1) = false → hasSuperRole env (Some kc2) = false →
  includes (getUserRoles env (Some kc1)) "two-shoulder" = false →
  includes (getUserRoles env (Some kc2)) "two-shoulder" = false →
  kc_role_attributes kc1 = kc_role_attributes kc2 →
  ∃ hook1' hook2',
    hooks (exec (loadRoleAttributes env h1 kcref1) w1) !! h1 = Some hook1'
    ∧ hooks (exec (loadRoleAttributes env h2 kcref2) w2) !! h2 = Some hook2'
    ∧ (existsb isCustomRole (getUserRoles env (Some kc1)) = true →
       existsb isCustomRole (getUserRoles env (Some kc2)) = true →
       permissions hook1' = permissions hook2'
       ∧ permissions hook1'
         = claim_enables <$> delete "__proto__" (default ∅ (kc_role_attributes kc1))
       ∧ ∀ module,
           permissions hook1' !! module
           = if bool_decide (module = "__proto__") then None
             else claim_enables <$> default ∅ (kc_role_attributes kc1) !! module)
    ∧ (existsb isCustomRole (getUserRoles env (Some kc1)) = false →
       permissions hook1' = ∅).
Proof.
  intros Hkc1 Ha1 Hh1 Hm1 Hkc2 Ha2 Hh2 Hm2 Hs1 Hs2 Ht1 Ht2 Hra.
  destruct (loadRoleAttributes_permissions env h1 kcref1 w1 kc1 hook1)
    as (hook1' & Hl1 & Hp1); [done..|].
  destruct (loadRoleAttributes_permissions env h2 kcref2 w2 kc2 hook2)
    as (hook2' & Hl2 & Hp2); [done..|].
  exists hook1', hook2'. split; [done|]. split; [done|].
  rewrite Hp1, Hp2. unfold resolved_permissions.
  rewrite Hs1, Hs2, Ht1, Ht2, !mergedPermissions_custom, Hra. split.
  - intros (x1 & l1 & ->)%existsb_filter_cons (x2 & l2 & ->)%existsb_filter_cons.
    split; [done|]. split; [done|]. intros module. rewrite lookup_fmap.
    case_bool_decide as Hproto.
    + subst module. by rewrite lookup_delete_eq.
    + by rewrite lookup_delete_ne.
  - intros ->%existsb_filter_nil. done.
Qed.

(** ** The query [hasModulePermission] *)

(** C9: [hasModulePermission] answers [false] for an unauthenticated hook or
    an empty module name; otherwise [true] when [hasSuperRole()] holds of the
    hook's client, and otherwise [true] exactly when the permission map holds
    the boolean [true] under the module name. *)
Theorem C9_hasModulePermission env (w : World) (hook : Hook) (moduleName : string) :
  let client := r ← keycloak hook; instances w !! r in
  (authenticated hook = false ∨ moduleName = "" →
   hasModulePermission env w hook moduleName = false)
  ∧ (authenticated hook = true → moduleName ≠ "" → hasSuperRole env client = true →
     hasModulePermission env w hook moduleName = true)
  ∧ (authenticated hook = true → moduleName ≠ "" → hasSuperRole env client = false →
     (hasModulePermission env w hook moduleName = true
      ↔ permissions hook !! moduleName = Some true)
     ∧ (permissions hook !! moduleName ≠ Some true →
        hasModulePermission env w hook moduleName = false)).
Proof.
  unfold hasModulePermission. cbv zeta. split; [|split].
  - intros [-> | ->]; [done|]. by rewrite orb_true_r.
  - intros -> Hne ->. by rewrite bool_decide_eq_false_2.
  - intros -> Hne ->. rewrite (bool_decide_eq_false_2 _ Hne). simpl. split.
    + apply bool_decide_eq_true.
    + apply bool_decide_eq_false_2.
Qed.

(** ** The reducer [handleStateChange] *)

Example handleStateChange_sets (hook : Hook) :
  isMountedRef hook = true →
  token (handleStateChange (TOKEN_UPDATED (Some "t") (Some "r")) hook) = Some "t"
  ∧ error (handleStateChange (TOKEN_UPDATED (Some "t") (Some "r")) hook) = error hook.
Proof. intros Hm. unfold handleStateChange. rewrite Hm. done. Qed.

(** What the reducer does on the four kinds it has a case for, and on any
    other kind. *)
Lemma handleStateChange_cases (hook : Hook) :
  isMountedRef hook = true →
  (let hook' := handleStateChange RESET hook in
   keycloak hook' = None ∧ authenticated hook' = false ∧ loading hook' = false
   ∧ error hook' = None ∧ userInfo hook' = None ∧ token hook' = None
   ∧ refreshToken hook' = None ∧ roleAttributes hook' = ∅ ∧ permissions hook' = ∅)
  ∧ (∀ kc a, let hook' := handleStateChange (INITIALIZED kc a) hook in
       keycloak hook' = Some kc ∧ authenticated hook' = a ∧ loading hook' = false
       ∧ error hook' = None ∧ token hook' = token hook
       ∧ permissions hook' = permissions hook)
  ∧ (∀ msg, let hook' := handleStateChange (ERROR msg) hook in
       error hook' = Some msg ∧ loading hook' = false
       ∧ authenticated hook' = authenticated hook ∧ token hook' = token hook)
  ∧ (∀ t r, let hook' := handleStateChange (TOKEN_UPDATED t r) hook in
       token hook' = t ∧ refreshToken hook' = r
       ∧ authenticated hook' = authenticated hook ∧ loading hook' = loading hook)
  ∧ (∀ ev, ev_type ev ∉ ["RESET"; "INITIALIZED"; "ERROR"; "TOKEN_UPDATED"] →
       handleStateChange ev hook = hook).
Proof.
  intros Hm. unfold handleStateChange. rewrite Hm. simpl.
  repeat split; try done.
  intros ev Hev.
  rewrite !bool_decide_eq_false_2; [done|..]; intros Heq; apply Hev; rewrite Heq;
    set_solver.
Qed.

(** C2, at the kind the reducer has no case for: a [LOADING] event leaves
    every hook as it is, so [loading] stays [false] where the event says
    [loading: true]. *)
Theorem C2_LOADING_is_not_applied (hook : Hook) :
  handleStateChange LOADING hook = hook
  ∧ ev_loading LOADING = true
  ∧ loading (handleStateChange LOADING
               {| keycloak := None; authenticated := false; loading := false;
                  error := None; userInfo := None; token := None;
                  refreshToken := None; roleAttributes := ∅; permissions := ∅;
                  updateTokenTimeoutRef := None; isMountedRef := true |}) = false.
Proof.
  split; [|done]. unfold handleStateChange. by destruct (isMountedRef hook).
Qed.

(** ** The broadcast *)

Section BroadcastFacts.

Context {Sub St : Type} (subscriber : Sub → StateEvent → Eff St unit).

Import Broadcast.

Lemma forEach_subscribers (newState : StateEvent) (subs : list Sub) (ch : Channel Sub St) :
  forEach (λ s,
    try_catch (call subscriber s newState)
              (λ error, console_error ("Error notifying state subscriber: " +:+ error)))
    subs ch
  = (Normal tt,
     {| ch_subscribers := ch_subscribers ch;
        ch_observers := observed subscriber newState subs (ch_observers ch);
        ch_console := ch_console ch
          ++ map (λ error, "Error notifying state subscriber: " +:+ error)
                 (thrown subscriber newState subs (ch_observers ch));
        ch_delivered := ch_delivered ch ++ map (λ s, (s, newState)) subs |}).
Proof.
  revert ch. induction subs as [|s subs IH]; intros ch; simpl.
  - destruct ch. simpl. by rewrite !app_nil_r.
  - unfold mbind, Eff_bind, try_catch, call at 1.
    destruct (subscriber s newState (ch_observers ch)) as [[[]|error] st'] eqn:Hs.
    + rewrite IH. simpl. by rewrite <- app_assoc.
    + unfold console_error at 1, modify. rewrite IH. simpl.
      by rewrite <- !app_assoc.
Qed.

Lemma notifyStateChange_run (newState : StateEvent) (ch : Channel Sub St) :
  notifyStateChange subscriber newState ch
  = (Normal tt,
     {| ch_subscribers := ch_subscribers ch;
        ch_observers := observed subscriber newState (ch_subscribers ch) (ch_observers ch);
        ch_console := ch_console ch
          ++ map (λ error, "Error notifying state subscriber: " +:+ error)
                 (thrown subscriber newState (ch_subscribers ch) (ch_observers ch));
        ch_delivered := ch_delivered ch
          ++ map (λ s, (s, newState)) (ch_subscribers ch) |}).
Proof. unfold notifyStateChange, mbind, Eff_bind, gets. apply forEach_subscribers. Qed.

(** C7: whatever the subscribers do, and whichever of them throw,
    [notifyStateChange] completes normally; it has called every subscriber
    of the set once, in order, with the same event; each subscriber ran on
    the state its predecessors left; every exception thrown is on the
    console and nowhere else; and the subscriber set is what it was. *)
Theorem C7_broadcast_fault_isolation (newState : StateEvent) (ch : Channel Sub St) :
  let result := notifyStateChange subscriber newState ch in
  fst result = Normal tt
  ∧ ch_subscribers (snd result) = ch_subscribers ch
  ∧ ch_delivered (snd result)
    = ch_delivered ch ++ map (λ s, (s, newState)) (ch_subscribers ch)
  ∧ ch_observers (snd result)
    = observed subscriber newState (ch_subscribers ch) (ch_observers ch)
  ∧ ch_console (snd result)
    = ch_console ch
      ++ map (λ error, "Error notifying state subscriber: " +:+ error)
             (thrown subscriber newState (ch_subscribers ch) (ch_observers ch)).
Proof. cbv zeta. by rewrite notifyStateChange_run. Qed.

End BroadcastFacts.

(** Two subscribers, the first of which throws on every event: the second
    still gets the event. *)
Example broadcast_with_a_faulty_subscriber :
  let subscriber (s : nat) (ev : StateEvent) : Eff (list (nat * string)) unit :=
    if bool_decide (s = 0) then throw "A is broken"
    else modify (λ log, log ++ [(s, ev_type ev)]) in
  Broadcast.notifyStateChange subscriber (TOKEN_UPDATED (Some "t") (Some "r"))
    {| Broadcast.ch_subscribers := [0; 1]; Broadcast.ch_observers := [];
       Broadcast.ch_console := []; Broadcast.ch_delivered := [] |}
  = (Normal tt,
     {| Broadcast.ch_subscribers := [0; 1];
        Broadcast.ch_observers := [(1, "TOKEN_UPDATED")];
        Broadcast.ch_console := ["Error notifying state subscriber: A is broken"];
        Broadcast.ch_delivered := [(0, TOKEN_UPDATED (Some "t") (Some "r"));
                                   (1, TOKEN_UPDATED (Some "t") (Some "r"))] |}).
Proof. reflexivity. Qed.

(** ** The broadcast to the hooks *)

Lemma observed_hooks newState subs hs :
  Broadcast.observed hook_subscriber newState subs hs = notified newState subs hs.
Proof. revert hs. induction subs as [|h subs IH]; intros hs; simpl; [done|]. by rewrite IH. Qed.

Lemma thrown_hooks newState subs hs :
  Broadcast.thrown hook_subscriber newState subs hs = [].
Proof. revert hs. induction subs as [|h subs IH]; intros hs; simpl; [done|]. by rewrite IH. Qed.

(** A hook's subscriber never throws, so the console is left alone. *)
Lemma notifyStateChange_hooks (newState : StateEvent) (w : World) :
  notifyStateChange newState w
  = (Normal tt,
     w |> set_hooks (notified newState (stateSubscribers w) (hooks w))
       |> set_console (console w)
       |> set_delivered (delivered w ++ map (λ h, (h, newState)) (stateSubscribers w))).
Proof.
  unfold notifyStateChange. rewrite notifyStateChange_run. simpl.
  by rewrite observed_hooks, thrown_hooks, app_nil_r.
Qed.

Lemma handleStateChange_mounted newState hook :
  isMountedRef (handleStateChange newState hook) = isMountedRef hook.
Proof.
  unfold handleStateChange. destruct (isMountedRef hook) eqn:Hm; simpl; [|done].
  repeat case_bool_decide; done.
Qed.

Lemma handleStateChange_idem newState hook :
  handleStateChange newState (handleStateChange newState hook)
  = handleStateChange newState hook.
Proof.
  unfold handleStateChange. destruct (isMountedRef hook) eqn:Hm; simpl; [|by rewrite Hm].
  repeat case_bool_decide; simpl; rewrite ?Hm; done.
Qed.

Lemma notified_lookup newState subs hs (h : HookId) :
  notified newState subs hs !! h
  = (if decide (h ∈ subs) then handleStateChange newState else id) <$> hs !! h.
Proof.
  unfold notified. revert hs. induction subs as [|s subs IH]; intros hs; simpl.
  - destruct (decide (h ∈ [])) as [Hin|]; [by apply elem_of_nil in Hin|].
    by destruct (hs !! h).
  - rewrite IH. destruct (decide (s = h)) as [->|Hne].
    + rewrite lookup_alter_eq, (decide_True (P := h ∈ h :: subs)) by (by left).
      destruct (hs !! h) as [hook|]; simpl; [|by destruct (decide _)].
      destruct (decide (h ∈ subs)); simpl; [by rewrite handleStateChange_idem | done].
    + rewrite lookup_alter_ne by done.
      destruct (decide (h ∈ subs)) as [Hin|Hnin].
      * rewrite decide_True; [done | by right].
      * rewrite decide_False; [done|]. intros [->|?]%elem_of_cons; done.
Qed.

(** [LOADING] has no case in the reducer: broadcasting it changes no hook. *)
Lemma notified_LOADING subs hs : notified LOADING subs hs = hs.
Proof.
  apply map_eq. intros h. rewrite notified_lookup.
  destruct (hs !! h) as [hook|]; simpl; [|done].
  destruct (decide (h ∈ subs)); simpl; [|done].
  unfold handleStateChange. by destruct (isMountedRef hook).
Qed.

(** ** [logout] *)

Lemma mounted_notified newState subs hs (h : HookId) :
  from_option isMountedRef false (notified newState subs hs !! h)
  = from_option isMountedRef false (hs !! h).
Proof.
  rewrite notified_lookup. destruct (hs !! h) as [hook|]; simpl; [|done].
  destruct (decide (h ∈ subs)); simpl; [apply handleStateChange_mounted | done].
Qed.

Lemma parked_last (t : Task) (l : list Task) : bool_decide (t ∈ l ++ [t]) = true.
Proof. apply bool_decide_eq_true_2, elem_of_app. right. by left. Qed.

(** Running a turn on a world given field by field. *)
Ltac js_eval :=
  repeat (progress
    (simpl;
     rewrite ?notifyStateChange_hooks, ?mounted_notified, ?lookup_alter_eq, ?parked_last;
     try match goal with H : _ = _ |- _ => rewrite H end)).

(** A goal [∃ hook', hooks !! h = Some hook' ∧ P hook'] on a hook store built
    from alterations and broadcasts. *)
Ltac hook_goal Hm :=
  repeat (rewrite notified_lookup || rewrite lookup_alter_eq);
  repeat match goal with H : _ !! _ = Some _ |- _ => rewrite H end;
  simpl;
  repeat (destruct (decide _); simpl);
  (eexists; split; [reflexivity|]);
  unfold handleStateChange; repeat (progress (simpl; rewrite ?Hm)); done.

(** C8: [logout] on a mounted hook that holds a client.  When the first turn
    ends, parked on the provider's [logout], the module variables are reset,
    the session data of the hook is cleared, the timer the hook had is
    cancelled and its ref is empty; the provider call is the last thing the
    turn did.  Whether the provider call then resolves or rejects, all of this
    still holds after the second turn, which calls the provider no more. *)
Theorem C8_logout_resets_regardless env (w : World) (h : HookId) (hook : Hook)
    (kc : InstRef) (options : gmap string string) :
  hooks w !! h = Some hook → keycloak hook = Some kc → isMountedRef hook = true →
  let cleared (w' : World) :=
    shared_state_reset w'
    ∧ (∃ hook', hooks w' !! h = Some hook' ∧ local_state_reset hook'
                ∧ updateTokenTimeoutRef hook' = None)
    ∧ (∀ t, updateTokenTimeoutRef hook = Some t → timers w' !! t = None) in
  let w1 := exec (logout_start env h options) w in
  cleared w1
  ∧ provider_calls w1
    = provider_calls w
      ++ [call_logout kc (options ∪ {[ "redirectUri" := window_location_origin env ]})]
  ∧ tasks w1 = tasks w ++ [AwaitLogout h]
  ∧ ∀ outcome : Outcome unit,
      let w2 := exec (logout_settles h outcome) w1 in
      cleared w2 ∧ provider_calls w2 = provider_calls w1.
Proof.
  intros Hh Hk Hm. destruct w. simpl in *.
  unfold logout_settles, logout_resume, logout_start, clear_refresh_timer,
    resetGlobalState, isMounted, unpark, shared_state_reset, local_state_reset.
  js_unfold.
  assert (Htimer : ∀ (t : TimerId) (tm : gmap TimerId (HookId * InstRef * Z)),
             ∀ t', Some t = Some t' → delete t tm !! t' = None).
  { intros t tm t' [= <-]. apply lookup_delete_eq. }
  destruct (updateTokenTimeoutRef hook) as [t|] eqn:Ht; js_eval.
  all: split; [|split; [done|split; [done|]]].
  all: try (intros [[]|err]; js_eval; (split; [|reflexivity])).
  all: (split; [by repeat split|split; [hook_goal Hm | first [apply Htimer | by intros ? [=]]]]).
Qed.

(** ** The scheduled refresh *)

(** C3, in the form the code supports: when the provider rejects the scheduled
    [updateToken(30)], nothing is broadcast and no other hook changes.  The
    failure is logged: ["Token update failed: "] with the error, and
    ["Re-login required"] if the hook that owns the scheduler is still
    mounted; that hook then gets the re-login message in its own [error].
    No timer is armed, the provider is not called again, the module
    variables stay, and the handler does not touch the client: it holds what
    the provider left in it when rejecting, and [getToken] answers from
    that.  When the provider left the client as it was, [getToken] answers
    what it answered before the failure. *)
Theorem C3_refresh_failure_stays_local env (w : World) (h : HookId) (kc : InstRef)
    (hook : Hook) (err : Exn) (client : option KeycloakInstance) :
  hooks w !! h = Some hook → AwaitUpdateToken h kc ∈ tasks w →
  let w0 := exec (provider_leaves kc client) w in
  let w' := exec (updateToken_settles env h kc (RefreshFailed err client)) w in
  delivered w' = delivered w
  ∧ (∀ h', h' ≠ h → hooks w' !! h' = hooks w !! h')
  ∧ hooks w' !! h
    = Some (if isMountedRef hook
            then setError (Some "Authentication session expired. Please login again.") hook
            else hook)
  ∧ console w'
    = console w ++ ("Token update failed: " +:+ err)
                   :: (if isMountedRef hook then ["Re-login required"] else [])
  ∧ timers w' = timers w
  ∧ provider_calls w' = provider_calls w
  ∧ tasks w' = remove_first (AwaitUpdateToken h kc) (tasks w)
  ∧ (keycloakSingleton w' = keycloakSingleton w
     ∧ keycloakInitPromise w' = keycloakInitPromise w
     ∧ initializationState w' = initializationState w
     ∧ globalError w' = globalError w)
  ∧ instances w' = instances w0
  ∧ (∀ hook', hooks w' !! h = Some hook' → getToken w' hook' = getToken w0 hook)
  ∧ (client = None →
     instances w' = instances w
     ∧ ∀ hook', hooks w' !! h = Some hook' → getToken w' hook' = getToken w hook).
Proof.
  intros Hh Hparked. destruct w. simpl in *.
  apply (bool_decide_eq_true_2 _) in Hparked.
  unfold updateToken_settles, updateToken_resume, provider_leaves, provider_writes,
    unpark, isMounted, getToken.
  js_unfold. js_eval.
  destruct client as [c|]; destruct (isMountedRef hook) eqn:Hm; js_eval.
  all: repeat split; try done.
  all: try (intros h' Hne; by rewrite lookup_alter_ne).
  all: try by rewrite <- app_assoc.
  all: by intros hook' [= <-].
Qed.

(** ** [initKeycloak] *)

(** [initKeycloak] after the provider has answered: it keeps the heap and
    either returns the client or parks on the user data. *)
Ltac heap_done :=
  do 2 eexists; (split; [reflexivity|]); simpl;
  rewrite ?List.filter_app, ?length_app; simpl; rewrite ?Nat.add_0_r; eauto 10.

Lemma initKeycloak_resume_run env h r kc a (w : World) :
  ∃ c w', initKeycloak_resume env h r (Resolved (VInitResult kc a)) w = (Normal c, w')
    ∧ keeps_heap w w'
    ∧ (c = Some (VInstance kc)
       ∨ c = None ∧ ∃ ts, tasks w' = ts ++ [AwaitUserData h kc r]).
Proof.
  destruct w. unfold keeps_heap, init_calls.
  unfold initKeycloak_resume, initKeycloak_tail, setupTokenRefresh, updateToken_start,
    clear_refresh_timer, loadUserInfo_start, isMounted.
  js_unfold. simpl.
  destruct (hooks0 !! h) as [hook|] eqn:Hh; simpl; [|heap_done].
  destruct (isMountedRef hook) eqn:Hm; simpl; [|heap_done].
  destruct a; js_eval; [|heap_done].
  destruct (instances0 !! kc) as [client|] eqn:Hkc; simpl.
  2:{ rewrite loadRoleAttributes_skips by (left; simpl; by rewrite Hkc).
      js_eval. destruct (updateTokenTimeoutRef hook); js_eval; heap_done. }
  destruct (kc_authenticated client) eqn:Hauth; js_eval.
  - erewrite loadRoleAttributes_mounted;
      [|simpl; eassumption|done|simpl; by rewrite !lookup_alter_eq, Hh|simpl; exact Hm].
    js_eval. heap_done.
  - rewrite loadRoleAttributes_skips by (left; simpl; rewrite Hkc; simpl; exact Hauth).
    js_eval. destruct (updateTokenTimeoutRef hook); js_eval; heap_done.
Qed.

(** [initKeycloak] after the user data has arrived: it keeps the heap and
    returns the client. *)
Lemma initKeycloak_finish_run env h kc (outcome : Outcome Profile) (w : World) :
  ∃ w', (loadUserInfo_resume env h kc outcome ;;
         v ← initKeycloak_tail h kc; mret (Some v)) w
        = (Normal (Some (VInstance kc)), w')
    ∧ keeps_heap w w'.
Proof.
  destruct w. unfold keeps_heap, init_calls.
  unfold loadUserInfo_resume, initKeycloak_tail, setupTokenRefresh, updateToken_start,
    clear_refresh_timer, isMounted.
  js_unfold. simpl.
  destruct (hooks0 !! h) as [hook|] eqn:Hh; simpl.
  - destruct outcome as [profile|err]; simpl;
      destruct (isMountedRef hook) eqn:Hm; js_eval;
      try (destruct (updateTokenTimeoutRef hook); js_eval);
      eexists; (split; [reflexivity|]); simpl;
      rewrite ?List.filter_app, ?length_app; simpl; rewrite ?Nat.add_0_r; done.
  - destruct outcome as [profile|err]; js_eval;
      eexists; (split; [reflexivity|]); done.
Qed.

Lemma parked_in (t : Task) (l l' : list Task) : bool_decide (t ∈ l ++ t :: l') = true.
Proof. apply bool_decide_eq_true_2, elem_of_app. right. by left. Qed.

Lemma waiters_app p (l l' : list Task) : waiters p (l ++ l') = waiters p l ++ waiters p l'.
Proof.
  induction l as [|t l IH]; simpl; [done|].
  destruct t; simpl; rewrite ?IH; try done. by case_bool_decide.
Qed.

Lemma waiters_remove_first p t (l : list Task) :
  is_waiter p t = false → waiters p (remove_first t l) = waiters p l.
Proof.
  intros Ht. induction l as [|x l IH]; simpl; [done|].
  case_bool_decide as Hx.
  - subst x. destruct t; simpl in *; try done. by rewrite Ht.
  - destruct x; simpl; rewrite ?IH; done.
Qed.

Lemma waiters_none p (l : list Task) :
  (∀ t, t ∈ l → is_waiter p t = false) → waiters p l = [].
Proof.
  induction l as [|x l IH]; intros Hl; simpl; [done|].
  assert (Hx := Hl x (list_elem_of_here _ _)).
  rewrite IH by (intros t Ht; apply Hl; by right).
  destruct x; simpl in *; try done. by rewrite Hx.
Qed.

Lemma insert_at_end {A} (l l' : list A) (x y : A) :
  <[length l := x]> (l ++ y :: l') = l ++ x :: l'.
Proof. induction l as [|z l IH]; simpl; [done|]. by rewrite IH. Qed.

Lemma lookup_at_end {A} (l l' : list A) (x : A) : (l ++ x :: l') !! length l = Some x.
Proof. by apply list_lookup_middle. Qed.

(** A call while the phase is [initializing] hands back the promise in
    flight and does nothing else. *)
Lemma initKeycloak_initializing env h (w : World) :
  initializationState w = initializing →
  initKeycloak env h w = (Normal (ReturnedPromise (keycloakInitPromise w)), w).
Proof.
  intros Hst. destruct w. simpl in *. subst. reflexivity.
Qed.

Lemma attach_all_initializing env callers (w : World) :
  initializationState w = initializing →
  attach_all env callers w
  = (Normal (replicate (length callers) (ReturnedPromise (keycloakInitPromise w))), w).
Proof.
  intros Hst. induction callers as [|h callers IH]; simpl; [done|].
  unfold mbind, Eff_bind. rewrite initKeycloak_initializing by done.
  by rewrite IH.
Qed.

(** The first call from [idle]: a client is made, its [init] is called, and
    both the arrow function and the caller park. *)
Lemma initKeycloak_idle env h (w : World) :
  initializationState w = idle → keycloakInitPromise w = None →
  let kc := length (instances w) in
  let p := length (promises w) in
  initKeycloak env h w
  = (Normal (Parked (S p)),
     w |> set_initializationState initializing
       |> set_globalError None
       |> set_keycloakInitPromise (Some p)
       |> set_instances (instances w ++ [blank_client])
       |> set_promises (promises w ++ [None; None])
       |> set_tasks (tasks w ++ [AwaitProviderInit p kc; AwaitInitPromise h p (S p)])
       |> set_provider_calls (provider_calls w ++ [call_init kc])
       |> set_delivered (delivered w ++ map (λ s, (s, LOADING)) (stateSubscribers w))).
Proof.
  intros Hst Hp. destruct w. simpl in *. subst.
  unfold initKeycloak, init_iife_start, new_Keycloak, new_promise, run_async.
  js_unfold. js_eval. rewrite notified_LOADING.
  rewrite length_app, Nat.add_1_r. simpl.
  rewrite <- !app_assoc. simpl. rewrite lookup_at_end. simpl.
  by rewrite <- !app_assoc.
Qed.

(** The provider answers [init] with success: the init promise is resolved
    with the client and the flag; the first caller resumes and either
    finishes, resolving with the client, or parks on the user data. *)
Lemma init_settles_run env h a client (w : World)
    (ts : list Task) (ps : list (option (Outcome Value))) (cs : list KeycloakInstance) :
  tasks w = ts ++ [AwaitProviderInit (length ps) (length cs);
                   AwaitInitPromise h (length ps) (S (length ps))] →
  waiters (length ps) ts = [] →
  promises w = ps ++ [None; None] →
  instances w = cs ++ [blank_client] →
  ∃ w',
    init_settles env (length ps) (length cs) (InitOk a client) w = (Normal tt, w')
    ∧ instances w' = cs ++ [client]
    ∧ init_calls w' = init_calls w
    ∧ (promises w' = ps ++ [Some (Resolved (VInitResult (length cs) a));
                            Some (Resolved (VInstance (length cs)))]
       ∨ promises w' = ps ++ [Some (Resolved (VInitResult (length cs) a)); None]
         ∧ AwaitUserData h (length cs) (S (length ps)) ∈ tasks w').
Proof.
  intros Hts Hws Hps Hcs. destruct w. simpl in *. subst.
  unfold init_settles, init_iife_resume, provider_writes, unpark, run_async.
  js_unfold. js_eval. rewrite parked_in. js_eval.
  rewrite insert_at_end, lookup_at_end. js_eval.
  rewrite waiters_remove_first, waiters_app, Hws by done. simpl.
  rewrite !bool_decide_eq_true_2 by done. js_eval. js_unfold.
  match goal with
  | |- context [initKeycloak_resume env h ?r ?o ?X] =>
      destruct (initKeycloak_resume_run env h r (length cs) a X)
        as (c & w' & Heq & (Hp & Hi & Hn) & Hc)
  end.
  rewrite Heq. destruct w'. simpl in *. subst.
  rewrite insert_at_end in *.
  destruct Hc as [-> | [-> [ts' Hts']]]; simpl.
  - eexists. split; [reflexivity|]. simpl. split; [done|]. split; [done|]. left.
    change [Some (Resolved (VInitResult (length cs) a)); None]
      with ([Some (Resolved (VInitResult (length cs) a))] ++ [None]).
    rewrite app_assoc.
    replace (S (length ps))
      with (length (ps ++ [Some (Resolved (VInitResult (length cs) a))]))
      by (rewrite length_app; simpl; lia).
    rewrite insert_at_end. by rewrite <- app_assoc.
  - eexists. split; [reflexivity|]. simpl. split; [done|]. split; [done|]. right.
    split; [done|]. subst. apply elem_of_app. right. by left.
Qed.

(** The user data arrives, or did not have to: the promise of the first
    caller ends up resolved with the client. *)
Lemma userProfile_settles_run env h kc r (outcome : Outcome Profile) (w : World) :
  promises w !! r = Some (Some (Resolved (VInstance kc)))
  ∨ AwaitUserData h kc r ∈ tasks w →
  ∃ w',
    userProfile_settles env h kc r outcome w = (Normal tt, w')
    ∧ promises w' = <[r := Some (Resolved (VInstance kc))]> (promises w)
    ∧ instances w' = instances w
    ∧ init_calls w' = init_calls w.
Proof.
  intros Hr. unfold userProfile_settles, unpark. unfold mbind at 1, Eff_bind at 1.
  case_bool_decide as Hparked.
  - unfold run_async.
    match goal with
    | |- context [(loadUserInfo_resume env h kc outcome ;; ?k) ?X] =>
        destruct (initKeycloak_finish_run env h kc outcome X)
          as (w' & Heq & (Hp & Hi & Hn))
    end.
    rewrite Heq. destruct w', w. simpl in *. subst.
    eexists. split; [reflexivity|]. done.
  - destruct Hr as [Hr|]; [|done].
    exists w. split; [done|]. split; [|done].
    symmetry. by apply list_insert_id.
Qed.

Lemma no_waiters_on_fresh (w : World) :
  promises_allocated w = true → waiters (length (promises w)) (tasks w) = [].
Proof.
  unfold promises_allocated. rewrite forallb_forall. intros Hall.
  apply waiters_none. intros t Ht. apply list_elem_of_In, Hall in Ht.
  destruct t; simpl in *; try done.
  apply andb_true_iff in Ht as [Hp _]. apply Nat.ltb_lt in Hp.
  apply bool_decide_eq_false_2. lia.
Qed.

(** C1: from [idle], any number of [initKeycloak] calls in a row make the
    provider's [init] run once: the first call makes the client, calls [init]
    and parks; every later call finds the phase [initializing] and is handed
    the promise of the first, still pending.  When the provider then resolves
    [init] with a flag, the flag its client holds, and the user data of the
    first caller has settled either way, [init] has still been called once
    and every call is resolved with a value that carries the same flag. *)
Theorem C1_at_most_one_initialization env (w : World) (caller : HookId)
    (callers : list HookId) :
  initializationState w = idle → keycloakInitPromise w = None →
  promises_allocated w = true →
  let kc := length (instances w) in
  let p := length (promises w) in
  let r := S p in
  let rets := Parked r :: replicate (length callers) (ReturnedPromise (Some p)) in
  ∃ w1,
    attach_all env (caller :: callers) w = (Normal rets, w1)
    ∧ provider_calls w1 = provider_calls w ++ [call_init kc]
    ∧ initializationState w1 = initializing
    ∧ keycloakInitPromise w1 = Some p
    ∧ promises w1 !! p = Some None
    ∧ ∀ (a : bool) (client : KeycloakInstance) (outcome : Outcome Profile),
        kc_authenticated client = a →
        ∃ w2,
          (init_settles env p kc (InitOk a client) ;;
           userProfile_settles env caller kc r outcome) w1 = (Normal tt, w2)
          ∧ init_calls w2 = S (init_calls w)
          ∧ Forall (λ ret, ∃ v, resolution w2 ret = Some (Resolved v)
                                ∧ authenticated_of w2 v = Some a) rets.
Proof.
  intros Hst Hp Halloc kc p r rets. subst kc p r rets.
  apply no_waiters_on_fresh in Halloc.
  destruct w. simpl in *. subst.
  unfold mbind at 1, Eff_bind at 1. rewrite initKeycloak_idle by done. simpl.
  unfold mbind at 1, Eff_bind at 1. rewrite attach_all_initializing by done. simpl.
  eexists. split; [reflexivity|]. simpl.
  split; [done|]. split; [done|]. split; [done|].
  split; [by rewrite lookup_at_end|].
  intros a client outcome Ha.
  match goal with
  | |- context [mbind _ _ ?X] =>
      destruct (init_settles_run env caller a client X tasks0 promises0 instances0)
        as (w' & Heq1 & Hi & Hn & Hpr); [done..|]
  end.
  destruct (userProfile_settles_run env caller (length instances0) (S (length promises0))
              outcome w') as (w2 & Heq2 & Hp2 & Hi2 & Hn2).
  { destruct Hpr as [-> | [_ Hin]]; [left | by right].
    change [Some (Resolved (VInitResult (length instances0) a));
            Some (Resolved (VInstance (length instances0)))]
      with ([Some (Resolved (VInitResult (length instances0) a))]
            ++ [Some (Resolved (VInstance (length instances0)))]).
    rewrite app_assoc. apply list_lookup_middle. rewrite length_app. simpl. lia. }
  unfold mbind, Eff_bind. rewrite Heq1, Heq2.
  exists w2. split; [done|].
  assert (Hpromises : promises w2
    = promises0 ++ [Some (Resolved (VInitResult (length instances0) a));
                    Some (Resolved (VInstance (length instances0)))]).
  { rewrite Hp2.
    assert (Hins : ∀ x, <[S (length promises0) := Some (Resolved (VInstance (length instances0)))]>
              (promises0 ++ [Some (Resolved (VInitResult (length instances0) a)); x])
            = promises0 ++ [Some (Resolved (VInitResult (length instances0) a));
                            Some (Resolved (VInstance (length instances0)))]).
    { intros x.
      replace (S (length promises0)) with (length promises0 + 1) by lia.
      by rewrite insert_app_r. }
    destruct Hpr as [-> | [-> _]]; apply Hins. }
  split.
  - rewrite Hn2, Hn. unfold init_calls. simpl.
    rewrite List.filter_app, length_app. simpl. lia.
  - assert (Hfirst : promises w2 !! length promises0
                     = Some (Some (Resolved (VInitResult (length instances0) a)))).
    { rewrite Hpromises. apply lookup_at_end. }
    assert (Hsecond : promises w2 !! S (length promises0)
                      = Some (Some (Resolved (VInstance (length instances0))))).
    { rewrite Hpromises.
      change [Some (Resolved (VInitResult (length instances0) a));
              Some (Resolved (VInstance (length instances0)))]
        with ([Some (Resolved (VInitResult (length instances0) a))]
              ++ [Some (Resolved (VInstance (length instances0)))]).
      rewrite app_assoc. apply list_lookup_middle. rewrite length_app. simpl. lia. }
    unfold resolution, authenticated_of, PromiseRef, InstRef in *.
    constructor.
    + exists (VInstance (length instances0)).
      unfold resolution, authenticated_of. rewrite Hsecond. split; [done|].
      rewrite Hi2, Hi, lookup_at_end. simpl. by rewrite Ha.
    + apply Forall_replicate. exists (VInitResult (length instances0) a).
      unfold resolution, authenticated_of. by rewrite Hfirst.
Qed.

(** * The properties on the demo deployment *)







(** C10 on two sessions with the same claims: one custom role against two
    others. *)
Lemma C10_witness :
  ∃ hook1' hook2',
    hooks (exec (loadRoleAttributes demo_env 0 0) (demo_proto_session ["editor"])) !! 0
    = Some hook1'
    ∧ hooks (exec (loadRoleAttributes demo_env 0 0)
               (demo_proto_session ["viewer"; "auditor"])) !! 0
      = Some hook2'
    ∧ permissions hook1' = permissions hook2'.
Proof.
  edestruct (C10_custom_roles_do_not_matter demo_env)
    with (w1 := demo_proto_session ["editor"]) (h1 := 0) (kcref1 := 0)
         (kc1 := demo_proto_client ["editor"])
         (w2 := demo_proto_session ["viewer"; "auditor"]) (h2 := 0) (kcref2 := 0)
         (kc2 := demo_proto_client ["viewer"; "auditor"])
    as (hook1' & hook2' & Hl1 & Hl2 & Hsame & _).
  - vm_compute; reflexivity.
  - reflexivity.
  - vm_compute; reflexivity.
  - reflexivity.
  - vm_compute; reflexivity.
  - reflexivity.
  - vm_compute; reflexivity.
  - reflexivity.
  - vm_compute; reflexivity.
  - vm_compute; reflexivity.
  - vm_compute; reflexivity.
  - vm_compute; reflexivity.
  - reflexivity.
  - exists hook1', hook2'. split; [exact Hl1|]. split; [exact Hl2|].
    apply Hsame; vm_compute; reflexivity.
Defined.

(** C8 on the demo session: hook 0 logs out. *)
Lemma C8_witness :
  shared_state_reset (exec (logout_start demo_env 0 ∅) (demo_session ["editor"]))
  ∧ ∀ outcome,
      shared_state_reset
        (exec (logout_settles 0 outcome)
           (exec (logout_start demo_env 0 ∅) (demo_session ["editor"]))).
Proof.
  edestruct (C8_logout_resets_regardless demo_env (demo_session ["editor"]) 0)
    with (kc := 0) (options := (∅ : gmap string string))
    as ((Hshared & _) & _ & _ & Hafter).
  - vm_compute; reflexivity.
  - reflexivity.
  - reflexivity.
  - split; [exact Hshared|]. intros outcome. apply (Hafter outcome).
Defined.

(** C3 on the demo session: the provider rejects the refresh of hook 0 and
    leaves the client as it is. *)
Lemma C3_witness :
  let w := demo_session ["editor"] in
  let w' := exec (updateToken_settles demo_env 0 0 (RefreshFailed "invalid_grant" None)) w in
  delivered w' = delivered w
  ∧ console w' = console w ++ ["Token update failed: invalid_grant"; "Re-login required"]
  ∧ ∀ hook', hooks w' !! 0 = Some hook' → getToken w' hook' = Some "access-1".
Proof.
  cbv zeta.
  edestruct (C3_refresh_failure_stays_local demo_env (demo_session ["editor"]) 0 0)
    with (err := "invalid_grant") (client := @None KeycloakInstance)
    as (Hsame & _ & _ & Hconsole & _ & _ & _ & _ & _ & _ & Hkept).
  - vm_compute; reflexivity.
  - vm_compute. apply list_elem_of_here.
  - split; [exact Hsame|]. split; [exact Hconsole|].
    destruct (Hkept eq_refl) as [_ Htoken].
    intros hook' Hl. rewrite (Htoken hook' Hl). vm_compute; reflexivity.
Defined.

(** C3 with a broadcast does not hold: hook 1 is subscribed, the scheduled refresh
    of hook 0 is rejected, and no [ERROR] event reaches hook 1, whose [error]
    stays empty. *)
Lemma C3_counterexample :
  let w := demo_session ["editor"] in
  let w' := exec (updateToken_settles demo_env 0 0 (RefreshFailed "invalid_grant" None)) w in
  1 ∈ stateSubscribers w
  ∧ bool_decide (AwaitUpdateToken 0 0 ∈ tasks w) = true
  ∧ ¬ (∃ ev, ev_type ev = "ERROR" ∧ (1, ev) ∈ delivered w')
  ∧ (error <$> hooks w' !! 1) = Some None
  ∧ (error <$> hooks w' !! 0)
    = Some (Some "Authentication session expired. Please login again.").
Proof.
  cbv zeta. split; [vm_compute; set_solver|]. split; [vm_compute; reflexivity|].
  split; [|split; vm_compute; reflexivity].
  intros (ev & Hty & Hin). vm_compute in Hin.
  repeat (apply elem_of_cons in Hin as [Heq | Hin]; [by simplify_eq|]).
  by apply elem_of_nil in Hin.
Qed.

(** What [getToken] answers after a rejected refresh follows the provider.
    If the provider cleared the token of the client when rejecting,
    [getToken] answers [null].  If it also ran the [onAuthLogout] handler
    the hook installed, the subscribers got [RESET], still no [ERROR], and
    the hook holds no client any more. *)
Example refresh_failure_follows_the_provider :
  let w := demo_session ["editor"] in
  let cleared :=
    {| kc_authenticated := false; kc_token := None; kc_refreshToken := None;
       kc_role_attributes := None; kc_realmAccess := None; kc_resourceAccess := ∅ |} in
  let w1 := exec (updateToken_settles demo_env 0 0
                    (RefreshFailed "invalid_grant" (Some cleared))) w in
  let w2 := exec (onAuthLogout ;;
                  updateToken_settles demo_env 0 0
                    (RefreshFailed "invalid_grant" (Some cleared))) w in
  (getToken w <$> hooks w !! 0) = Some (Some "access-1")
  ∧ (getToken w1 <$> hooks w1 !! 0) = Some None
  ∧ (getToken w2 <$> hooks w2 !! 0) = Some None
  ∧ (keycloak <$> hooks w2 !! 0) = Some None
  ∧ delivered w1 = delivered w
  ∧ delivered w2 = delivered w ++ [(0, RESET); (1, RESET)].
Proof. vm_compute. done. Qed.

(** Three consumers attach on a fresh page: the provider's [init] runs once,
    and only the first consumer has called [initKeycloak]. *)
Example three_consumers_attach :
  let w := exec (mount demo_env 0 ;; mount demo_env 1 ;; mount demo_env 2) page_load in
  init_calls w = 1
  ∧ tasks w = [AwaitProviderInit 0 0; AwaitInitPromise 0 0 1]
  ∧ stateSubscribers w = [0; 1; 2].
Proof. vm_compute. done. Qed.

(** The first consumer broadcasts [LOADING] and nobody applies it: while the
    phase is [initializing] its own [loading] is still [false]. *)
Example first_consumer_is_not_loading :
  let w := exec (mount demo_env 0) page_load in
  initializationState w = initializing
  ∧ delivered w = [(0, LOADING)]
  ∧ (loading <$> hooks w !! 0) = Some false.
Proof. vm_compute. done. Qed.

(** C1 after a logout: hook 1 calls [initKeycloak], then hook 0, then hook 1
    again; the provider has been asked to initialise twice in all, once in
    the first session and once now. *)
Lemma C1_witness :
  ∃ w1, attach_all demo_env [1; 0; 1] demo_logged_out
        = (Normal [Parked 3; ReturnedPromise (Some 2); ReturnedPromise (Some 2)], w1)
    ∧ init_calls w1 = 2.
Proof.
  edestruct (C1_at_most_one_initialization demo_env demo_logged_out 1 [0; 1])
    as (w1 & Hrun & Hcalls & _).
  - vm_compute; reflexivity.
  - vm_compute; reflexivity.
  - vm_compute; reflexivity.
  - exists w1. split; [exact Hrun|].
    unfold init_calls. rewrite Hcalls. vm_compute; reflexivity.
Defined.

(** * Further properties of the hook *)

(** ** Initialisation that fails *)

Lemma forEach_reject (F : HookId * PromiseRef → JS unit) (err : Exn)
    (ws : list (HookId * PromiseRef)) (w : World) :
  (∀ h r w, F (h, r) w = settle r (Rejected err) w) →
  forEach F ws w = (Normal tt, set_promises (reject_all err ws (promises w)) w).
Proof.
  intros HF. revert w. induction ws as [|[h r] ws IH]; intros w; simpl.
  - by destruct w.
  - unfold mbind at 1, Eff_bind at 1. rewrite HF.
    unfold settle, modify. rewrite IH. by destruct w.
Qed.

Lemma reject_all_length err ws ps : length (reject_all err ws ps) = length ps.
Proof.
  revert ps. induction ws as [|[h r] ws IH]; intros ps; simpl; [done|].
  by rewrite IH, length_insert.
Qed.

Lemma reject_all_lookup err ws ps (q : nat) :
  q < length ps →
  reject_all err ws ps !! q
  = if bool_decide (q ∈ ws.*2) then Some (Some (Rejected err)) else ps !! q.
Proof.
  revert ps. induction ws as [|[h r] ws IH]; intros ps Hq; simpl; [done|].
  rewrite IH by (by rewrite length_insert).
  destruct (bool_decide (q ∈ ws.*2)) eqn:Hin.
  - apply bool_decide_eq_true_1 in Hin. rewrite bool_decide_eq_true_2; [done|by right].
  - apply bool_decide_eq_false_1 in Hin. destruct (decide (q = r)) as [->|Hne].
    + rewrite bool_decide_eq_true_2 by (by left). by apply list_lookup_insert_eq.
    + rewrite bool_decide_eq_false_2 by (intros [?|?]%elem_of_cons; done).
      by apply list_lookup_insert_ne.
Qed.

Ltac destruct_world w :=
  destruct w as [ksingle kpromise phase gerror subs hs clients proms tms ntimer tks
                 pcalls cons dlv].

Lemma init_failure_run env p kc (err : Exn) (w : World) :
  bool_decide (AwaitProviderInit p kc ∈ tasks w) = true →
  p < length (promises w) →
  let msg := or_default (Some err) "Keycloak initialization failed" in
  let ws := waiters p (remove_first (AwaitProviderInit p kc) (tasks w)) in
  init_settles env p kc (InitFailed err) w
  = (Normal tt,
     w |> set_initializationState failed
       |> set_globalError (Some err)
       |> set_hooks (notified (ERROR msg) (stateSubscribers w) (hooks w))
       |> set_console (console w ++ ["Keycloak initialization failed: " +:+ err])
       |> set_delivered (delivered w ++ map (λ s, (s, ERROR msg)) (stateSubscribers w))
       |> set_tasks (List.filter (λ t, negb (is_waiter p t))
                       (remove_first (AwaitProviderInit p kc) (tasks w)))
       |> set_promises (reject_all err ws (<[p := Some (Rejected err)]> (promises w)))).
Proof.
  intros Hparked Hp. destruct_world w. simpl in *.
  unfold init_settles, init_iife_resume, unpark, run_async.
  js_unfold. js_eval.
  unfold PromiseRef in *. rewrite list_lookup_insert_eq by done. simpl.
  by rewrite (forEach_reject _ err).
Qed.

Lemma elem_of_waiters p h r (l : list Task) :
  (h, r) ∈ waiters p l ↔ AwaitInitPromise h p r ∈ l.
Proof.
  induction l as [|t l IH]; simpl.
  - split; intros H; by apply elem_of_nil in H.
  - destruct t as [q kc|h' p' r'|h' kc r'|h' kc|h'];
      try (rewrite IH, elem_of_cons; split; [by right | by intros [?|?]]).
    case_bool_decide as Hp.
    + subst p'. rewrite !elem_of_cons, IH. split.
      * intros [[= -> ->]|?]; [by left | by right].
      * intros [[= -> ->]|?]; [by left | by right].
    + rewrite IH, elem_of_cons. split; [by right|]. intros [[= ? ? ?]|?]; [done|done].
Qed.

(** X1: When the provider rejects [init] (lines 390-402): the phase is
    [failed], the error is kept in [globalError], an [ERROR] event with the
    message of the error, or with the default message when that is empty,
    goes to every subscriber, so every mounted subscriber shows it and stops
    loading; the init promise and the promise of every call waiting on it are
    rejected with that same error; no client becomes the singleton and the
    provider is not called again. *)
Theorem init_failure_reaches_everyone env p kc (err : Exn) (w : World) :
  AwaitProviderInit p kc ∈ tasks w →
  p < length (promises w) →
  let msg := or_default (Some err) "Keycloak initialization failed" in
  let w' := exec (init_settles env p kc (InitFailed err)) w in
  initializationState w' = failed
  ∧ globalError w' = Some err
  ∧ keycloakSingleton w' = keycloakSingleton w
  ∧ provider_calls w' = provider_calls w
  ∧ delivered w' = delivered w ++ map (λ s, (s, ERROR msg)) (stateSubscribers w)
  ∧ (∀ h hook, hooks w !! h = Some hook → isMountedRef hook = true →
               h ∈ stateSubscribers w →
       ∃ hook', hooks w' !! h = Some hook' ∧ error hook' = Some msg
                ∧ loading hook' = false ∧ authenticated hook' = authenticated hook)
  ∧ promises w' !! p = Some (Some (Rejected err))
  ∧ (∀ h r, AwaitInitPromise h p r ∈ tasks w → r < length (promises w) →
            promises w' !! r = Some (Some (Rejected err))
            ∧ AwaitInitPromise h p r ∉ tasks w').
Proof.
  intros Hparked Hp msg w'. subst msg w'. unfold exec.
  apply (bool_decide_eq_true_2 _) in Hparked.
  rewrite init_failure_run by done. destruct_world w. simpl in *.
  do 5 (split; [reflexivity|]). split; [|split].
  - intros h hook Hh Hm Hin. rewrite notified_lookup, Hh, decide_True by done. simpl.
    eexists. split; [reflexivity|]. unfold handleStateChange. rewrite Hm. simpl. done.
  - unfold PromiseRef in *.
    rewrite reject_all_lookup by (by rewrite length_insert).
    destruct (bool_decide (p ∈ _)); [reflexivity|]. by apply list_lookup_insert_eq.
  - intros h r Hin Hr. split.
    + unfold PromiseRef in *.
      rewrite reject_all_lookup by (by rewrite length_insert).
      rewrite bool_decide_eq_true_2; [done|].
      apply list_elem_of_fmap. exists (h, r). split; [done|].
      rewrite waiters_remove_first by done. by apply elem_of_waiters.
    + intros Hin'. apply list_elem_of_In, List.filter_In in Hin' as [_ Hw].
      simpl in Hw. by rewrite bool_decide_eq_true_2 in Hw.
Qed.

(** X2: A call of [initKeycloak] after a failed initialisation (lines 332-335)
    first resets: [RESET] goes to every subscriber, which clears the error
    the failure left on every mounted subscriber.  Then it starts over with a
    new client and a new promise, and calls the provider's [init] once. *)
Theorem retry_after_failure env (h : HookId) (w : World) :
  initializationState w = failed →
  let kc := length (instances w) in
  let p := length (promises w) in
  ∃ w',
    initKeycloak env h w = (Normal (Parked (S p)), w')
    ∧ initializationState w' = initializing
    ∧ globalError w' = None
    ∧ keycloakSingleton w' = None
    ∧ keycloakInitPromise w' = Some p
    ∧ promises w' = promises w ++ [None; None]
    ∧ instances w' = instances w ++ [blank_client]
    ∧ provider_calls w' = provider_calls w ++ [call_init kc]
    ∧ tasks w' = tasks w ++ [AwaitProviderInit p kc; AwaitInitPromise h p (S p)]
    ∧ delivered w'
      = delivered w ++ map (λ s, (s, RESET)) (stateSubscribers w)
                    ++ map (λ s, (s, LOADING)) (stateSubscribers w)
    ∧ (∀ h' hook, hooks w !! h' = Some hook →
         hooks w' !! h'
         = Some (if bool_decide (h' ∈ stateSubscribers w)
                 then handleStateChange RESET hook else hook)).
Proof.
  intros Hst kc p. subst kc p. destruct_world w. simpl in *. subst.
  unfold initKeycloak, init_iife_start, new_Keycloak, new_promise, run_async,
    resetGlobalState.
  js_unfold. js_eval. rewrite notified_LOADING.
  rewrite length_app, Nat.add_1_r. simpl.
  rewrite <- !app_assoc. simpl. rewrite lookup_at_end. simpl.
  eexists. split; [reflexivity|]. simpl.
  do 9 (split; [by rewrite <- ?app_assoc|]).
  intros h' hook Hh. rewrite notified_lookup, Hh. simpl.
  by destruct (decide _); [rewrite bool_decide_eq_true_2|rewrite bool_decide_eq_false_2].
Qed.

(** ** Attaching and detaching *)

(** X3: A consumer that attaches when the session is initialised (lines 60-68
    and 580-587) adopts the singleton at once: client, [authenticated] and
    the token pair (an empty token as [null]), not loading.  Nothing is
    broadcast and the provider is not called.  Its permissions and user info
    are not loaded, so [hasModulePermission] grants it a module only through
    the super role. *)
Theorem late_consumer_adopts_singleton env (h : HookId) (w : World) (kc : InstRef)
    (client : KeycloakInstance) :
  initializationState w = initialized → keycloakSingleton w = Some kc →
  instances w !! kc = Some client →
  let w' := exec (mount env h) w in
  let hook' :=
    {| keycloak := Some kc; authenticated := kc_authenticated client;
       loading := false; error := globalError w; userInfo := None;
       token := or_null (kc_token client);
       refreshToken := or_null (kc_refreshToken client);
       roleAttributes := ∅; permissions := ∅; updateTokenTimeoutRef := None;
       isMountedRef := true |} in
  fst (mount env h w) = Normal None
  ∧ hooks w' !! h = Some hook'
  ∧ (∀ h', h' ≠ h → hooks w' !! h' = hooks w !! h')
  ∧ stateSubscribers w'
    = (if bool_decide (h ∈ stateSubscribers w) then stateSubscribers w
       else stateSubscribers w ++ [h])
  ∧ provider_calls w' = provider_calls w
  ∧ delivered w' = delivered w
  ∧ tasks w' = tasks w
  ∧ instances w' = instances w
  ∧ ∀ moduleName,
      hasModulePermission env w' hook' moduleName
      = kc_authenticated client && negb (bool_decide (moduleName = ""))
        && hasSuperRole env (Some client).
Proof.
  intros Hst Hk Hkc w' hook'. subst w' hook'. destruct_world w. simpl in *. subst.
  unfold mount, subscribe, useKeycloak_initial.
  js_unfold. simpl. rewrite Hkc. simpl.
  destruct (bool_decide (h ∈ subs)) eqn:Hsub; js_eval.
  all: split; [reflexivity|].
  all: split; [by rewrite ?lookup_alter_eq, lookup_insert_eq|].
  all: split; [by intros h' Hne; rewrite !lookup_alter_ne, lookup_insert_ne by done|].
  all: do 5 (split; [reflexivity|]).
  all: intros moduleName; unfold hasModulePermission; simpl; rewrite Hkc.
  all: destruct (kc_authenticated client); simpl; [|done].
  all: destruct (bool_decide (moduleName = "")); simpl; [done|].
  all: by destruct (hasSuperRole env (Some client)).
Qed.

(** X4: Detaching a consumer (the clean-ups of lines 109-112 and 589-596): its
    subscriber is removed and the order of the others is kept, its mounted
    flag is off, the timer it had is cancelled; the session data it held and
    every other hook and timer are left as they were. *)
Theorem detach_unsubscribes_and_cancels (h : HookId) (w : World) (hook : Hook) :
  hooks w !! h = Some hook →
  let w' := exec (unmount h) w in
  stateSubscribers w'
  = List.filter (λ x, negb (bool_decide (x = h))) (stateSubscribers w)
  ∧ (h ∉ stateSubscribers w')
  ∧ hooks w' !! h
    = Some (set_updateTokenTimeoutRef None (set_isMountedRef false hook))
  ∧ (∀ h', h' ≠ h → hooks w' !! h' = hooks w !! h')
  ∧ (∀ t, updateTokenTimeoutRef hook = Some t → timers w' !! t = None)
  ∧ (∀ t, updateTokenTimeoutRef hook ≠ Some t → timers w' !! t = timers w !! t)
  ∧ provider_calls w' = provider_calls w
  ∧ delivered w' = delivered w.
Proof.
  intros Hh w'. subst w'. destruct_world w. simpl in *.
  unfold unmount, unsubscribe, clear_refresh_timer.
  js_unfold. simpl. rewrite !lookup_alter_eq, Hh. simpl.
  split; [|split].
  - by destruct (updateTokenTimeoutRef hook).
  - destruct (updateTokenTimeoutRef hook); simpl;
      intros [_ Hne]%list_elem_of_In%List.filter_In;
      by rewrite bool_decide_eq_true_2 in Hne.
  - destruct (updateTokenTimeoutRef hook) as [t|] eqn:Ht; simpl.
    + rewrite !lookup_alter_eq, Hh. simpl.
      split; [by destruct hook; simpl in *; subst|].
      split; [by intros h' Hne; rewrite !lookup_alter_ne by done|].
      split; [by intros t' [= <-]; apply lookup_delete_eq|].
      split; [|done]. intros t' Hne. apply lookup_delete_ne. congruence.
    + rewrite !lookup_alter_eq, Hh. simpl.
      split; [by destruct hook; simpl in *; subst|].
      split; [by intros h' Hne; rewrite !lookup_alter_ne by done|].
      done.
Qed.

(** X5: A detached hook is inert: no broadcast changes it, and its scheduler is
    dead.  Whatever the provider answers to a refresh that was under way,
    no hook changes and nothing is broadcast or armed; a timer of the hook that still
    fires calls the provider no more; [loadRoleAttributes] does nothing. *)
Theorem detached_hook_is_inert env (h : HookId) (w : World) (hook : Hook) :
  hooks w !! h = Some hook → isMountedRef hook = false →
  (∀ ev, hooks (exec (notifyStateChange ev) w) !! h = Some hook)
  ∧ (∀ kc answer,
       let w' := exec (updateToken_settles env h kc answer) w in
       hooks w' = hooks w ∧ timers w' = timers w ∧ delivered w' = delivered w
       ∧ provider_calls w' = provider_calls w)
  ∧ (∀ t kc d, timers w !! t = Some (h, kc, d) →
       let w' := exec (timer_fires t) w in
       hooks w' = hooks w ∧ provider_calls w' = provider_calls w
       ∧ tasks w' = tasks w ∧ timers w' = delete t (timers w))
  ∧ (∀ kc, loadRoleAttributes env h kc w = (Normal ∅, w)).
Proof.
  intros Hh Hm. split; [|split; [|split]].
  - intros ev. unfold exec. rewrite notifyStateChange_hooks. destruct_world w. simpl in *.
    rewrite notified_lookup, Hh. simpl.
    destruct (decide _); simpl; [|done]. unfold handleStateChange. by rewrite Hm.
  - intros kc answer. destruct_world w. simpl in *.
    unfold updateToken_settles, updateToken_resume, unpark, provider_leaves,
      provider_writes, isMounted.
    js_unfold. simpl.
    destruct (bool_decide _); simpl; [|done].
    destruct answer as [c| |err [c|]]; simpl; rewrite ?Hh; simpl; rewrite ?Hm; simpl; rewrite ?andb_false_r;
      simpl; rewrite ?Hh; simpl; rewrite ?Hm; done.
  - intros t kc d Ht. destruct_world w. simpl in *.
    unfold timer_fires, updateToken_start, isMounted.
    js_unfold. simpl. rewrite Ht. simpl. rewrite Hh. simpl. by rewrite Hm.
  - intros kc. apply loadRoleAttributes_skips. right. by rewrite Hh.
Qed.

Lemma loadRoleAttributes_run env h kcref (w : World) kc :
  instances w !! kcref = Some kc → kc_authenticated kc = true →
  from_option isMountedRef false (hooks w !! h) = true →
  loadRoleAttributes env h kcref w
  = (Normal (resolved_roleAttributes env kc),
     set_hooks (alter (setPermissions (resolved_permissions env kc)) h
                  (alter (setRoleAttributes (resolved_roleAttributes env kc)) h (hooks w))) w).
Proof.
  intros Hkc Hauth Hm. destruct (hooks w !! h) as [hook|] eqn:Hh; [|done].
  by apply (loadRoleAttributes_mounted env h kcref w kc hook).
Qed.

(** The turn of a scheduled refresh that obtained new tokens. *)
Lemma updateToken_settles_refreshed env (w : World) (h : HookId) (kc : InstRef)
    (hook : Hook) (client : KeycloakInstance) :
  hooks w !! h = Some hook → isMountedRef hook = true →
  AwaitUpdateToken h kc ∈ tasks w → kc < length (instances w) →
  let w' := exec (updateToken_settles env h kc (Refreshed client)) w in
  let ev := TOKEN_UPDATED (kc_token client) (kc_refreshToken client) in
  delivered w' = delivered w ++ map (λ s, (s, ev)) (stateSubscribers w)
  ∧ (∀ h', h' ≠ h →
       hooks w' !! h'
       = (if decide (h' ∈ stateSubscribers w) then handleStateChange ev else id)
           <$> hooks w !! h')
  ∧ (∃ hook', hooks w' !! h = Some hook'
       ∧ token hook' = kc_token client ∧ refreshToken hook' = kc_refreshToken client
       ∧ updateTokenTimeoutRef hook' = Some (nextTimer w)
       ∧ permissions hook'
         = (if kc_authenticated client then resolved_permissions env client
            else permissions hook)
       ∧ roleAttributes hook'
         = (if kc_authenticated client then resolved_roleAttributes env client
            else roleAttributes hook)
       ∧ authenticated hook' = authenticated hook ∧ error hook' = error hook
       ∧ userInfo hook' = userInfo hook ∧ keycloak hook' = keycloak hook)
  ∧ timers w' = <[nextTimer w := (h, kc, 300000%Z)]> (timers w)
  ∧ instances w' = <[kc := client]> (instances w)
  ∧ provider_calls w' = provider_calls w
  ∧ tasks w' = remove_first (AwaitUpdateToken h kc) (tasks w)
  ∧ keycloakSingleton w' = keycloakSingleton w
  ∧ initializationState w' = initializationState w
  ∧ keycloakInitPromise w' = keycloakInitPromise w
  ∧ globalError w' = globalError w.
Proof.
  intros Hh Hm Hparked Hkc. destruct_world w. simpl in *.
  apply (bool_decide_eq_true_2 _) in Hparked.
  assert (Hclient : <[kc := client]> clients !! kc = Some client)
    by (by apply list_lookup_insert_eq).
  unfold updateToken_settles, updateToken_resume, unpark, provider_writes, isMounted,
    setTimeout.
  js_unfold. js_eval.
  destruct (kc_authenticated client) eqn:Hauth.
  - rewrite (loadRoleAttributes_run env h kc _ client);
      [|exact Hclient|exact Hauth|simpl; by rewrite mounted_notified, !lookup_alter_eq, Hh].
    js_eval. rewrite !notified_lookup, !lookup_alter_eq, Hh. simpl.
    destruct (decide (h ∈ subs)); simpl; rewrite ?handleStateChange_mounted; simpl;
      rewrite Hm; simpl.
    all: split; [done|]; split;
      [intros h' Hne; by rewrite !lookup_alter_ne, notified_lookup, !lookup_alter_ne by done|].
    all: split; [|done].
    all: rewrite !lookup_alter_eq, notified_lookup, !lookup_alter_eq, Hh; simpl.
    all: rewrite ?decide_True, ?decide_False by done; simpl.
    all: (eexists; split; [reflexivity|]); unfold handleStateChange; simpl; rewrite ?Hm; done.
  - rewrite loadRoleAttributes_skips by (left; simpl; rewrite Hclient; simpl; exact Hauth).
    js_eval. rewrite ?notified_lookup, ?lookup_alter_eq, ?Hh. simpl.
    destruct (decide (h ∈ subs)); simpl; rewrite ?handleStateChange_mounted; simpl;
      rewrite ?Hm; simpl.
    all: split; [done|]; split;
      [intros h' Hne; by rewrite !lookup_alter_ne, notified_lookup, !lookup_alter_ne by done|].
    all: split; [|done].
    all: rewrite ?lookup_alter_eq, ?notified_lookup, ?lookup_alter_eq, ?Hh; simpl.
    all: rewrite ?decide_True, ?decide_False by done; simpl.
    all: (eexists; split; [reflexivity|]); unfold handleStateChange; simpl; rewrite ?Hm; done.
Qed.

(** X6: A scheduled refresh that obtained new tokens (lines 279-301): the
    owner's hook takes the tokens of the client, [TOKEN_UPDATED] with these
    tokens is delivered to every subscriber so that every mounted subscribed
    hook holds them, the owner's permissions are derived again from the
    refreshed client, and exactly one timer is armed, five minutes ahead,
    for the same client.  The provider is not called in this turn and the
    module variables are not touched. *)
Theorem scheduled_refresh_propagates env (w : World) (h : HookId) (kc : InstRef)
    (hook : Hook) (client : KeycloakInstance) :
  hooks w !! h = Some hook → isMountedRef hook = true →
  AwaitUpdateToken h kc ∈ tasks w → kc < length (instances w) →
  let w' := exec (updateToken_settles env h kc (Refreshed client)) w in
  let ev := TOKEN_UPDATED (kc_token client) (kc_refreshToken client) in
  delivered w' = delivered w ++ map (λ s, (s, ev)) (stateSubscribers w)
  ∧ (∀ h', h' ≠ h →
       hooks w' !! h'
       = (if decide (h' ∈ stateSubscribers w) then handleStateChange ev else id)
           <$> hooks w !! h')
  ∧ (∃ hook', hooks w' !! h = Some hook'
       ∧ token hook' = kc_token client ∧ refreshToken hook' = kc_refreshToken client
       ∧ updateTokenTimeoutRef hook' = Some (nextTimer w)
       ∧ permissions hook'
         = (if kc_authenticated client then resolved_permissions env client
            else permissions hook)
       ∧ roleAttributes hook'
         = (if kc_authenticated client then resolved_roleAttributes env client
            else roleAttributes hook)
       ∧ authenticated hook' = authenticated hook ∧ error hook' = error hook
       ∧ userInfo hook' = userInfo hook ∧ keycloak hook' = keycloak hook)
  ∧ timers w' = <[nextTimer w := (h, kc, 300000%Z)]> (timers w)
  ∧ instances w' = <[kc := client]> (instances w)
  ∧ provider_calls w' = provider_calls w
  ∧ tasks w' = remove_first (AwaitUpdateToken h kc) (tasks w)
  ∧ keycloakSingleton w' = keycloakSingleton w
  ∧ initializationState w' = initializationState w
  ∧ keycloakInitPromise w' = keycloakInitPromise w
  ∧ globalError w' = globalError w.
Proof. apply updateToken_settles_refreshed. Qed.

(** [loadRoleAttributes] never throws and writes nothing but the two
    permission fields of its own hook. *)
Lemma loadRoleAttributes_frame env h kcref (w : World) :
  ∃ v R P (b : bool),
    loadRoleAttributes env h kcref w
    = (Normal v,
       set_hooks (if b then alter (setPermissions P) h (alter (setRoleAttributes R) h (hooks w))
                  else hooks w) w).
Proof.
  destruct (from_option kc_authenticated false (instances w !! kcref)) eqn:Hauth.
  - destruct (from_option isMountedRef false (hooks w !! h)) eqn:Hm.
    + destruct (instances w !! kcref) as [kc|] eqn:Hkc; [|done].
      eexists _, _, _, true. by apply loadRoleAttributes_run.
    + exists ∅, ∅, ∅, false. rewrite loadRoleAttributes_skips by auto. by destruct w.
  - exists ∅, ∅, ∅, false. rewrite loadRoleAttributes_skips by auto. by destruct w.
Qed.

Ltac lra_frame :=
  match goal with
  | |- context [loadRoleAttributes ?e ?h ?k ?w] =>
      let v := fresh "v" in let R := fresh "R" in let P := fresh "P" in
      let b := fresh "b" in let Heq := fresh "Heq" in
      destruct (loadRoleAttributes_frame e h k w) as (v & R & P & b & Heq);
      rewrite Heq; clear Heq; destruct b
  end.

(** X7: The refresh cycle (lines 274-305): when the provider answers a scheduled
    refresh without an error, whether or not the token was renewed, the timer
    armed for the mounted owner is the only new one; when it fires, the
    closure asks the provider for [updateToken(30)] on the same client and
    waits again.  An answer that renewed nothing broadcasts nothing and
    changes no hook but for the owner's timer ref. *)
Theorem refresh_cycle env (w : World) (h : HookId) (kc : InstRef) (hook : Hook)
    (answer : RefreshAnswer) :
  hooks w !! h = Some hook → isMountedRef hook = true →
  AwaitUpdateToken h kc ∈ tasks w → (∀ err client, answer ≠ RefreshFailed err client) →
  let w1 := exec (updateToken_settles env h kc answer) w in
  let t := nextTimer w in
  timers w1 = <[t := (h, kc, 300000%Z)]> (timers w)
  ∧ provider_calls w1 = provider_calls w
  ∧ tasks w1 = remove_first (AwaitUpdateToken h kc) (tasks w)
  ∧ (answer = StillValid →
       delivered w1 = delivered w ∧ instances w1 = instances w
       ∧ hooks w1 = <[h := set_updateTokenTimeoutRef (Some t) hook]> (hooks w))
  ∧ let w2 := exec (timer_fires t) w1 in
    provider_calls w2 = provider_calls w ++ [call_updateToken kc 30]
    ∧ tasks w2 = remove_first (AwaitUpdateToken h kc) (tasks w) ++ [AwaitUpdateToken h kc]
    ∧ timers w2 = delete t (timers w)
    ∧ hooks w2 = hooks w1 ∧ delivered w2 = delivered w1.
Proof.
  intros Hh Hm Hparked Hok. destruct_world w. simpl in *.
  apply (bool_decide_eq_true_2 _) in Hparked.
  unfold updateToken_settles, updateToken_resume, timer_fires, updateToken_start, unpark,
    provider_writes, isMounted, setTimeout.
  js_unfold. js_eval.
  destruct answer as [client| |err client]; [| |by destruct (Hok err client)]; js_eval.
  - lra_frame; js_eval.
    all: rewrite ?lookup_alter_eq, ?notified_lookup, ?lookup_alter_eq, ?Hh; simpl.
    all: destruct (decide (h ∈ subs)); simpl; rewrite ?handleStateChange_mounted; simpl;
      rewrite ?Hm; simpl.
    all: rewrite ?lookup_insert_eq; simpl.
    all: rewrite ?lookup_alter_eq, ?notified_lookup, ?lookup_alter_eq, ?Hh; simpl.
    all: rewrite ?decide_True, ?decide_False by done; simpl;
      rewrite ?handleStateChange_mounted; simpl; rewrite ?Hm; simpl.
    all: rewrite ?delete_insert_eq; done.
  - rewrite ?lookup_insert_eq. js_eval. rewrite ?Hm. simpl.
    rewrite ?lookup_insert_eq. js_eval. rewrite ?Hm. simpl.
    rewrite delete_insert_eq.
    repeat split; try done.
    apply map_eq. intros h'. destruct (decide (h' = h)) as [->|Hne].
    + by rewrite lookup_alter_eq, lookup_insert_eq, Hh.
    + by rewrite lookup_alter_ne, lookup_insert_ne.
Qed.


(** * Invariants of the reachable worlds *)

(** ** Keeping a property through a piece of code *)

Section Preserves.

Context (I : World → Prop).

Lemma preserves_ret {A} (a : A) : preserves I (mret a : JS A).
Proof. intros w Hw. exact Hw. Qed.

Lemma preserves_bind {A B} (m : JS A) (k : A → JS B) :
  preserves I m → (∀ a, preserves I (k a)) → preserves I (m ≫= k).
Proof.
  intros Hm Hk w Hw. specialize (Hm w Hw). unfold exec, mbind, Eff_bind in *.
  destruct (m w) as [[a|e] w']; simpl in *; [by apply Hk | done].
Qed.

Lemma preserves_gets {A} (f : World → A) : preserves I (gets f).
Proof. intros w Hw. exact Hw. Qed.

Lemma preserves_throw {A} (e : Exn) : preserves I (throw e : JS A).
Proof. intros w Hw. exact Hw. Qed.

Lemma preserves_await {A} (o : Outcome A) : preserves I (await o : JS A).
Proof. intros w Hw. by destruct o. Qed.

Lemma preserves_try_catch {A} (m : JS A) (handler : Exn → JS A) :
  preserves I m → (∀ e, preserves I (handler e)) → preserves I (try_catch m handler).
Proof.
  intros Hm Hk w Hw. specialize (Hm w Hw). unfold exec, try_catch in *.
  destruct (m w) as [[a|e] w']; simpl in *; [done | by apply Hk].
Qed.

Lemma preserves_when (b : bool) (m : JS unit) : preserves I m → preserves I (when b m).
Proof. intros Hm. destruct b; [done | apply preserves_ret]. Qed.

Lemma preserves_forEach {A} (f : A → JS unit) (l : list A) :
  (∀ x, x ∈ l → preserves I (f x)) → preserves I (forEach f l).
Proof.
  induction l as [|x l IH]; intros Hf; simpl; [apply preserves_ret|].
  apply preserves_bind; [apply Hf; by left|]. intros _. apply IH.
  intros y Hy. apply Hf. by right.
Qed.

Lemma preserves_modify (f : World → World) :
  (∀ w, I w → I (f w)) → preserves I (modify f).
Proof. intros Hf w Hw. by apply Hf. Qed.

Lemma preserves_run_async (r : PromiseRef) (body : JS (option Value)) :
  preserves I body → (∀ o, preserves I (settle r o)) → preserves I (run_async r body).
Proof.
  intros Hm Hs w Hw. specialize (Hm w Hw). unfold exec, run_async in *.
  destruct (body w) as [[[v|]|e] w']; simpl in *; [by apply Hs | done | by apply Hs].
Qed.

End Preserves.

(** One step through the structure of a piece of code. *)
Ltac preserve_step :=
  lazymatch goal with
  | |- preserves _ (mret _) => apply preserves_ret
  | |- preserves _ (_ ≫= _) => apply preserves_bind; [|intros ?]
  | |- preserves _ (gets _) => apply preserves_gets
  | |- preserves _ (rd _ _ _) => apply preserves_gets
  | |- preserves _ (deref _) => apply preserves_gets
  | |- preserves _ (isMounted _) => apply preserves_gets
  | |- preserves _ (throw _) => apply preserves_throw
  | |- preserves _ (await _) => apply preserves_await
  | |- preserves _ (try_catch _ _) => apply preserves_try_catch; [|intros ?]
  | |- preserves _ (when _ _) => apply preserves_when
  | |- preserves _ (run_async _ _) => apply preserves_run_async; [|intros ?]
  | |- preserves _ (forEach _ _) => apply preserves_forEach; intros [? ?] ?; cbn beta iota
  | |- preserves _ (if ?b then _ else _) => destruct b
  | |- preserves _ (match ?x with _ => _ end) => destruct x
  end.

(** ** The phase and the module variables *)

Lemma phase_coherent_frame (w w' : World) :
  keycloakSingleton w' = keycloakSingleton w →
  keycloakInitPromise w' = keycloakInitPromise w →
  initializationState w' = initializationState w →
  globalError w' = globalError w →
  phase_coherent w → phase_coherent w'.
Proof. unfold phase_coherent. by intros -> -> -> ->. Qed.

(** A primitive that keeps what a property reads. *)
Ltac frame_prim frame_lemma :=
  let w := fresh "w" in let Hw := fresh "Hw" in
  intros w Hw;
  unfold exec, upd, console_error, provider_call, park, unpark, new_promise, settle,
    new_Keycloak, setTimeout, clearTimeout, provider_writes, subscribe, unsubscribe,
    modify, gets;
  rewrite ?notifyStateChange_hooks; simpl;
  repeat (case_bool_decide; simpl);
  (eapply frame_lemma; [..|exact Hw]); reflexivity.

Ltac preserve_with known prim :=
  repeat first [solve [known] | preserve_step | solve [prim]].

Create HintDb coherent discriminated.
#[export] Hint Constants Opaque : coherent.

Ltac coherent :=
  preserve_with ltac:(eauto with coherent) ltac:(frame_prim phase_coherent_frame).

Lemma coherent_resetGlobalState : preserves phase_coherent resetGlobalState.
Proof.
  intros w _. unfold exec, resetGlobalState. js_unfold. simpl.
  rewrite notifyStateChange_hooks. by simpl.
Qed.
#[export] Hint Resolve coherent_resetGlobalState : coherent.

Lemma coherent_notifyStateChange ev : preserves phase_coherent (notifyStateChange ev).
Proof. coherent. Qed.
#[export] Hint Resolve coherent_notifyStateChange : coherent.

Lemma coherent_loadRoleAttributes env h kc :
  preserves phase_coherent (loadRoleAttributes env h kc).
Proof. unfold loadRoleAttributes. coherent. Qed.
#[export] Hint Resolve coherent_loadRoleAttributes : coherent.

Lemma coherent_loadUserInfo_start h kc :
  preserves phase_coherent (loadUserInfo_start h kc).
Proof. unfold loadUserInfo_start. coherent. Qed.

Lemma coherent_loadUserInfo_resume env h kc outcome :
  preserves phase_coherent (loadUserInfo_resume env h kc outcome).
Proof. unfold loadUserInfo_resume. coherent. Qed.
#[export] Hint Resolve coherent_loadUserInfo_start coherent_loadUserInfo_resume : coherent.

Lemma coherent_clear_refresh_timer h : preserves phase_coherent (clear_refresh_timer h).
Proof. unfold clear_refresh_timer. coherent. Qed.
#[export] Hint Resolve coherent_clear_refresh_timer : coherent.

Lemma coherent_updateToken_start h kc : preserves phase_coherent (updateToken_start h kc).
Proof. unfold updateToken_start. coherent. Qed.

Lemma coherent_updateToken_resume env h kc outcome :
  preserves phase_coherent (updateToken_resume env h kc outcome).
Proof. unfold updateToken_resume. coherent. Qed.
#[export] Hint Resolve coherent_updateToken_start coherent_updateToken_resume : coherent.

Lemma coherent_setupTokenRefresh h kc : preserves phase_coherent (setupTokenRefresh h kc).
Proof. unfold setupTokenRefresh. coherent. Qed.
#[export] Hint Resolve coherent_setupTokenRefresh : coherent.

Lemma coherent_initKeycloak_tail h kc : preserves phase_coherent (initKeycloak_tail h kc).
Proof. unfold initKeycloak_tail. coherent. Qed.
#[export] Hint Resolve coherent_initKeycloak_tail : coherent.

Lemma coherent_initKeycloak_resume env h r o :
  preserves phase_coherent (initKeycloak_resume env h r o).
Proof. unfold initKeycloak_resume. coherent. Qed.
#[export] Hint Resolve coherent_initKeycloak_resume : coherent.

Lemma coherent_init_iife_resume kc outcome :
  preserves phase_coherent (init_iife_resume kc outcome).
Proof.
  intros w _. destruct outcome; unfold exec, init_iife_resume; js_unfold; simpl;
    rewrite notifyStateChange_hooks; simpl; unfold phase_coherent; simpl; eauto.
Qed.
#[export] Hint Resolve coherent_init_iife_resume : coherent.

(** What a call of [initKeycloak] does, by the phase it finds. *)
Lemma initKeycloak_failed env h (w : World) :
  initializationState w = failed →
  initKeycloak env h w = initKeycloak env h (exec resetGlobalState w).
Proof.
  intros Hst. destruct_world w. simpl in *. subst.
  unfold initKeycloak, init_iife_start, new_Keycloak, new_promise, run_async,
    resetGlobalState.
  js_unfold. js_eval. reflexivity.
Qed.

Lemma initKeycloak_cases env h (w : World) :
  phase_coherent w →
  exec (initKeycloak env h) w = w
  ∨ (initializationState w = idle
     ∧ exec (initKeycloak env h) w = initKeycloak_started h w)
  ∨ (initializationState w = failed
     ∧ exec (initKeycloak env h) w = initKeycloak_started h (exec resetGlobalState w)).
Proof.
  intros Hw. unfold phase_coherent in Hw.
  destruct (initializationState w) eqn:Hst.
  - right. left. split; [done|]. destruct Hw as (_ & Hp & _).
    unfold exec at 1. by rewrite initKeycloak_idle.
  - left. unfold exec. by rewrite initKeycloak_initializing.
  - left. destruct Hw as [kc Hkc]. destruct_world w. simpl in *. by subst.
  - right. right. split; [done|]. unfold exec at 1.
    rewrite initKeycloak_failed by done.
    rewrite initKeycloak_idle; [done|..];
      destruct_world w; unfold exec, resetGlobalState; js_unfold; simpl;
      by rewrite notifyStateChange_hooks.
Qed.

Lemma coherent_initKeycloak_started h (w : World) :
  initializationState w = idle → phase_coherent w →
  phase_coherent (initKeycloak_started h w).
Proof.
  unfold phase_coherent. intros -> (Hs & Hp & He). destruct_world w. simpl in *.
  subst. eauto.
Qed.

Lemma coherent_initKeycloak env h : preserves phase_coherent (initKeycloak env h).
Proof.
  intros w Hw. destruct (initKeycloak_cases env h w Hw) as [-> | [[Hst ->] | [Hst ->]]].
  - done.
  - by apply coherent_initKeycloak_started.
  - apply coherent_initKeycloak_started; [|by apply coherent_resetGlobalState].
    destruct_world w. unfold exec, resetGlobalState. js_unfold. simpl.
    by rewrite notifyStateChange_hooks.
Qed.
#[export] Hint Resolve coherent_initKeycloak : coherent.

Lemma coherent_mount env h : preserves phase_coherent (mount env h).
Proof. unfold mount. coherent. Qed.

Lemma coherent_unmount h : preserves phase_coherent (unmount h).
Proof. unfold unmount. coherent. Qed.

Lemma coherent_logout_start env h options :
  preserves phase_coherent (logout_start env h options).
Proof. unfold logout_start. coherent. Qed.

Lemma coherent_logout_settles h outcome : preserves phase_coherent (logout_settles h outcome).
Proof. unfold logout_settles, logout_resume. coherent. Qed.

Lemma coherent_init_settles env p kc answer :
  preserves phase_coherent (init_settles env p kc answer).
Proof. unfold init_settles. coherent. Qed.

Lemma coherent_userProfile_settles env h kc r outcome :
  preserves phase_coherent (userProfile_settles env h kc r outcome).
Proof. unfold userProfile_settles. coherent. Qed.

Lemma coherent_provider_leaves (kc : InstRef) client :
  preserves phase_coherent (provider_leaves kc client).
Proof. destruct client; unfold provider_leaves; coherent. Qed.
#[export] Hint Resolve coherent_provider_leaves : coherent.

Lemma coherent_updateToken_settles env h kc answer :
  preserves phase_coherent (updateToken_settles env h kc answer).
Proof. unfold updateToken_settles. coherent. Qed.

Lemma coherent_timer_fires t : preserves phase_coherent (timer_fires t).
Proof. unfold timer_fires. coherent. Qed.

Lemma coherent_updateToken_manual_start h minValidity :
  preserves phase_coherent (updateToken_manual_start h minValidity).
Proof. unfold updateToken_manual_start. coherent. Qed.

Lemma coherent_updateToken_manual_settles env h kc answer :
  preserves phase_coherent (updateToken_manual_settles env h kc answer).
Proof. unfold updateToken_manual_settles, updateToken_manual_resume. coherent. Qed.

Lemma coherent_onAuthLogout : preserves phase_coherent onAuthLogout.
Proof. apply coherent_resetGlobalState. Qed.

Lemma coherent_provider_writes (kc : InstRef) client :
  preserves phase_coherent (provider_writes kc client).
Proof. coherent. Qed.

Lemma coherent_onTokenExpired (kc : InstRef) :
  preserves phase_coherent (onTokenExpired kc).
Proof. unfold onTokenExpired. coherent. Qed.

Lemma coherent_handlers :
  preserves phase_coherent onTokenExpired_rejected
  ∧ preserves phase_coherent onAuthRefreshSuccess
  ∧ preserves phase_coherent onAuthRefreshError.
Proof.
  unfold onTokenExpired_rejected, onAuthRefreshSuccess, onAuthRefreshError.
  split; [|split]; coherent.
Qed.

#[export] Hint Resolve coherent_onAuthLogout coherent_mount coherent_unmount coherent_logout_start
  coherent_logout_settles coherent_init_settles coherent_userProfile_settles
  coherent_updateToken_settles coherent_timer_fires  coherent_updateToken_manual_start
  coherent_updateToken_manual_settles : coherent.

(** An invariant of every turn holds in every world reached from a world
    where it holds. *)
Lemma run_invariant env (I : World → Prop) :
  (∀ t w, I w → I (turn env t w)) → ∀ ts w, I w → I (run env ts w).
Proof.
  intros Hturn ts. unfold run. induction ts as [|t ts IH]; intros w Hw; simpl; [done|].
  apply IH. by apply Hturn.
Qed.

(** Solving a turn by the lemma of its function. *)
Ltac by_turn tac :=
  let t := fresh "t" in let w := fresh "w" in let Hw := fresh "Hw" in
  intros t w Hw; destruct t; unfold turn;
  match goal with
  | |- ?I (exec ?m w) =>
      let Hp := fresh in
      assert (preserves I m) as Hp by tac; exact (Hp w Hw)
  end.

Lemma coherent_turn env (t : Turn) (w : World) :
  phase_coherent w → phase_coherent (turn env t w).
Proof.
  revert t w.
  by_turn ltac:(first [solve [eauto with coherent]
                      | apply coherent_provider_writes
                      | apply coherent_onTokenExpired
                      | apply coherent_handlers]).
Qed.

(** X9: The phase tells what the module variables hold, in every world reached
    from the page load: [idle] means no client, no promise and no error;
    [initializing] a promise and no client; [initialized] a client; [failed]
    an error.  In particular [initKeycloak] never finds the promise missing
    when it sets out to wait for it (line 406). *)
Theorem reachable_phase_coherent env (ts : list Turn) :
  phase_coherent (run env ts page_load).
Proof. apply run_invariant; [apply coherent_turn | by unfold phase_coherent]. Qed.

(** ** Subscribers and mounted hooks *)

Lemma mounted_alter (f : Hook → Hook) (h h' : HookId) (hs : gmap HookId Hook) :
  (∀ hook, isMountedRef (f hook) = isMountedRef hook) →
  from_option isMountedRef false (alter f h hs !! h')
  = from_option isMountedRef false (hs !! h').
Proof.
  intros Hf. destruct (decide (h' = h)) as [->|Hne].
  - rewrite lookup_alter_eq. destruct (hs !! h); simpl; [apply Hf | done].
  - by rewrite lookup_alter_ne.
Qed.

Lemma subscribed_iff_mounted_frame (w w' : World) :
  stateSubscribers w' = stateSubscribers w →
  (∀ h, mounted_in w' h = mounted_in w h) →
  subscribed_iff_mounted w → subscribed_iff_mounted w'.
Proof.
  unfold subscribed_iff_mounted. intros -> Hm [Hnd Hiff]. split; [done|].
  intros h. by rewrite Hm.
Qed.

Ltac attached_prim :=
  let w := fresh "w" in let Hw := fresh "Hw" in
  intros w Hw;
  unfold exec, upd, console_error, provider_call, park, unpark, new_promise, settle,
    new_Keycloak, setTimeout, clearTimeout, provider_writes, modify, gets;
  rewrite ?notifyStateChange_hooks; simpl;
  repeat (case_bool_decide; simpl);
  ((eapply subscribed_iff_mounted_frame; [..|exact Hw]);
   [reflexivity
   |intros ?; unfold mounted_in; simpl;
    rewrite ?mounted_notified, ?mounted_alter by done; reflexivity]).

Create HintDb attached discriminated.
#[export] Hint Constants Opaque : attached.

Ltac attached := preserve_with ltac:(eauto with attached) ltac:(attached_prim).

Lemma exec_modify_bind {A} (f : World → World) (k : unit → JS A) (w : World) :
  exec (modify f ≫= k) w = exec (k tt) (f w).
Proof. reflexivity. Qed.

Lemma attached_notifyStateChange ev :
  preserves subscribed_iff_mounted (notifyStateChange ev).
Proof. attached. Qed.
#[export] Hint Resolve attached_notifyStateChange : attached.

Lemma attached_resetGlobalState : preserves subscribed_iff_mounted resetGlobalState.
Proof. unfold resetGlobalState. attached. Qed.
#[export] Hint Resolve attached_resetGlobalState : attached.

Lemma attached_loadRoleAttributes env h kc :
  preserves subscribed_iff_mounted (loadRoleAttributes env h kc).
Proof. unfold loadRoleAttributes. attached. Qed.
#[export] Hint Resolve attached_loadRoleAttributes : attached.

Lemma attached_loadUserInfo_start h kc :
  preserves subscribed_iff_mounted (loadUserInfo_start h kc).
Proof. unfold loadUserInfo_start. attached. Qed.
#[export] Hint Resolve attached_loadUserInfo_start : attached.

Lemma attached_loadUserInfo_resume env h kc outcome :
  preserves subscribed_iff_mounted (loadUserInfo_resume env h kc outcome).
Proof. unfold loadUserInfo_resume. attached. Qed.
#[export] Hint Resolve attached_loadUserInfo_resume : attached.

Lemma attached_clear_refresh_timer h :
  preserves subscribed_iff_mounted (clear_refresh_timer h).
Proof. unfold clear_refresh_timer. attached. Qed.
#[export] Hint Resolve attached_clear_refresh_timer : attached.

Lemma attached_updateToken_start h kc :
  preserves subscribed_iff_mounted (updateToken_start h kc).
Proof. unfold updateToken_start. attached. Qed.
#[export] Hint Resolve attached_updateToken_start : attached.

Lemma attached_updateToken_resume env h kc outcome :
  preserves subscribed_iff_mounted (updateToken_resume env h kc outcome).
Proof. unfold updateToken_resume. attached. Qed.
#[export] Hint Resolve attached_updateToken_resume : attached.

Lemma attached_setupTokenRefresh h kc :
  preserves subscribed_iff_mounted (setupTokenRefresh h kc).
Proof. unfold setupTokenRefresh. attached. Qed.
#[export] Hint Resolve attached_setupTokenRefresh : attached.

Lemma attached_initKeycloak_tail h kc :
  preserves subscribed_iff_mounted (initKeycloak_tail h kc).
Proof. unfold initKeycloak_tail. attached. Qed.
#[export] Hint Resolve attached_initKeycloak_tail : attached.

Lemma attached_initKeycloak_resume env h r o :
  preserves subscribed_iff_mounted (initKeycloak_resume env h r o).
Proof. unfold initKeycloak_resume. attached. Qed.
#[export] Hint Resolve attached_initKeycloak_resume : attached.

Lemma attached_init_iife_start : preserves subscribed_iff_mounted init_iife_start.
Proof. unfold init_iife_start. attached. Qed.
#[export] Hint Resolve attached_init_iife_start : attached.

Lemma attached_init_iife_resume kc outcome :
  preserves subscribed_iff_mounted (init_iife_resume kc outcome).
Proof. unfold init_iife_resume. attached. Qed.
#[export] Hint Resolve attached_init_iife_resume : attached.


Lemma attached_initKeycloak env h : preserves subscribed_iff_mounted (initKeycloak env h).
Proof. unfold initKeycloak. attached. Qed.
#[export] Hint Resolve attached_initKeycloak : attached.

(** The rest of a turn keeps a property that holds where it starts. *)
Ltac preserved_by tac :=
  match goal with
  | |- ?I (exec ?m ?w) =>
      let Hp := fresh in
      assert (preserves I m) as Hp by tac; apply Hp; clear Hp
  end.

Lemma attached_mount env h : preserves subscribed_iff_mounted (mount env h).
Proof.
  intros w [Hnd Hiff]. unfold mount, subscribe, upd.
  rewrite !exec_modify_bind. preserved_by attached.
  destruct_world w. unfold subscribed_iff_mounted, mounted_in in *. simpl in *.
  case_bool_decide as Hin; simpl; (split; [|intros h']).
  - done.
  - destruct (decide (h' = h)) as [->|Hne].
    + by rewrite lookup_alter_eq, lookup_insert_eq.
    + by rewrite lookup_alter_ne, lookup_insert_ne, Hiff.
  - apply NoDup_app. split; [done|]. split; [|apply NoDup_singleton].
    intros x Hx ->%list_elem_of_singleton. done.
  - rewrite elem_of_app, list_elem_of_singleton.
    destruct (decide (h' = h)) as [->|Hne].
    + rewrite lookup_alter_eq, lookup_insert_eq. simpl. split; [done | by right].
    + rewrite lookup_alter_ne, lookup_insert_ne, <- Hiff by done.
      split; [by intros [?|?] | by left].
Qed.

Lemma attached_unmount h : preserves subscribed_iff_mounted (unmount h).
Proof.
  intros w [Hnd Hiff]. unfold unmount, unsubscribe, upd.
  rewrite !exec_modify_bind. preserved_by attached.
  destruct_world w. unfold subscribed_iff_mounted, mounted_in in *. simpl in *.
  split; [by apply NoDup_ListNoDup, List.NoDup_filter, NoDup_ListNoDup|]. intros h'.
  rewrite list_elem_of_In, List.filter_In, <- list_elem_of_In, negb_true_iff,
    bool_decide_eq_false.
  destruct (decide (h' = h)) as [->|Hne].
  - rewrite !lookup_alter_eq. destruct (hs !! h); simpl; split; by try intros [_ ?].
  - rewrite !lookup_alter_ne, <- Hiff by done. split; [by intros [? _] | done].
Qed.
#[export] Hint Resolve attached_mount attached_unmount : attached.

Lemma attached_logout_start env h options :
  preserves subscribed_iff_mounted (logout_start env h options).
Proof. unfold logout_start. attached. Qed.
#[export] Hint Resolve attached_logout_start : attached.

Lemma attached_logout_settles h outcome :
  preserves subscribed_iff_mounted (logout_settles h outcome).
Proof. unfold logout_settles, logout_resume. attached. Qed.
#[export] Hint Resolve attached_logout_settles : attached.

Lemma attached_init_settles env p kc answer :
  preserves subscribed_iff_mounted (init_settles env p kc answer).
Proof. unfold init_settles. attached. Qed.
#[export] Hint Resolve attached_init_settles : attached.

Lemma attached_userProfile_settles env h kc r outcome :
  preserves subscribed_iff_mounted (userProfile_settles env h kc r outcome).
Proof. unfold userProfile_settles. attached. Qed.
#[export] Hint Resolve attached_userProfile_settles : attached.

Lemma attached_provider_leaves (kc : InstRef) client :
  preserves subscribed_iff_mounted (provider_leaves kc client).
Proof. destruct client; unfold provider_leaves; attached. Qed.
#[export] Hint Resolve attached_provider_leaves : attached.

Lemma attached_updateToken_settles env h kc answer :
  preserves subscribed_iff_mounted (updateToken_settles env h kc answer).
Proof. unfold updateToken_settles. attached. Qed.
#[export] Hint Resolve attached_updateToken_settles : attached.

Lemma attached_timer_fires t : preserves subscribed_iff_mounted (timer_fires t).
Proof. unfold timer_fires. attached. Qed.
#[export] Hint Resolve attached_timer_fires : attached.

Lemma attached_updateToken_manual_start h minValidity :
  preserves subscribed_iff_mounted (updateToken_manual_start h minValidity).
Proof. unfold updateToken_manual_start. attached. Qed.
#[export] Hint Resolve attached_updateToken_manual_start : attached.

Lemma attached_updateToken_manual_settles env h kc answer :
  preserves subscribed_iff_mounted (updateToken_manual_settles env h kc answer).
Proof. unfold updateToken_manual_settles, updateToken_manual_resume. attached. Qed.
#[export] Hint Resolve attached_updateToken_manual_settles : attached.

Lemma attached_onAuthLogout : preserves subscribed_iff_mounted onAuthLogout.
Proof. unfold onAuthLogout. attached. Qed.
#[export] Hint Resolve attached_onAuthLogout : attached.








(** ** No dangling reference *)

Lemma promises_allocated_spec (w : World) :
  promises_allocated w = true
  ↔ ∀ t q, t ∈ tasks w → q ∈ task_promises t → q < length (promises w).
Proof.
  unfold promises_allocated. rewrite forallb_forall. split.
  - intros Hall t q Ht Hq. apply list_elem_of_In, Hall in Ht.
    rewrite forallb_forall in Ht. apply list_elem_of_In, Ht in Hq.
    by apply Nat.ltb_lt.
  - intros Hall t Ht. rewrite forallb_forall. intros q Hq.
    apply Nat.ltb_lt, (Hall t); by apply list_elem_of_In.
Qed.

(** The parts of [allocated_above], with the tasks' promises as a
    proposition. *)
Lemma allocated_above_spec (n k : nat) (w : World) :
  allocated_above n k w
  ↔ (∀ t q, t ∈ tasks w → q ∈ task_promises t → q < length (promises w))
    ∧ (∀ p, keycloakInitPromise w = Some p → p < length (promises w))
    ∧ (∀ kc, keycloakSingleton w = Some kc → kc < length (instances w))
    ∧ (∀ h hook kc, hooks w !! h = Some hook → keycloak hook = Some kc →
         kc < length (instances w))
    ∧ (∀ t kc, t ∈ tasks w → kc ∈ task_instances t → kc < length (instances w))
    ∧ (∀ p v kc, promises w !! p = Some (Some (Resolved v)) → kc ∈ value_instances v →
         kc < length (instances w))
    ∧ (∀ t h kc d, timers w !! t = Some (h, kc, d) → kc < length (instances w))
    ∧ (n ≤ length (promises w))%nat ∧ (k ≤ length (instances w))%nat.
Proof.
  unfold allocated_above. split.
  - intros [[H1 H2 H3 H4 H5 H6 H7] [Hn Hk]].
    split; [by apply promises_allocated_spec | done].
  - intros (H1 & H2 & H3 & H4 & H5 & H6 & H7 & Hn & Hk).
    split; [split; [by apply promises_allocated_spec | done..] | done].
Qed.

(** Taking an invariant of this kind apart, on a world given field by
    field, and putting it together again. *)
Ltac above_intro :=
  let w := fresh "w" in let Hw := fresh "Hw" in
  intros w Hw; apply allocated_above_spec in Hw;
  destruct Hw as (Htp & Hip & Hsg & Hhk & Hti & Hpv & Htm & Hn & Hk);
  destruct_world w; apply allocated_above_spec;
  unfold exec, upd, console_error, provider_call, park, unpark, new_promise, settle,
    new_Keycloak, setTimeout, clearTimeout, provider_writes, subscribe, unsubscribe,
    modify, gets in *;
  rewrite ?notifyStateChange_hooks; simpl in *.

Ltac above_parts :=
  repeat match goal with |- _ ∧ _ => split end;
  rewrite ?length_app, ?length_insert; simpl;
  try solve [done | lia
            | intros; match goal with
                      | H : _ |- _ => eapply Nat.lt_le_trans; [eapply H; eassumption | lia]
                      end].

Lemma above_console_error s n k : preserves (allocated_above n k) (console_error s).
Proof. above_intro. above_parts. Qed.

Lemma above_provider_call c n k : preserves (allocated_above n k) (provider_call c).
Proof. above_intro. above_parts. Qed.

Lemma above_subscribe h n k : preserves (allocated_above n k) (subscribe h).
Proof. above_intro. case_bool_decide; simpl; above_parts. Qed.

Lemma above_unsubscribe h n k : preserves (allocated_above n k) (unsubscribe h).
Proof. above_intro. above_parts. Qed.

Lemma above_clearTimeout t n k : preserves (allocated_above n k) (clearTimeout t).
Proof.
  above_intro. above_parts.
  intros t' h kc d [_ Ht]%lookup_delete_Some. eauto.
Qed.

Lemma above_provider_writes kc client n k :
  preserves (allocated_above n k) (provider_writes kc client).
Proof. above_intro. above_parts. Qed.

Lemma above_new_Keycloak n k : preserves (allocated_above n k) new_Keycloak.
Proof. above_intro. above_parts. Qed.

Lemma above_new_promise n k : preserves (allocated_above n k) new_promise.
Proof.
  above_intro. above_parts.
  intros p v kc Hp. apply lookup_app_Some in Hp as [Hp | [_ Hp]]; [eauto|].
  by destruct (p - length proms) as [|[|?]].
Qed.

Lemma above_settle p o n k :
  (∀ v kc, o = Resolved v → kc ∈ value_instances v → kc < k) →
  preserves (allocated_above n k) (settle p o).
Proof.
  intros Ho. above_intro. above_parts.
  intros q v kc Hq Hkc. destruct (decide (q = p)) as [->|Hne].
  - apply list_lookup_insert_Some in Hq as [(_ & [= Heq] & _) | [? _]]; [|done].
    eapply Nat.lt_le_trans; [by eapply Ho | done].
  - rewrite list_lookup_insert_ne in Hq by done. eauto.
Qed.

Lemma above_upd h f n k :
  (∀ hook kc, keycloak (f hook) = Some kc → keycloak hook = Some kc ∨ kc < k) →
  preserves (allocated_above n k) (upd h f).
Proof.
  intros Hf. above_intro. above_parts.
  intros h' hook' kc Hh' Hkc. destruct (decide (h' = h)) as [->|Hne].
  - rewrite lookup_alter_eq in Hh'. destruct (hs !! h) as [hook|] eqn:Hh; [|done].
    simpl in Hh'. injection Hh' as <-. apply Hf in Hkc as [Hkc | Hkc]; [eauto | lia].
  - rewrite lookup_alter_ne in Hh' by done. eauto.
Qed.

Lemma above_park t n k :
  (∀ q, q ∈ task_promises t → q < n) → (∀ kc, kc ∈ task_instances t → kc < k) →
  preserves (allocated_above n k) (park t).
Proof.
  intros Hq Hkc. above_intro. above_parts.
  - intros t' q [Ht | ->%list_elem_of_singleton]%elem_of_app Hin; [eauto|].
    apply Hq in Hin. lia.
  - intros t' kc [Ht | ->%list_elem_of_singleton]%elem_of_app Hin; [eauto|].
    apply Hkc in Hin. lia.
Qed.

Lemma elem_of_remove_first (t x : Task) (l : list Task) :
  x ∈ remove_first t l → x ∈ l.
Proof.
  induction l as [|y l IH]; simpl; [done|].
  case_bool_decide; [by right|]. intros [->|?]%elem_of_cons; [by left | right; auto].
Qed.

Lemma above_unpark t n k : preserves (allocated_above n k) (unpark t).
Proof.
  above_intro. case_bool_decide; simpl; above_parts.
  all: intros t' q Ht'%elem_of_remove_first; eauto.
Qed.

Lemma above_setTimeout (h : HookId) (kc : InstRef) d n k :
  kc < k → preserves (allocated_above n k) (setTimeout (h, kc) d).
Proof.
  intros Hkc. above_intro. above_parts.
  intros t h' kc' d' Ht. destruct (decide (t = ntimer)) as [->|Hne].
  - rewrite lookup_insert_eq in Ht. injection Ht as <- <- <-. lia.
  - rewrite lookup_insert_ne in Ht by done. eauto.
Qed.

Lemma above_notifyStateChange ev n k :
  (∀ kc, ev_keycloak ev = Some kc → kc < k) →
  preserves (allocated_above n k) (notifyStateChange ev).
Proof.
  intros Hev. above_intro. above_parts.
  intros h hook kc Hh Hkc. rewrite notified_lookup in Hh.
  destruct (hs !! h) as [hook0|] eqn:Hh0; [|done]. simpl in Hh. injection Hh as <-.
  destruct (decide _); simpl in Hkc; [|eauto].
  unfold handleStateChange in Hkc.
  destruct (isMountedRef hook0); simpl in Hkc; [|eauto].
  repeat (case_bool_decide; simpl in Hkc); try done; eauto.
  apply Hev in Hkc. lia.
Qed.

Lemma above_set_keycloakSingleton v n k :
  (∀ kc, v = Some kc → kc < k) →
  preserves (allocated_above n k) (modify (set_keycloakSingleton v)).
Proof. intros Hv. above_intro. above_parts. Qed.

Lemma above_set_keycloakInitPromise v n k :
  (∀ p, v = Some p → p < n) →
  preserves (allocated_above n k) (modify (set_keycloakInitPromise v)).
Proof. intros Hv. above_intro. above_parts. Qed.

Lemma above_set_initializationState v n k :
  preserves (allocated_above n k) (modify (set_initializationState v)).
Proof. above_intro. above_parts. Qed.

Lemma above_set_globalError v n k :
  preserves (allocated_above n k) (modify (set_globalError v)).
Proof. above_intro. above_parts. Qed.

Lemma above_filter_tasks (f : Task → bool) n k :
  preserves (allocated_above n k) (modify (λ w, set_tasks (List.filter f (tasks w)) w)).
Proof.
  above_intro. above_parts.
  all: intros t q Ht%list_elem_of_In%List.filter_In%proj1%list_elem_of_In; eauto.
Qed.

(** More promises and clients do no harm. *)
Lemma allocated_above_weaken (n k n' k' : nat) (w : World) :
  (n ≤ n')%nat → (k ≤ k')%nat → allocated_above n' k' w → allocated_above n k w.
Proof. unfold allocated_above. intros ?? (? & ? & ?). split; [done|lia]. Qed.

(** Reading the state: what is read refers to what exists then. *)
Lemma above_gets_bind {A B} (f : World → A) (cont : A → JS B) n k :
  (∀ w, allocated_above n k w →
        preserves (allocated_above (length (promises w)) (length (instances w)))
                  (cont (f w))) →
  preserves (allocated_above n k) (gets f ≫= cont).
Proof.
  intros Hcont w Hw.
  assert (Hw' : allocated_above (length (promises w)) (length (instances w)) w).
  { destruct Hw as [? ?]. split; [done | lia]. }
  apply (allocated_above_weaken n k (length (promises w)) (length (instances w)));
    [apply Hw..|].
  by apply (Hcont w Hw w Hw').
Qed.

Lemma above_unpark_bind {B} (t : Task) (cont : bool → JS B) n k :
  (∀ n' k', (n ≤ n')%nat → (k ≤ k')%nat →
     (∀ q, q ∈ task_promises t → q < n') → (∀ kc, kc ∈ task_instances t → kc < k') →
     preserves (allocated_above n' k') (cont true)) →
  preserves (allocated_above n k) (cont false) →
  preserves (allocated_above n k) (unpark t ≫= cont).
Proof.
  intros Htrue Hfalse w Hw. unfold exec, mbind, Eff_bind, unpark.
  case_bool_decide as Hin; [|by apply Hfalse].
  pose proof (above_unpark t n k w Hw) as Hw'. unfold exec, unpark in Hw'.
  rewrite bool_decide_eq_true_2 in Hw' by done. simpl in Hw'.
  apply allocated_above_spec in Hw as (Htp & _ & _ & _ & Hti & _ & _ & Hn & Hk).
  apply (allocated_above_weaken n k (length (promises w)) (length (instances w)));
    [done..|].
  apply (Htrue (length (promises w)) (length (instances w))); [done|done|eauto|eauto|].
  destruct Hw' as [? _]. split; [done|]. by destruct w.
Qed.

Lemma above_new_promise_bind {B} (cont : PromiseRef → JS B) n k :
  (∀ r n', (n ≤ n')%nat → r < n' → preserves (allocated_above n' k) (cont r)) →
  preserves (allocated_above n k) (new_promise ≫= cont).
Proof.
  intros Hcont w Hw. unfold exec, mbind, Eff_bind. simpl.
  pose proof (above_new_promise n k w Hw) as [Hra [Hn Hk]]. unfold exec in *.
  simpl in *. rewrite length_app in Hn. simpl in Hn.
  apply (allocated_above_weaken n k (S (length (promises w))) k); [lia|lia|].
  apply (Hcont (length (promises w)) (S (length (promises w)))); [lia|lia|].
  split; [done|]. destruct w. simpl in *. rewrite length_app. simpl. lia.
Qed.

Lemma above_new_Keycloak_bind {B} (cont : InstRef → JS B) n k :
  (∀ kc k', (k ≤ k')%nat → kc < k' → preserves (allocated_above n k') (cont kc)) →
  preserves (allocated_above n k) (new_Keycloak ≫= cont).
Proof.
  intros Hcont w Hw. unfold exec, mbind, Eff_bind. simpl.
  pose proof (above_new_Keycloak n k w Hw) as [Hra [Hn Hk]]. unfold exec in *.
  simpl in *. rewrite length_app in Hk. simpl in Hk.
  apply (allocated_above_weaken n k n (S (length (instances w)))); [lia|lia|].
  apply (Hcont (length (instances w)) (S (length (instances w)))); [lia|lia|].
  split; [done|]. destruct w. simpl in *. rewrite length_app. simpl. lia.
Qed.

Lemma preserves_ret_bind {A B} (I : World → Prop) (a : A) (k : A → JS B) :
  preserves I (k a) → preserves I (mret a ≫= k).
Proof. intros Hk w Hw. by apply Hk. Qed.

Lemma preserves_throw_bind {A B} (I : World → Prop) (e : Exn) (k : A → JS B) :
  preserves I (throw e ≫= k).
Proof. intros w Hw. exact Hw. Qed.

(** A bound that follows from what is known of the worlds read so far. *)
Ltac above_lt :=
  first [lia
        | match goal with
          | H : _ |- _ =>
              eapply Nat.lt_le_trans;
              [eapply H; first [eassumption | by simpl; rewrite ?elem_of_cons; auto]
              |lia]
          end].

Ltac above_side :=
  intros; cbn beta in *; simpl in *;
  repeat match goal with
    | H : allocated_above _ _ _ |- _ =>
        apply allocated_above_spec in H;
        destruct H as (? & ? & ? & ? & ? & ? & ? & ? & ?)
    end;
  simplify_eq;
  repeat match goal with
    | H : _ ∈ _ :: _ |- _ => apply elem_of_cons in H as [->|H]
    | H : _ ∈ [] |- _ => by apply elem_of_nil in H
    end;
  first [above_lt | by left | right; above_lt].

Create HintDb above discriminated.
#[export] Hint Constants Opaque : above.
#[export] Hint Transparent InstRef PromiseRef HookId TimerId : above.
#[export] Hint Extern 1 (_ < _) => solve [above_side] : above.
#[export] Hint Extern 1 (_ ∨ _) => solve [above_side] : above.
#[export] Hint Resolve above_console_error above_provider_call above_subscribe
  above_unsubscribe above_clearTimeout above_provider_writes above_new_Keycloak
  above_new_promise above_settle above_upd above_park above_unpark above_setTimeout
  above_notifyStateChange above_set_keycloakSingleton above_set_keycloakInitPromise
  above_set_initializationState above_set_globalError above_filter_tasks : above.

Ltac above_step :=
  lazymatch goal with
  | |- preserves _ (mret _ ≫= _) => apply preserves_ret_bind
  | |- preserves _ (throw _ ≫= _) => apply preserves_throw_bind
  | |- preserves _ (gets _ ≫= _) =>
      apply above_gets_bind; intros ? ?; cbn beta
  | |- preserves _ (unpark _ ≫= _) =>
      apply above_unpark_bind; [intros ? ? ? ? ? ?|]; cbn beta iota
  | |- preserves _ (new_promise ≫= _) =>
      apply above_new_promise_bind; intros ? ? ? ?
  | |- preserves _ (new_Keycloak ≫= _) =>
      apply above_new_Keycloak_bind; intros ? ? ? ?
  | |- preserves _ (if ?b then _ else _) => destruct b eqn:?
  | |- preserves _ (match ?x with _ => _ end) => destruct x eqn:?
  | |- _ => preserve_step
  end.

Ltac above := repeat first [solve [eauto 6 with above] | above_step].

Lemma above_resetGlobalState n k : preserves (allocated_above n k) resetGlobalState.
Proof. unfold resetGlobalState. above. Qed.
#[export] Hint Resolve above_resetGlobalState : above.

Lemma above_loadRoleAttributes env h kc n k :
  preserves (allocated_above n k) (loadRoleAttributes env h kc).
Proof. unfold loadRoleAttributes. above. Qed.
#[export] Hint Resolve above_loadRoleAttributes : above.

Lemma above_loadUserInfo_start h kc n k :
  preserves (allocated_above n k) (loadUserInfo_start h kc).
Proof. unfold loadUserInfo_start. above. Qed.
#[export] Hint Resolve above_loadUserInfo_start : above.

Lemma above_loadUserInfo_resume env h kc outcome n k :
  preserves (allocated_above n k) (loadUserInfo_resume env h kc outcome).
Proof. unfold loadUserInfo_resume. above. Qed.
#[export] Hint Resolve above_loadUserInfo_resume : above.

Lemma above_clear_refresh_timer h n k :
  preserves (allocated_above n k) (clear_refresh_timer h).
Proof. unfold clear_refresh_timer. above. Qed.
#[export] Hint Resolve above_clear_refresh_timer : above.

Lemma above_updateToken_start h kc n k :
  kc < k → preserves (allocated_above n k) (updateToken_start h kc).
Proof. intros Hkc. unfold updateToken_start. above. Qed.
#[export] Hint Resolve above_updateToken_start : above.

Lemma above_updateToken_resume env h kc outcome n k :
  kc < k → preserves (allocated_above n k) (updateToken_resume env h kc outcome).
Proof. intros Hkc. unfold updateToken_resume. above. Qed.
#[export] Hint Resolve above_updateToken_resume : above.

Lemma above_setupTokenRefresh h kc n k :
  kc < k → preserves (allocated_above n k) (setupTokenRefresh h kc).
Proof. intros Hkc. unfold setupTokenRefresh. above. Qed.
#[export] Hint Resolve above_setupTokenRefresh : above.

Lemma above_initKeycloak_tail h kc n k :
  kc < k → preserves (allocated_above n k) (initKeycloak_tail h kc).
Proof. intros Hkc. unfold initKeycloak_tail. above. Qed.
#[export] Hint Resolve above_initKeycloak_tail : above.

Lemma above_initKeycloak_resume env h (r : PromiseRef) o n k :
  r < n → (∀ v kc, o = Resolved v → kc ∈ value_instances v → kc < k) →
  preserves (allocated_above n k) (initKeycloak_resume env h r o).
Proof.
  intros Hr Ho. unfold initKeycloak_resume.
  destruct o as [v|e]; cbn [await]; [|above].
  apply preserves_ret_bind.
  destruct v as [|kc|kc a]; [above..|].
  assert (kc < k) by (apply (Ho (VInitResult kc a)); [done | by left]).
  above.
Qed.
#[export] Hint Resolve above_initKeycloak_resume : above.

Lemma above_init_iife_start n k : preserves (allocated_above n k) init_iife_start.
Proof. unfold init_iife_start. above. Qed.
#[export] Hint Resolve above_init_iife_start : above.

Lemma above_init_iife_resume (kc : InstRef) outcome n k :
  kc < k → preserves (allocated_above n k) (init_iife_resume kc outcome).
Proof. intros Hkc. unfold init_iife_resume. above. Qed.
#[export] Hint Resolve above_init_iife_resume : above.

(** An [async] body that keeps the invariant and returns a value whose
    client exists may settle its promise. *)
Lemma above_run_async (r : PromiseRef) (body : JS (option Value)) n k :
  preserves (allocated_above n k) body →
  (∀ w v kc, (body w).1 = Normal (Some v) → kc ∈ value_instances v → kc < k) →
  preserves (allocated_above n k) (run_async r body).
Proof.
  intros Hbody Hv w Hw. specialize (Hbody w Hw). specialize (Hv w).
  unfold exec, run_async in *.
  destruct (body w) as [[[v|]|e] w']; simpl in *; [|done|].
  - apply (above_settle r (Resolved v) n k); [|done].
    intros v' kc [= <-]. by apply Hv.
  - by apply (above_settle r (Rejected e) n k).
Qed.

(** What the [async] bodies return. *)
Lemma initKeycloak_resume_returns env h r o (w : World) v :
  (initKeycloak_resume env h r o w).1 = Normal (Some v) →
  ∃ kc a, o = Resolved (VInitResult kc a) ∧ v = VInstance kc.
Proof.
  destruct o as [[|kc|kc a]|e]; try done.
  destruct (initKeycloak_resume_run env h r kc a w) as (c & w' & -> & _ & [-> | [-> _]]);
    simpl; [|done].
  intros [= <-]. eauto.
Qed.

Lemma init_iife_resume_returns kc outcome (w : World) v :
  ((v ← init_iife_resume kc outcome; mret (Some v)) w).1 = Normal (Some v) →
  ∃ a, v = VInitResult kc a.
Proof.
  destruct outcome as [a|e]; unfold init_iife_resume; js_unfold; simpl;
    rewrite notifyStateChange_hooks; simpl; [|done].
  intros [= <-]. eauto.
Qed.

Lemma settled_allocated n k (w : World) (p : PromiseRef) o :
  allocated_above n k w → mjoin (promises w !! p) = Some o →
  ∀ v kc, o = Resolved v → kc ∈ value_instances v → kc < length (instances w).
Proof.
  intros Hw Hp v kc -> Hkc. apply allocated_above_spec in Hw.
  destruct Hw as (_ & _ & _ & _ & _ & Hpv & _).
  destruct (promises w !! p) as [[o|]|] eqn:Hlook; simplify_eq/=. eauto.
Qed.

Ltac above_async :=
  lazymatch goal with
  | |- preserves _ (run_async _ _) => apply above_run_async; [|intros ? ? ? ? ?]
  end.

Lemma above_initKeycloak env h n k : preserves (allocated_above n k) (initKeycloak env h).
Proof.
  unfold initKeycloak. repeat first [solve [eauto 6 with above] | above_async | above_step].
  all: try (apply above_initKeycloak_resume; [above_side | by eapply settled_allocated]).
  all: match goal with
       | Hv : (initKeycloak_resume _ _ _ _ _).1 = _ |- _ =>
           apply initKeycloak_resume_returns in Hv as (kc' & a' & -> & ->)
       end.
  all: eapply settled_allocated; [eassumption|eassumption|reflexivity|eassumption].
Qed.
#[export] Hint Resolve above_initKeycloak : above.

Lemma above_delete_timer t n k :
  preserves (allocated_above n k) (modify (λ w, set_timers (delete t (timers w)) w)).
Proof. apply above_clearTimeout. Qed.

Lemma above_first_render h n k :
  preserves (allocated_above n k)
    (modify (λ w, set_hooks (<[h := useKeycloak_initial w]> (hooks w)) w)).
Proof.
  above_intro. above_parts.
  intros h' hook kc Hh Hkc. destruct (decide (h' = h)) as [->|Hne].
  - rewrite lookup_insert_eq in Hh. injection Hh as <-. simpl in Hkc. eauto.
  - rewrite lookup_insert_ne in Hh by done. eauto.
Qed.
#[export] Hint Resolve above_delete_timer above_first_render : above.

Ltac above_all := repeat first [solve [eauto 6 with above] | above_async | above_step].

Lemma above_mount env h n k : preserves (allocated_above n k) (mount env h).
Proof. unfold mount. above_all. Qed.

Lemma above_unmount h n k : preserves (allocated_above n k) (unmount h).
Proof. unfold unmount. above_all. Qed.

Lemma above_logout_start env h options n k :
  preserves (allocated_above n k) (logout_start env h options).
Proof. unfold logout_start. above_all. Qed.

Lemma above_logout_settles h outcome n k :
  preserves (allocated_above n k) (logout_settles h outcome).
Proof. unfold logout_settles, logout_resume. above_all. Qed.

Lemma above_provider_leaves (kc : InstRef) client n k :
  preserves (allocated_above n k) (provider_leaves kc client).
Proof. destruct client; unfold provider_leaves; above_all. Qed.
#[export] Hint Resolve above_provider_leaves : above.

Lemma above_updateToken_settles env h kc answer n k :
  preserves (allocated_above n k) (updateToken_settles env h kc answer).
Proof. unfold updateToken_settles. above_all. Qed.

Lemma above_timer_fires t n k : preserves (allocated_above n k) (timer_fires t).
Proof. unfold timer_fires. above_all. Qed.

Lemma above_updateToken_manual_start h minValidity n k :
  preserves (allocated_above n k) (updateToken_manual_start h minValidity).
Proof. unfold updateToken_manual_start. above_all. Qed.

Lemma above_updateToken_manual_settles env h kc answer n k :
  preserves (allocated_above n k) (updateToken_manual_settles env h kc answer).
Proof. unfold updateToken_manual_settles, updateToken_manual_resume. above_all. Qed.

Lemma above_onAuthLogout n k : preserves (allocated_above n k) onAuthLogout.
Proof. apply above_resetGlobalState. Qed.

Lemma userProfile_body_returns env h kc outcome (w : World) v :
  ((loadUserInfo_resume env h kc outcome ;;
    v ← initKeycloak_tail h kc; mret (Some v)) w).1 = Normal (Some v) →
  v = VInstance kc.
Proof.
  destruct (initKeycloak_finish_run env h kc outcome w) as (w' & -> & _).
  by intros [= <-].
Qed.

Lemma above_userProfile_settles env h kc r outcome n k :
  preserves (allocated_above n k) (userProfile_settles env h kc r outcome).
Proof.
  unfold userProfile_settles. above_all.
  match goal with
  | Hv : _.1 = Normal (Some _) |- _ => apply userProfile_body_returns in Hv as ->
  end.
  above_side.
Qed.

Lemma above_init_settles env p kc answer n k :
  preserves (allocated_above n k) (init_settles env p kc answer).
Proof.
  unfold init_settles. above_all.
  - match goal with
    | Hv : _.1 = Normal (Some _) |- _ => apply init_iife_resume_returns in Hv as [a' ->]
    end.
    above_side.
  - match goal with
    | Hws : _ ∈ waiters _ _, Hs : mjoin (promises ?w !! _) = Some _,
      Hw : allocated_above _ _ ?w |- _ =>
        apply elem_of_waiters in Hws;
        pose proof (settled_allocated _ _ _ _ _ Hw Hs) as Hso
    end.
    apply above_initKeycloak_resume; [above_side|].
    intros v kc0 Hv Hin. eapply Nat.lt_le_trans; [by eapply Hso | above_side].
  - match goal with
    | Hv : (initKeycloak_resume _ _ _ _ _).1 = _ |- _ =>
        apply initKeycloak_resume_returns in Hv as (kc' & a' & -> & ->)
    end.
    match goal with
    | Hs : mjoin (promises ?w !! _) = Some _, Hw : allocated_above _ _ ?w |- _ =>
        pose proof (settled_allocated _ _ _ _ _ Hw Hs) as Hso
    end.
    eapply Nat.lt_le_trans; [by eapply Hso | above_side].
Qed.

#[export] Hint Resolve above_mount above_unmount above_logout_start above_logout_settles
  above_updateToken_settles above_timer_fires  above_updateToken_manual_start
  above_updateToken_manual_settles above_onAuthLogout above_userProfile_settles
  above_init_settles : above.

Lemma above_onTokenExpired (kc : InstRef) n k :
  preserves (allocated_above n k) (onTokenExpired kc).
Proof. unfold onTokenExpired. above_all. Qed.

Lemma above_handlers n k :
  preserves (allocated_above n k) onTokenExpired_rejected
  ∧ preserves (allocated_above n k) onAuthRefreshSuccess
  ∧ preserves (allocated_above n k) onAuthRefreshError.
Proof.
  unfold onTokenExpired_rejected, onAuthRefreshSuccess, onAuthRefreshError.
  split; [|split]; above_all.
Qed.

Lemma above_turn env n k (t : Turn) (w : World) :
  allocated_above n k w → allocated_above n k (turn env t w).
Proof.
  revert t w.
  by_turn ltac:(first [solve [eauto with above] | apply above_onTokenExpired
                      | apply above_handlers]).
Qed.

Lemma allocated_page_load : allocated_above 0 0 page_load.
Proof.
  apply allocated_above_spec. simpl. repeat split; try done; try lia.
  all: intros; by repeat match goal with H : _ ∈ [] |- _ => apply elem_of_nil in H end.
Qed.

Lemma allocated_run env (ts : list Turn) : allocated_above 0 0 (run env ts page_load).
Proof. apply run_invariant; [apply above_turn | apply allocated_page_load]. Qed.

(** X11: In every world reached from the page load no reference dangles: the
    promises that parked continuations and [keycloakInitPromise] refer to
    exist, and so do the clients that the singleton, the hooks, the parked
    continuations, the settled promises and the pending timers refer to. *)
Theorem reachable_refs_allocated env (ts : list Turn) :
  refs_allocated (run env ts page_load).
Proof. by destruct (allocated_run env ts) as [? _]. Qed.

(** ** The decision of [hasModulePermission] after [loadRoleAttributes] *)

Lemma lookup_resolved_permissions env (client : KeycloakInstance) (moduleName : string) :
  kc_authenticated client = true →
  let ra := default ∅ (kc_role_attributes client) in
  let roles := getUserRoles env (Some client) in
  resolved_permissions env client !! moduleName
  = match delete "__proto__" ra !! moduleName with
    | Some value =>
        if hasSuperRole env (Some client) || includes roles "two-shoulder" then Some true
        else if existsb isCustomRole roles then Some (claim_enables value)
        else None
    | None => None
    end.
Proof.
  intros Hauth ra roles. unfold resolved_permissions. fold ra. fold roles.
  destruct (hasSuperRole env (Some client)); simpl.
  { rewrite mergedPermissions_super, lookup_fmap.
    by destruct (delete "__proto__" ra !! moduleName). }
  destruct (includes roles "two-shoulder"); simpl.
  { rewrite mergedPermissions_two_shoulder, lookup_fmap.
    by destruct (delete "__proto__" ra !! moduleName). }
  rewrite mergedPermissions_custom.
  destruct (existsb isCustomRole roles) eqn:Hcustom.
  - apply existsb_filter_cons in Hcustom as (x & l' & ->).
    rewrite lookup_fmap. by destruct (delete "__proto__" ra !! moduleName).
  - apply existsb_filter_nil in Hcustom as ->. rewrite lookup_empty.
    by destruct (delete "__proto__" ra !! moduleName).
Qed.

(** X12: What a module check answers once [loadRoleAttributes] has run for an
    authenticated client (lines 153-227 and 432-445).  An empty module name
    is refused.  The super role passes every other name, also one that is no
    key of [role_attributes] and so is absent from the stored permissions,
    and also ["__proto__"].  Without the super role the name has to be a key
    of [role_attributes] other than ["__proto__"], under which nothing is
    stored; then [two-shoulder] passes it, and otherwise a custom role is
    needed together with a claim value that enables the module. *)
Theorem permission_decision env (w : World) (h : HookId) (kcref : InstRef)
    (client : KeycloakInstance) (hook : Hook) (moduleName : string) :
  instances w !! kcref = Some client → kc_authenticated client = true →
  hooks w !! h = Some hook → isMountedRef hook = true →
  keycloak hook = Some kcref → authenticated hook = true →
  let ra := default ∅ (kc_role_attributes client) in
  let roles := getUserRoles env (Some client) in
  let w' := exec (loadRoleAttributes env h kcref) w in
  ∃ hook', hooks w' !! h = Some hook'
    ∧ hasModulePermission env w' hook' moduleName
      = negb (bool_decide (moduleName = ""))
        && (hasSuperRole env (Some client)
            || bool_decide (is_Some (ra !! moduleName))
               && negb (bool_decide (moduleName = "__proto__"))
               && (includes roles "two-shoulder"
                   || existsb isCustomRole roles
                      && claim_enables (prop_get ra moduleName))).
Proof.
  intros Hkc Hauth Hh Hm Hk Ha ra roles w'. subst w'. unfold exec.
  rewrite (loadRoleAttributes_mounted env h kcref w client hook) by done. simpl.
  rewrite !lookup_alter_eq, Hh. simpl. eexists. split; [reflexivity|].
  unfold hasModulePermission. simpl. rewrite Ha, Hk. simpl. rewrite Hkc.
  case_bool_decide as Hname; simpl; [done|].
  destruct (hasSuperRole env (Some client)) eqn:Hsuper; simpl; [done|].
  rewrite lookup_resolved_permissions by done. rewrite Hsuper. simpl.
  fold ra. fold roles. unfold prop_get.
  destruct (bool_decide (moduleName = "__proto__")) eqn:Hproto.
  { apply bool_decide_eq_true in Hproto as ->. rewrite lookup_delete_eq.
    by rewrite andb_false_r. }
  apply bool_decide_eq_false in Hproto. rewrite lookup_delete_ne by done.
  destruct (ra !! moduleName) as [value|] eqn:Hvalue; simpl; [|done].
  destruct (includes roles "two-shoulder"); simpl; [done|].
  destruct (existsb isCustomRole roles); simpl; [|done].
  by destruct (claim_enables value).
Qed.

(** ** The user profile arrives, or does not *)

(** X13: When the [loadUserProfile] call of a mounted hook settles (lines
    236-262 and 417-429), [initKeycloak] finishes either way: its promise
    resolves with the client, [loading] ends, the timer the hook had is
    cancelled and the refresh scheduler asks the provider for
    [updateToken(30)].  A profile is stored with the roles read from the
    client; a failure leaves the user info as it was and puts a message into
    the [error] of this hook only, the message of the error after
    ["Failed to load user info: "] when that message is not empty.  Nothing
    is broadcast and no other hook changes. *)
Theorem initialisation_completes_either_way env (w : World) (h : HookId)
    (kc : InstRef) (r : PromiseRef) (hook : Hook) (outcome : Outcome Profile) :
  hooks w !! h = Some hook → isMountedRef hook = true →
  AwaitUserData h kc r ∈ tasks w →
  let w' := exec (userProfile_settles env h kc r outcome) w in
  promises w' = <[r := Some (Resolved (VInstance kc))]> (promises w)
  ∧ provider_calls w' = provider_calls w ++ [call_updateToken kc 30]
  ∧ tasks w' = remove_first (AwaitUserData h kc r) (tasks w) ++ [AwaitUpdateToken h kc]
  ∧ delivered w' = delivered w
  ∧ (∀ h', h' ≠ h → hooks w' !! h' = hooks w !! h')
  ∧ (∀ t, updateTokenTimeoutRef hook = Some t → timers w' !! t = None)
  ∧ ∃ hook', hooks w' !! h = Some hook'
      ∧ loading hook' = false ∧ updateTokenTimeoutRef hook' = None
      ∧ authenticated hook' = authenticated hook ∧ token hook' = token hook
      ∧ permissions hook' = permissions hook
      ∧ match outcome with
        | Resolved profile =>
            error hook' = error hook
            ∧ ∃ info, userInfo hook' = Some info
                ∧ ui_id info = profile_id profile
                ∧ ui_username info = profile_username profile
                ∧ ui_email info = profile_email profile
                ∧ ui_roles info = getUserRoles env (instances w !! kc)
                ∧ ui_hasSuperRole info = hasSuperRole env (instances w !! kc)
        | Rejected err =>
            (err ≠ "" → error hook' = Some ("Failed to load user info: " +:+ err))
            ∧ is_Some (error hook')
            ∧ userInfo hook' = userInfo hook
        end.
Proof.
  intros Hh Hm Hparked. destruct_world w. simpl in *.
  apply (bool_decide_eq_true_2 _) in Hparked.
  unfold userProfile_settles, loadUserInfo_resume, initKeycloak_tail, setupTokenRefresh,
    updateToken_start, clear_refresh_timer, unpark, run_async, isMounted.
  js_unfold. js_eval.
  destruct outcome as [profile|err]; js_eval; rewrite ?Hm; simpl;
    destruct (updateTokenTimeoutRef hook) as [t|] eqn:Ht; js_eval; rewrite ?Hm; js_eval.
  all: split; [done|]; split; [done|]; split; [done|]; split; [done|].
  all: split; [intros h' Hne; by rewrite !lookup_alter_ne by done|].
  all: split; [first [by intros t' [= <-]; apply lookup_delete_eq | by intros ? [=]]|].
  all: rewrite ?lookup_alter_eq, ?Hh; simpl; eexists; split; [reflexivity|]; simpl.
  all: repeat split; eauto 10.
Qed.

(** ** The methods a consumer calls *)

(** X14: The [updateToken] a consumer calls (lines 524-558).  Without a client it
    rejects and the provider is not called.  With one, the provider is asked
    with the validity given, 30 by default.  When the provider renewed the
    tokens, the hook takes them, [TOKEN_UPDATED] goes to every subscriber and
    the permissions are derived again from the refreshed client; unlike the
    scheduled refresh, no timer is armed.  When nothing was renewed nothing
    changes.  A failure (with the client left as it was) is logged and
    handed to the caller; unlike the scheduled refresh it is not stored in
    the [error] of the hook. *)
Theorem manual_refresh env (w : World) (h : HookId) (hook : Hook)
    (minValidity : option Z) :
  hooks w !! h = Some hook → isMountedRef hook = true →
  (keycloak hook = None →
   updateToken_manual_start h minValidity w = (Throw "Keycloak not initialized", w))
  ∧ (∀ kc, keycloak hook = Some kc →
       updateToken_manual_start h minValidity w
       = (Normal kc,
          set_provider_calls
            (provider_calls w ++ [call_updateToken kc (default 30%Z minValidity)]) w))
  ∧ (∀ kc err,
       updateToken_manual_settles env h kc (RefreshFailed err None) w
       = (Throw err, set_console (console w ++ ["Manual token update failed: " +:+ err]) w))
  ∧ (∀ kc, updateToken_manual_settles env h kc StillValid w = (Normal false, w))
  ∧ (∀ (kc : InstRef) client, kc < length (instances w) →
       let ev := TOKEN_UPDATED (kc_token client) (kc_refreshToken client) in
       ∃ w', updateToken_manual_settles env h kc (Refreshed client) w = (Normal true, w')
         ∧ instances w' = <[kc := client]> (instances w)
         ∧ delivered w' = delivered w ++ map (λ s, (s, ev)) (stateSubscribers w)
         ∧ (∀ h', h' ≠ h →
              hooks w' !! h'
              = (if decide (h' ∈ stateSubscribers w) then handleStateChange ev else id)
                  <$> hooks w !! h')
         ∧ (∃ hook', hooks w' !! h = Some hook'
              ∧ token hook' = kc_token client
              ∧ refreshToken hook' = kc_refreshToken client
              ∧ permissions hook'
                = (if kc_authenticated client then resolved_permissions env client
                   else permissions hook)
              ∧ updateTokenTimeoutRef hook' = updateTokenTimeoutRef hook
              ∧ error hook' = error hook)
         ∧ timers w' = timers w ∧ tasks w' = tasks w
         ∧ provider_calls w' = provider_calls w).
Proof.
  intros Hh Hm. destruct_world w. simpl in *.
  unfold updateToken_manual_start, updateToken_manual_settles, updateToken_manual_resume,
    provider_writes, isMounted.
  js_unfold. simpl. rewrite Hh. simpl. rewrite Hm.
  split; [by intros ->|]. split; [by intros kc ->|]. split; [done|]. split; [done|].
  intros kc client Hkc.
  assert (Hclient : <[kc := client]> clients !! kc = Some client)
    by (by apply list_lookup_insert_eq).
  js_eval.
  destruct (kc_authenticated client) eqn:Hauth.
  - rewrite (loadRoleAttributes_run env h kc _ client);
      [|exact Hclient|exact Hauth|simpl; by rewrite mounted_notified, !lookup_alter_eq, Hh].
    js_eval. eexists. split; [reflexivity|]. simpl. rewrite ?Hclient. simpl.
    split; [done|]. split; [done|]. split.
    { intros h' Hne. by rewrite !lookup_alter_ne, notified_lookup, !lookup_alter_ne by done. }
    split; [|done].
    rewrite !lookup_alter_eq, notified_lookup, !lookup_alter_eq, Hh. simpl.
    destruct (decide _); simpl; (eexists; split; [reflexivity|]);
      unfold handleStateChange; simpl; rewrite ?Hm; done.
  - rewrite loadRoleAttributes_skips by (left; simpl; rewrite Hclient; simpl; exact Hauth).
    js_eval. eexists. split; [reflexivity|]. simpl. rewrite ?Hclient. simpl.
    split; [done|]. split; [done|]. split.
    { intros h' Hne. by rewrite notified_lookup, !lookup_alter_ne by done. }
    split; [|done].
    rewrite notified_lookup, !lookup_alter_eq, Hh. simpl.
    destruct (decide _); simpl; (eexists; split; [reflexivity|]);
      unfold handleStateChange; simpl; rewrite ?Hm; done.
Qed.

(** ** Requests to the API *)

Lemma getToken_not_empty (w : World) (hook : Hook) : getToken w hook ≠ Some "".
Proof.
  unfold getToken, or_null.
  destruct (_ ≫= _) as [v|]; [|done]. case_bool_decide; congruence.
Qed.

Lemma request_interceptor_provider (w : World) (hook : Hook)
    (headers : ApiService.Headers) :
  ApiService.request_interceptor (ApiService.provider_getter w hook) headers
  = (match getToken w hook with
     | Some t => <["Authorization" := "Bearer " +:+ t]> headers
     | None => delete "Authorization" headers
     end, []).
Proof.
  unfold ApiService.request_interceptor, ApiService.provider_getter.
  pose proof (getToken_not_empty w hook) as Hne.
  destruct (getToken w hook) as [t|]; [|done].
  rewrite bool_decide_eq_false_2; [done | congruence].
Qed.

(** X15: The request interceptor ([services/api.service.js], lines 28-49) wired
    to the hook by [KeycloakProvider].  It touches no header but
    [Authorization].  With the getter of a hook, the header is
    ["Bearer " + token] exactly when the client of the hook holds a
    non-empty token, and is removed otherwise, also a header the request
    came with; so after the session has ended no request of a mounted
    subscribed hook carries a token.  A getter that throws removes the
    header.  Before [setTokenGetter] was called the request goes out as it
    came, with whatever header it had, and the omission is logged. *)
Theorem request_carries_token_of_session
    (getTokenFunction : option (unit → Completion (option string)))
    (headers : ApiService.Headers) :
  let sent := (ApiService.request_interceptor getTokenFunction headers).1 in
  let logged := (ApiService.request_interceptor getTokenFunction headers).2 in
  (∀ k, k ≠ "Authorization" → sent !! k = headers !! k)
  ∧ (getTokenFunction = None →
       sent = headers ∧ logged = ["Token getter function not set"])
  ∧ (∀ g err, getTokenFunction = Some g → g tt = Throw err →
       sent !! "Authorization" = None ∧ logged = ["Error getting token: " +:+ err])
  ∧ (∀ w hook, getTokenFunction = ApiService.provider_getter w hook →
       sent !! "Authorization" = (λ t, "Bearer " +:+ t) <$> getToken w hook
       ∧ logged = [])
  ∧ (∀ w h hook hook', getTokenFunction
                       = ApiService.provider_getter (exec onAuthLogout w) hook' →
       hooks w !! h = Some hook → isMountedRef hook = true → h ∈ stateSubscribers w →
       hooks (exec onAuthLogout w) !! h = Some hook' →
       sent !! "Authorization" = None).
Proof.
  intros sent logged. subst sent logged.
  split; [|split; [|split; [|split]]].
  - intros k Hk. unfold ApiService.request_interceptor.
    destruct getTokenFunction as [g|]; simpl; [|done].
    destruct (g tt) as [[t|]|err]; simpl; [case_bool_decide; simpl|..];
      by rewrite ?lookup_insert_ne, ?lookup_delete_ne by congruence.
  - by intros ->.
  - intros g err -> Hg. unfold ApiService.request_interceptor. rewrite Hg. simpl.
    by rewrite lookup_delete_eq.
  - intros w hook ->. rewrite request_interceptor_provider. simpl.
    destruct (getToken w hook); simpl; by rewrite ?lookup_insert_eq, ?lookup_delete_eq.
  - intros w h hook hook' -> Hh Hm Hin Hh'. rewrite request_interceptor_provider.
    destruct_world w. unfold exec, onAuthLogout, resetGlobalState in *. js_unfold.
    simpl in *. rewrite notifyStateChange_hooks in Hh'. simpl in Hh'.
    rewrite notified_lookup, Hh, decide_True in Hh' by done. simpl in Hh'.
    injection Hh' as <-. unfold getToken, handleStateChange. rewrite Hm. simpl.
    by rewrite lookup_delete_eq.
Qed.

(** ** [initKeycloak] in a reachable world *)

Lemma coherent_run env (ts : list Turn) : phase_coherent (run env ts page_load).
Proof. apply run_invariant; [apply coherent_turn | by unfold phase_coherent]. Qed.

Lemma resetGlobalState_heap (w : World) :
  promises (exec resetGlobalState w) = promises w
  ∧ instances (exec resetGlobalState w) = instances w
  ∧ provider_calls (exec resetGlobalState w) = provider_calls w
  ∧ initializationState (exec resetGlobalState w) = idle
  ∧ keycloakInitPromise (exec resetGlobalState w) = None.
Proof.
  destruct_world w. unfold exec, resetGlobalState. js_unfold. simpl.
  by rewrite notifyStateChange_hooks.
Qed.

(** X16: In every world reached from the page load a call of [initKeycloak]
    (lines 322-430) is answered by the phase it finds.  While an
    initialisation is under way the caller is handed its promise, which
    exists; after it the caller gets the singleton.  Only from [idle] and
    [failed] a new initialisation starts, with a new client and a new
    pending promise, after a reset if the phase was [failed]; the provider's
    [init] is called exactly then, and once. *)
Theorem initKeycloak_answers_by_phase env (ts : list Turn) (h : HookId) :
  let w := run env ts page_load in
  let w' := exec (initKeycloak env h) w in
  match initializationState w with
  | initializing =>
      ∃ p, initKeycloak env h w = (Normal (ReturnedPromise (Some p)), w)
           ∧ p < length (promises w)
  | initialized =>
      ∃ kc, initKeycloak env h w = (Normal (Returned (VInstance kc)), w)
            ∧ keycloakSingleton w = Some kc ∧ kc < length (instances w)
  | idle =>
      initKeycloak env h w
      = (Normal (Parked (S (length (promises w)))), initKeycloak_started h w)
  | failed =>
      initKeycloak env h w
      = (Normal (Parked (S (length (promises w)))),
         initKeycloak_started h (exec resetGlobalState w))
  end
  ∧ init_calls w'
    = init_calls w
      + (if bool_decide (initializationState w = idle ∨ initializationState w = failed)
         then 1 else 0)
  ∧ refs_allocated w' ∧ phase_coherent w'.
Proof.
  intros w w'. subst w'.
  pose proof (coherent_run env ts) as Hco. pose proof (allocated_run env ts) as Hal.
  fold w in Hco, Hal.
  assert (Hafter : refs_allocated (exec (initKeycloak env h) w)
                   ∧ phase_coherent (exec (initKeycloak env h) w)).
  { split; [|by apply coherent_initKeycloak].
    by destruct (above_initKeycloak env h 0 0 w Hal). }
  apply allocated_above_spec in Hal as (_ & Hip & Hsg & _).
  unfold phase_coherent in Hco. clearbody w.
  destruct (initializationState w) eqn:Hst; simpl.
  - destruct Hco as (_ & Hp & _).
    split; [by apply initKeycloak_idle|]. split; [|done]. unfold exec.
    rewrite initKeycloak_idle by done. destruct_world w. unfold init_calls. simpl.
    rewrite List.filter_app, length_app. by simpl.
  - destruct Hco as (_ & [p Hp] & _). split.
    + exists p. rewrite initKeycloak_initializing, Hp by done. eauto.
    + split; [|done]. unfold exec. rewrite initKeycloak_initializing by done. simpl.
      by rewrite Nat.add_0_r.
  - destruct Hco as [kc Hkc]. destruct_world w. simpl in *. subst.
    split; [|split; [simpl; by rewrite Nat.add_0_r | done]]. exists kc. eauto.
  - destruct (resetGlobalState_heap w) as (Hp & Hi & Hc & Hst' & Hip').
    split; [|split; [|done]].
    + rewrite initKeycloak_failed, initKeycloak_idle by done.
      unfold initKeycloak_started. by rewrite Hp.
    + unfold exec at 1. rewrite initKeycloak_failed, initKeycloak_idle by done.
      unfold init_calls. simpl. by rewrite Hc, List.filter_app, length_app.
Qed.

(** ** A reset while the provider's [init] is pending *)

Lemma module_state_frame c (w w' : World) :
  keycloakSingleton w' = keycloakSingleton w →
  keycloakInitPromise w' = keycloakInitPromise w →
  initializationState w' = initializationState w →
  globalError w' = globalError w →
  delivered w' = delivered w →
  module_state w = c → module_state w' = c.
Proof. unfold module_state. by intros -> -> -> -> ->. Qed.

Create HintDb quiet discriminated.
#[export] Hint Constants Opaque : quiet.

(** Code that assigns no module variable and broadcasts nothing. *)
Ltac quiet :=
  preserve_with ltac:(eauto with quiet) ltac:(frame_prim module_state_frame).

Lemma quiet_loadRoleAttributes env h kc c :
  preserves (λ w, module_state w = c) (loadRoleAttributes env h kc).
Proof. unfold loadRoleAttributes. quiet. Qed.
#[export] Hint Resolve quiet_loadRoleAttributes : quiet.

Lemma quiet_loadUserInfo_start h kc c :
  preserves (λ w, module_state w = c) (loadUserInfo_start h kc).
Proof. unfold loadUserInfo_start. quiet. Qed.
#[export] Hint Resolve quiet_loadUserInfo_start : quiet.

Lemma quiet_initKeycloak_tail h kc c :
  preserves (λ w, module_state w = c) (initKeycloak_tail h kc).
Proof.
  unfold initKeycloak_tail, setupTokenRefresh, clear_refresh_timer, updateToken_start.
  quiet.
Qed.
#[export] Hint Resolve quiet_initKeycloak_tail : quiet.

Lemma quiet_initKeycloak_resume env h r o c :
  preserves (λ w, module_state w = c) (initKeycloak_resume env h r o).
Proof. unfold initKeycloak_resume. quiet. Qed.
#[export] Hint Resolve quiet_initKeycloak_resume : quiet.

Lemma quiet_waiters env o ws c :
  preserves (λ w, module_state w = c)
    (forEach (λ '(h, r), run_async r (initKeycloak_resume env h r o)) ws).
Proof. quiet. Qed.

(** X17: A reset does not cancel an initialisation that is under way (lines
    41-54 against 375-389): when the session ends while the provider's
    [init] is pending and [init] then resolves, its client becomes the
    singleton and the phase [initialized] all the same, and [INITIALIZED]
    goes to every subscriber after the [RESET]; [keycloakInitPromise] stays
    empty. *)
Theorem reset_does_not_cancel_initialisation env (w : World) (p : PromiseRef)
    (kc : InstRef) (a : bool) (client : KeycloakInstance) :
  AwaitProviderInit p kc ∈ tasks w →
  let w1 := exec onAuthLogout w in
  let w2 := exec (init_settles env p kc (InitOk a client)) w1 in
  shared_state_reset w1
  ∧ AwaitProviderInit p kc ∈ tasks w1
  ∧ keycloakSingleton w2 = Some kc
  ∧ initializationState w2 = initialized
  ∧ keycloakInitPromise w2 = None
  ∧ globalError w2 = None
  ∧ delivered w2
    = delivered w ++ map (λ s, (s, RESET)) (stateSubscribers w)
                  ++ map (λ s, (s, INITIALIZED kc a)) (stateSubscribers w).
Proof.
  intros Hparked w1 w2. subst w1 w2. destruct_world w. simpl in *.
  apply (bool_decide_eq_true_2 _) in Hparked.
  unfold onAuthLogout, resetGlobalState, shared_state_reset.
  js_unfold. js_eval. split; [done|]. split; [by apply bool_decide_eq_true in Hparked|].
  unfold init_settles, init_iife_resume, provider_writes, unpark, run_async.
  js_unfold. js_eval.
  match goal with
  | |- context [mjoin ?x] => destruct (mjoin x) as [o|]
  end; simpl; [|by rewrite <- app_assoc].
  match goal with
  | |- context [forEach ?F ?ws ?W] =>
      pose proof (quiet_waiters env o ws (module_state W) W eq_refl
                  : module_state (exec (forEach F ws) W) = module_state W) as Hq
  end.
  unfold exec, module_state in Hq. simpl in Hq.
  injection Hq as -> -> -> -> ->. by rewrite <- app_assoc.
Qed.

(** ** An initialisation that finds nobody logged in *)

Lemma anonymous_waiter env kc hs0 subs0 calls0 tasks0 timers0 h r :
  preserves (settled_anonymous kc hs0 subs0 calls0 tasks0 timers0)
    (run_async r (initKeycloak_resume env h r (Resolved (VInitResult kc false)))).
Proof.
  intros w (Hc & Ht & Hk & Hhooks). destruct_world w. simpl in *.
  unfold exec, run_async, initKeycloak_resume, isMounted. js_unfold. simpl.
  destruct (hs !! h) as [hk|] eqn:Hh; simpl; [|done].
  destruct (isMountedRef hk) eqn:Hm; simpl; [|done].
  split; [done|]. split; [done|]. split; [done|].
  intros h' hook0 Hh0 Hm0 Hin. destruct (Hhooks h' hook0 Hh0 Hm0 Hin) as (hook & Hh' & HG).
  simpl. destruct (decide (h' = h)) as [->|Hne].
  - rewrite !lookup_alter_eq, Hh. simpl. eexists. split; [reflexivity|].
    simpl. rewrite Hh in Hh'. injection Hh' as ->.
    by destruct HG as (_ & _ & _ & ? & ? & ?).
  - rewrite !lookup_alter_ne by done. eauto.
Qed.

Lemma anonymous_waiters env kc hs0 subs0 calls0 tasks0 timers0 ws :
  preserves (settled_anonymous kc hs0 subs0 calls0 tasks0 timers0)
    (forEach (λ '(h, r),
                run_async r (initKeycloak_resume env h r (Resolved (VInitResult kc false))))
             ws).
Proof. apply preserves_forEach. intros [h r] _. apply anonymous_waiter. Qed.

(** X18: When the provider's [init] resolves with nobody logged in (lines
    375-389 and 406-420), the client becomes the singleton and every mounted
    subscribed hook refers to it, not authenticated and not loading.  No
    user profile is asked for, no refresh is scheduled: the provider is not
    called, no timer is armed and no continuation is left waiting. *)
Theorem anonymous_session_starts_nothing env (w : World) (p : PromiseRef)
    (kc : InstRef) (client : KeycloakInstance) :
  AwaitProviderInit p kc ∈ tasks w →
  let w' := exec (init_settles env p kc (InitOk false client)) w in
  provider_calls w' = provider_calls w
  ∧ timers w' = timers w
  ∧ tasks w'
    = List.filter (λ t, negb (is_waiter p t))
                  (remove_first (AwaitProviderInit p kc) (tasks w))
  ∧ (∀ h hook, hooks w !! h = Some hook → isMountedRef hook = true →
       h ∈ stateSubscribers w →
       ∃ hook', hooks w' !! h = Some hook'
         ∧ keycloak hook' = Some kc ∧ authenticated hook' = false
         ∧ loading hook' = false
         ∧ token hook' = token hook ∧ userInfo hook' = userInfo hook
         ∧ permissions hook' = permissions hook).
Proof.
  intros Hparked w'. subst w'. destruct_world w. simpl in *.
  apply (bool_decide_eq_true_2 _) in Hparked.
  unfold init_settles, init_iife_resume, provider_writes, unpark, run_async.
  js_unfold. js_eval.
  assert (Hhooks : ∀ h hook, hs !! h = Some hook → isMountedRef hook = true → h ∈ subs →
    ∃ hook', notified (INITIALIZED kc false) subs hs !! h = Some hook'
      ∧ keycloak hook' = Some kc ∧ authenticated hook' = false ∧ loading hook' = false
      ∧ token hook' = token hook ∧ userInfo hook' = userInfo hook
      ∧ permissions hook' = permissions hook).
  { intros h hook Hh Hm Hin. rewrite notified_lookup, Hh, decide_True by done.
    simpl. eexists. split; [reflexivity|]. unfold handleStateChange. by rewrite Hm. }
  match goal with
  | |- context [mjoin ?x] => destruct (mjoin x) as [o|] eqn:Ho
  end; simpl; [|done].
  assert (o = Resolved (VInitResult kc false)) as ->.
  { destruct (decide (p < length proms)) as [Hp|Hp].
    - rewrite list_lookup_insert_eq in Ho by done. simpl in Ho. congruence.
    - rewrite lookup_ge_None_2 in Ho; [done|]. rewrite length_insert. lia. }
  match goal with
  | |- context [forEach ?F ?ws ?W] =>
      pose proof (anonymous_waiters env kc hs subs pcalls _ tms ws W
                    (conj eq_refl (conj eq_refl (conj eq_refl Hhooks)))
                  : settled_anonymous kc hs subs pcalls _ tms (exec (forEach F ws) W))
        as Hq
  end.
  unfold exec, settled_anonymous in Hq. simpl in Hq. exact Hq.
Qed.

(** ** What [logout] shows, and what it leaves running *)

(** X19: The feedback of [logout] (lines 448-492) does not outlive the turn
    that gives it: [loading] is set and the reset that follows broadcasts
    [RESET], whose handler of the same hook clears it again; in the same way
    the message of a failed provider logout is set and cleared by the second
    reset.  A mounted subscribed hook so ends both turns not loading and
    without error; the failure is on the console only. *)
Theorem logout_feedback_is_wiped_by_reset env (w : World) (h : HookId) (hook : Hook)
    (kc : InstRef) (options : gmap string string) (err : Exn) :
  hooks w !! h = Some hook → keycloak hook = Some kc → isMountedRef hook = true →
  h ∈ stateSubscribers w →
  let w1 := exec (logout_start env h options) w in
  let w2 := exec (logout_settles h (Rejected err)) w1 in
  (∃ hook1, hooks w1 !! h = Some hook1 ∧ loading hook1 = false ∧ error hook1 = None)
  ∧ (∃ hook2, hooks w2 !! h = Some hook2 ∧ loading hook2 = false ∧ error hook2 = None)
  ∧ console w2 = console w ++ ["Logout failed: " +:+ err]
  ∧ delivered w2
    = delivered w ++ map (λ s, (s, RESET)) (stateSubscribers w)
                  ++ map (λ s, (s, RESET)) (stateSubscribers w).
Proof.
  intros Hh Hk Hm Hin. destruct_world w. simpl in *.
  unfold logout_settles, logout_resume, logout_start, clear_refresh_timer,
    resetGlobalState, isMounted, unpark.
  js_unfold.
  destruct (updateTokenTimeoutRef hook) as [t|] eqn:Ht; js_eval.
  all: split; [|split; [|split; [done | by rewrite <- app_assoc]]].
  all: repeat (rewrite notified_lookup || rewrite lookup_alter_eq); rewrite Hh; simpl.
  all: rewrite ?decide_True by done; simpl.
  all: (eexists; split; [reflexivity|]).
  all: unfold handleStateChange; repeat (progress (simpl; rewrite ?Hm)); done.
Qed.



(** ** Roles *)

(** X21: How the super role is recognised (lines 116-139 and
    [config/env.config.js], line 14).  Its name is the configured one, and
    ["tsadmin"] when none or an empty one is configured.  A client that is
    missing or not authenticated never has it; with a client id configured,
    an authenticated one has it exactly when the name is among its realm
    roles or among the roles it holds for that client id. *)
Theorem super_role_recognition env (client : KeycloakInstance) :
  hasSuperRole env None = false
  ∧ (kc_authenticated client = false → hasSuperRole env (Some client) = false)
  ∧ (kc_authenticated client = true → ∀ c, VITE_KEYCLOAK_CLIENT env = Some c →
       (hasSuperRole env (Some client) = true
        ↔ SUPER_ROLE env ∈ default [] (kc_realmAccess client)
          ∨ ∃ roles, kc_resourceAccess client !! c = Some roles ∧ SUPER_ROLE env ∈ roles))
  ∧ (SUPER_ROLE env
     = match VITE_KEYCLOAK_SUPER_ROLE env with
       | Some name => if bool_decide (name = "") then "tsadmin" else name
       | None => "tsadmin"
       end).
Proof.
  split; [done|]. split; [by unfold hasSuperRole; intros ->|]. split; [|done].
  intros Hauth c Hid. unfold hasSuperRole, getUserRoles, getClientRoles, includes, clientId.
  rewrite Hauth, Hid. simpl. rewrite bool_decide_eq_true, elem_of_app.
  split; (intros [Hrealm | Hclient]; [by left | right]).
  - destruct (kc_resourceAccess client !! c) as [roles|] eqn:Hc; simpl in *;
      [|by apply elem_of_nil in Hclient].
    eauto.
  - destruct Hclient as (roles & Hc & Hin). by rewrite Hc.
Qed.

Lemma lookup_roleAttributesMap (roles : list string) (ra : gmap string JsVal)
    (k : string) :
  roleAttributesMap roles ra !! k
  = if existsb (λ role, bool_decide (k = "realm:" +:+ role)) roles then Some ra else None.
Proof.
  unfold roleAttributesMap.
  assert (Hgen : ∀ acc : gmap string (gmap string JsVal),
    foldl (λ acc role, <["realm:" +:+ role := ra]> acc) acc roles !! k
    = if existsb (λ role, bool_decide (k = "realm:" +:+ role)) roles then Some ra
      else acc !! k).
  { induction roles as [|role roles IH]; intros acc; simpl; [done|].
    rewrite IH. destruct (existsb _ roles); [by rewrite orb_true_r|].
    rewrite orb_false_r. case_bool_decide as Hk.
    - subst k. by rewrite lookup_insert_eq.
    - by rewrite lookup_insert_ne. }
  rewrite Hgen. by destruct (existsb _ roles).
Qed.

(** X22: Which roles count as custom (lines 142-150), and what is stored per
    custom role (lines 205-208).  A role is custom unless its name starts
    with ["default-roles-"] or is ["offline_access"] or
    ["uma_authorization"]: listing ["two-shoulder"] among the default roles
    has no effect, the test before it lets the name through.  The stored
    role attributes hold the whole claim object once per custom role of the
    user, under the key ["realm:" + role], and nothing else. *)
Theorem custom_roles_and_their_attributes env (client : KeycloakInstance)
    (roleName k : string) :
  isCustomRole roleName
  = negb (String.prefix "default-roles-" roleName)
    && negb (bool_decide (roleName ∈ ["offline_access"; "uma_authorization"]))
  ∧ resolved_roleAttributes env client !! k
    = if existsb (λ role, isCustomRole role && bool_decide (k = "realm:" +:+ role))
                 (getUserRoles env (Some client))
      then Some (default ∅ (kc_role_attributes client)) else None.
Proof.
  split.
  - unfold isCustomRole, defaultRoles, includes.
    destruct (String.prefix "default-roles-" roleName); simpl; [done|].
    case_bool_decide as H2.
    + subst. by vm_compute.
    + repeat case_bool_decide; try done.
      * exfalso. repeat match goal with
          | H : _ ∈ _ :: _ |- _ => apply elem_of_cons in H as [->|H]
          | H : _ ∈ [] |- _ => by apply elem_of_nil in H
          | H : ¬ _ ∈ _ |- _ => apply H; rewrite !elem_of_cons; auto
          end; try done.
      * exfalso. repeat match goal with
          | H : _ ∈ _ :: _ |- _ => apply elem_of_cons in H as [->|H]
          | H : _ ∈ [] |- _ => by apply elem_of_nil in H
          | H : ¬ _ ∈ _ |- _ => apply H; rewrite !elem_of_cons; auto
          end; try done.
  - unfold resolved_roleAttributes. rewrite lookup_roleAttributesMap.
    generalize (getUserRoles env (Some client)) as roles. intros roles.
    assert (Hex : existsb (λ role, bool_decide (k = "realm:" +:+ role))
                    (List.filter isCustomRole roles)
                  = existsb (λ role, isCustomRole role && bool_decide (k = "realm:" +:+ role))
                      roles).
    { induction roles as [|role roles IH]; simpl; [done|].
      destruct (isCustomRole role); simpl; by rewrite IH. }
    by rewrite Hex.
Qed.

(** ** The consumers that did not start the initialisation *)

(** A primitive of another hook leaves the hook alone. *)
Ltac elsewhere_prim :=
  let w := fresh "w" in let Hw := fresh "Hw" in
  intros w Hw; destruct w;
  unfold exec, upd, console_error, provider_call, park, unpark, new_promise, settle,
    new_Keycloak, setTimeout, clearTimeout, provider_writes, modify, gets;
  simpl in *; repeat (case_bool_decide; simpl);
  rewrite ?lookup_alter_ne by done; exact Hw.

Create HintDb elsewhere discriminated.
#[export] Hint Constants Opaque : elsewhere.

Ltac elsewhere := preserve_with ltac:(eauto with elsewhere) ltac:(elsewhere_prim).

Lemma elsewhere_loadRoleAttributes env h kc h2 c :
  h ≠ h2 → preserves (λ w, hooks w !! h2 = c) (loadRoleAttributes env h kc).
Proof. intros Hne. unfold loadRoleAttributes. elsewhere. Qed.
#[export] Hint Resolve elsewhere_loadRoleAttributes : elsewhere.

Lemma elsewhere_loadUserInfo_start h kc h2 c :
  preserves (λ w, hooks w !! h2 = c) (loadUserInfo_start h kc).
Proof. unfold loadUserInfo_start. elsewhere. Qed.
#[export] Hint Resolve elsewhere_loadUserInfo_start : elsewhere.

Lemma elsewhere_initKeycloak_tail h kc h2 c :
  h ≠ h2 → preserves (λ w, hooks w !! h2 = c) (initKeycloak_tail h kc).
Proof.
  intros Hne.
  unfold initKeycloak_tail, setupTokenRefresh, clear_refresh_timer, updateToken_start.
  elsewhere.
Qed.
#[export] Hint Resolve elsewhere_initKeycloak_tail : elsewhere.

Lemma elsewhere_initKeycloak_resume env h r o h2 c :
  h ≠ h2 → preserves (λ w, hooks w !! h2 = c) (initKeycloak_resume env h r o).
Proof. intros Hne. unfold initKeycloak_resume. elsewhere. Qed.
#[export] Hint Resolve elsewhere_initKeycloak_resume : elsewhere.



(** * The further properties on the demo deployment *)

Example demo_worlds :
  tasks demo_attached = [AwaitProviderInit 0 0; AwaitInitPromise 0 0 1]
  ∧ initializationState demo_failed = failed
  ∧ tasks demo_awaiting_profile = [AwaitUserData 0 0 1]
  ∧ tasks (demo_session ["editor"]) = [AwaitUpdateToken 0 0]
  ∧ stateSubscribers (demo_session ["editor"]) = [0; 1]
  ∧ stateSubscribers demo_detached = [1]
  ∧ (token <$> hooks (demo_session ["editor"]) !! 0) = Some (Some "access-1")
  ∧ (token <$> hooks (demo_session ["editor"]) !! 1) = Some None
  ∧ timers (demo_session ["editor"]) = ∅
  ∧ length (promises demo_attached) = 2.
Proof. vm_compute. done. Qed.

(** X1 on the demo deployment.  The provider rejects [init] while two
    consumers are attached: the call of hook 0, which waits on promise 1, is
    rejected with the error. *)
Lemma init_failure_reaches_everyone_witness :
  let w' := exec (init_settles demo_env 0 0 (InitFailed "network error")) demo_attached in
  initializationState w' = failed
  ∧ globalError w' = Some "network error"
  ∧ promises w' !! 0 = Some (Some (Rejected "network error")).
Proof.
  cbv zeta.
  edestruct (init_failure_reaches_everyone demo_env 0 0 "network error" demo_attached)
    as (Hphase & Herr & _ & _ & _ & _ & Hp & _).
  - vm_compute. apply list_elem_of_here.
  - vm_compute. lia.
  - split; [exact Hphase|]. split; [exact Herr|exact Hp].
Defined.

(** X2 on the demo deployment.  Hook 1 calls [initKeycloak] after the failure. *)
Lemma retry_after_failure_witness :
  ∃ w', initKeycloak demo_env 1 demo_failed = (Normal (Parked 3), w')
        ∧ initializationState w' = initializing
        ∧ globalError w' = None.
Proof.
  edestruct (retry_after_failure demo_env 1 demo_failed)
    as (w' & Hrun & Hphase & Herr & _).
  - vm_compute; reflexivity.
  - exists w'. split; [exact Hrun|]. split; [exact Hphase|exact Herr].
Defined.

(** X3 on the demo deployment.  A third consumer attaches to the running
    session. *)
Lemma late_consumer_adopts_singleton_witness :
  let w' := exec (mount demo_env 2) (demo_session ["editor"]) in
  (∃ hook', hooks w' !! 2 = Some hook' ∧ token hook' = Some "access-1"
            ∧ permissions hook' = ∅)
  ∧ provider_calls w' = provider_calls (demo_session ["editor"]).
Proof.
  cbv zeta.
  edestruct (late_consumer_adopts_singleton demo_env 2 (demo_session ["editor"]) 0
               (demo_client ["editor"]))
    as (_ & Hhook & _ & _ & Hcalls & _).
  - vm_compute; reflexivity.
  - vm_compute; reflexivity.
  - vm_compute; reflexivity.
  - split; [|exact Hcalls]. eexists. split; [exact Hhook|]. split; reflexivity.
Defined.

(** X4 on the demo deployment.  Hook 0 of the session is detached. *)
Lemma detach_unsubscribes_and_cancels_witness :
  stateSubscribers (exec (unmount 0) (demo_session ["editor"])) = [1].
Proof.
  edestruct (detach_unsubscribes_and_cancels 0 (demo_session ["editor"])) as (Hsubs & _).
  - vm_compute; reflexivity.
  - rewrite Hsubs. vm_compute; reflexivity.
Defined.

(** X5 on the demo deployment.  The detached hook 0 when the provider answers
    its refresh. *)
Lemma detached_hook_is_inert_witness :
  let w' := exec (updateToken_settles demo_env 0 0 (Refreshed demo_refreshed_client))
              demo_detached in
  hooks w' = hooks demo_detached ∧ timers w' = timers demo_detached
  ∧ delivered w' = delivered demo_detached.
Proof.
  cbv zeta.
  edestruct (detached_hook_is_inert demo_env 0 demo_detached) as (_ & Hsettle & _).
  - vm_compute; reflexivity.
  - reflexivity.
  - destruct (Hsettle 0 (Refreshed demo_refreshed_client)) as (Hh & Ht & Hd & _).
    split; [exact Hh|]. split; [exact Ht|exact Hd].
Defined.

(** X6 on the demo deployment.  The provider renews the tokens of the session. *)
Lemma scheduled_refresh_propagates_witness :
  let w := demo_session ["editor"] in
  let w' := exec (updateToken_settles demo_env 0 0 (Refreshed demo_refreshed_client)) w in
  delivered w'
  = delivered w ++ [(0, TOKEN_UPDATED (Some "access-2") (Some "refresh-2"));
                    (1, TOKEN_UPDATED (Some "access-2") (Some "refresh-2"))]
  ∧ timers w' = {[ nextTimer w := (0, 0, 300000%Z) ]}.
Proof.
  cbv zeta.
  edestruct (scheduled_refresh_propagates demo_env (demo_session ["editor"]) 0 0)
    with (client := demo_refreshed_client)
    as (Hdel & _ & _ & Htimers & _).
  - vm_compute; reflexivity.
  - reflexivity.
  - vm_compute. apply list_elem_of_here.
  - vm_compute. lia.
  - split; [rewrite Hdel; vm_compute; reflexivity|].
    rewrite Htimers. vm_compute; reflexivity.
Defined.

(** X7 on the demo deployment.  The provider answers that the token of the
    session is still valid, and the timer fires. *)
Lemma refresh_cycle_witness :
  let w := demo_session ["editor"] in
  let w1 := exec (updateToken_settles demo_env 0 0 StillValid) w in
  let w2 := exec (timer_fires (nextTimer w)) w1 in
  delivered w1 = delivered w
  ∧ provider_calls w2 = provider_calls w ++ [call_updateToken 0 30].
Proof.
  cbv zeta.
  edestruct (refresh_cycle demo_env (demo_session ["editor"]) 0 0) with (answer := StillValid)
    as (_ & _ & _ & Hvalid & Hcalls & _).
  - vm_compute; reflexivity.
  - reflexivity.
  - vm_compute. apply list_elem_of_here.
  - intros err client. discriminate.
  - destruct (Hvalid eq_refl) as (Hdel & _). split; [exact Hdel|exact Hcalls].
Defined.

(** X12 on the demo deployment.  A "two-shoulder" holder whose claims have the
    own key ["__proto__"] is refused that module and granted [reports]. *)
Lemma permission_decision_witness :
  let w := demo_proto_session ["two-shoulder"] in
  let w' := exec (loadRoleAttributes demo_env 0 0) w in
  (∃ hook', hooks w' !! 0 = Some hook'
            ∧ hasModulePermission demo_env w' hook' "__proto__" = false)
  ∧ (∃ hook', hooks w' !! 0 = Some hook'
              ∧ hasModulePermission demo_env w' hook' "reports" = true).
Proof.
  cbv zeta. split.
  - edestruct (permission_decision demo_env (demo_proto_session ["two-shoulder"]) 0 0
                 (demo_proto_client ["two-shoulder"])) with (moduleName := "__proto__")
      as (hook' & Hl & Hp).
    + vm_compute; reflexivity.
    + reflexivity.
    + vm_compute; reflexivity.
    + reflexivity.
    + reflexivity.
    + reflexivity.
    + exists hook'. split; [exact Hl|]. rewrite Hp. vm_compute; reflexivity.
  - edestruct (permission_decision demo_env (demo_proto_session ["two-shoulder"]) 0 0
                 (demo_proto_client ["two-shoulder"])) with (moduleName := "reports")
      as (hook' & Hl & Hp).
    + vm_compute; reflexivity.
    + reflexivity.
    + vm_compute; reflexivity.
    + reflexivity.
    + reflexivity.
    + reflexivity.
    + exists hook'. split; [exact Hl|]. rewrite Hp. vm_compute; reflexivity.
Defined.

(** X13 on the demo deployment.  The profile of hook 0 does not arrive. *)
Lemma initialisation_completes_either_way_witness :
  let w := demo_awaiting_profile in
  let w' := exec (userProfile_settles demo_env 0 0 1 (Rejected "timeout")) w in
  promises w' !! 1 = Some (Some (Resolved (VInstance 0)))
  ∧ provider_calls w' = provider_calls w ++ [call_updateToken 0 30]
  ∧ delivered w' = delivered w.
Proof.
  cbv zeta.
  edestruct (initialisation_completes_either_way demo_env demo_awaiting_profile 0 0 1)
    with (outcome := @Rejected Profile "timeout")
    as (Hp & Hcalls & _ & Hdel & _).
  - vm_compute; reflexivity.
  - reflexivity.
  - vm_compute. apply list_elem_of_here.
  - split; [rewrite Hp; vm_compute; reflexivity|]. split; [exact Hcalls|exact Hdel].
Defined.

(** X14 on the demo deployment.  Hook 1 of the session asks for a refresh. *)
Lemma manual_refresh_witness :
  let w := demo_session ["editor"] in
  updateToken_manual_start 1 None w
  = (Normal 0, set_provider_calls (provider_calls w ++ [call_updateToken 0 30]) w)
  ∧ updateToken_manual_settles demo_env 1 0 StillValid w = (Normal false, w).
Proof.
  cbv zeta.
  edestruct (manual_refresh demo_env (demo_session ["editor"]) 1) with (minValidity := @None Z)
    as (_ & Hstart & _ & Hvalid & _).
  - vm_compute; reflexivity.
  - reflexivity.
  - split; [apply (Hstart 0); reflexivity|apply (Hvalid 0)].
Defined.

(** X17 on the demo deployment.  The session ends while the provider's [init]
    is pending, and [init] resolves afterwards. *)
Lemma reset_does_not_cancel_initialisation_witness :
  let w1 := exec onAuthLogout demo_attached in
  let w2 := exec (init_settles demo_env 0 0 (InitOk true (demo_client ["editor"]))) w1 in
  initializationState w1 = idle
  ∧ initializationState w2 = initialized
  ∧ keycloakSingleton w2 = Some 0
  ∧ keycloakInitPromise w2 = None.
Proof.
  cbv zeta.
  edestruct (reset_does_not_cancel_initialisation demo_env demo_attached 0 0 true
               (demo_client ["editor"]))
    as ((_ & _ & Hidle & _) & _ & Hsingle & Hphase & Hpromise & _).
  - vm_compute. apply list_elem_of_here.
  - split; [exact Hidle|]. split; [exact Hphase|]. split; [exact Hsingle|exact Hpromise].
Defined.

(** X18 on the demo deployment.  The provider's [init] resolves with nobody
    logged in. *)
Lemma anonymous_session_starts_nothing_witness :
  let client :=
    {| kc_authenticated := false; kc_token := None; kc_refreshToken := None;
       kc_role_attributes := None; kc_realmAccess := None; kc_resourceAccess := ∅ |} in
  let w' := exec (init_settles demo_env 0 0 (InitOk false client)) demo_attached in
  provider_calls w' = provider_calls demo_attached
  ∧ timers w' = timers demo_attached
  ∧ tasks w' = [].
Proof.
  cbv zeta.
  edestruct (anonymous_session_starts_nothing demo_env demo_attached 0 0)
    as (Hcalls & Htimers & Htasks & _).
  - vm_compute. apply list_elem_of_here.
  - split; [exact Hcalls|]. split; [exact Htimers|]. rewrite Htasks. vm_compute; reflexivity.
Defined.

(** X19 on the demo deployment.  Hook 0 logs out and the provider's [logout]
    fails. *)
Lemma logout_feedback_is_wiped_by_reset_witness :
  let w := demo_session ["editor"] in
  let w1 := exec (logout_start demo_env 0 ∅) w in
  let w2 := exec (logout_settles 0 (Rejected "offline")) w1 in
  (∃ hook2, hooks w2 !! 0 = Some hook2 ∧ loading hook2 = false ∧ error hook2 = None)
  ∧ console w2 = console w ++ ["Logout failed: offline"].
Proof.
  cbv zeta.
  edestruct (logout_feedback_is_wiped_by_reset demo_env (demo_session ["editor"]) 0)
    with (kc := 0) (options := (∅ : gmap string string)) (err := "offline")
    as (_ & Hhook & Hconsole & _).
  - vm_compute; reflexivity.
  - reflexivity.
  - reflexivity.
  - vm_compute. apply list_elem_of_here.
  - split; [exact Hhook|exact Hconsole].
Defined.


